(** * josiepy: the Euler flux law, the Rusanov flux rule, the CFL bound and
    the Runge-Kutta stage recursion

    A shallow embedding of
    - [josie/solver/euler/problem.py] ([flux], [eigs]),
    - [josie/euler/schemes/rusanov.py] ([Rusanov.compute_sigma], [Rusanov.F]),
    - [tests/advection/one/test_advectionDG.py] ([Upwind.CFL], [RKDG.k]).

    numpy arrays are lists; an operation that raises in Python returns [None].
    The code is written once over a scalar interface and read at three
    instances: the real numbers (float64 idealised, used for the algebraic
    laws), IEEE binary64 (what numpy computes, used for concrete runs and for
    the non-finite values), and symbolic expressions (used to list the
    operations a function performs). *)

From Stdlib Require Import List Bool Arith ZArith Lia.
From Stdlib Require Import Reals Lra.
From Stdlib Require Import Floats.
From Stdlib Require Import Setoid Morphisms.
Import ListNotations.

(** ** Scalars *)

(** The operations the sources apply to array entries. *)
Class Scalar (T : Type) : Type := {
  zero : T;                 (* 0, np.zeros_like *)
  one : T;                  (* 1.0 *)
  half : T;                 (* 0.5 *)
  add : T -> T -> T;
  sub : T -> T -> T;
  mul : T -> T -> T;
  div : T -> T -> T;
  opp : T -> T;
  absv : T -> T;            (* np.abs *)
  maxv : T -> T -> T;       (* one step of np.max *)
  minv : T -> T -> T;       (* one step of np.min *)
  sqrtv : T -> T            (* np.sqrt *)
}.

Declare Scope num_scope.
Delimit Scope num_scope with num.
Infix "+" := add : num_scope.
Infix "-" := sub : num_scope.
Infix "*" := mul : num_scope.
Infix "/" := div : num_scope.
Notation "- x" := (opp x) : num_scope.

(** float64 idealised as a real number. *)
#[export] Instance R_scalar : Scalar R := {
  zero := 0%R; one := 1%R; half := (1 / 2)%R;
  add := Rplus; sub := Rminus; mul := Rmult; div := Rdiv; opp := Ropp;
  absv := Rabs; maxv := Rmax; minv := Rmin; sqrtv := R_sqrt.sqrt
}.

(** IEEE binary64. [np.max] and [np.min] propagate NaN. *)
Definition fmax64 (a b : float) : float :=
  if PrimFloat.is_nan a then a
  else if PrimFloat.is_nan b then b
  else if PrimFloat.ltb a b then b else a.

Definition fmin64 (a b : float) : float :=
  if PrimFloat.is_nan a then a
  else if PrimFloat.is_nan b then b
  else if PrimFloat.ltb b a then b else a.

#[export] Instance float_scalar : Scalar float := {
  zero := 0%float; one := 1%float; half := 0.5%float;
  add := PrimFloat.add; sub := PrimFloat.sub; mul := PrimFloat.mul;
  div := PrimFloat.div; opp := PrimFloat.opp;
  absv := PrimFloat.abs; maxv := fmax64; minv := fmin64;
  sqrtv := PrimFloat.sqrt
}.

(** Symbolic scalars: the expression a result was computed by. *)
Inductive expr : Type :=
| EVar (n : nat)
| EZero | EOne | EHalf
| EAdd (a b : expr) | ESub (a b : expr) | EMul (a b : expr)
| EDiv (a b : expr)
| EOpp (a : expr) | EAbs (a : expr)
| EMax (a b : expr) | EMin (a b : expr)
| ESqrt (a : expr).

#[export] Instance expr_scalar : Scalar expr := {
  zero := EZero; one := EOne; half := EHalf;
  add := EAdd; sub := ESub; mul := EMul; div := EDiv; opp := EOpp;
  absv := EAbs; maxv := EMax; minv := EMin; sqrtv := ESqrt
}.

(** Does the expression contain a division? *)
Fixpoint has_div (e : expr) : bool :=
  match e with
  | EVar _ | EZero | EOne | EHalf => false
  | EDiv _ _ => true
  | EAdd a b | ESub a b | EMul a b | EMax a b | EMin a b =>
      has_div a || has_div b
  | EOpp a | EAbs a | ESqrt a => has_div a
  end.

(** ** Failure *)

(** [None] is a raised exception (IndexError, ValueError). *)
Notation "x <- e ;; k" :=
  (match e with Some x => k | None => None end)
  (at level 61, e at next level, right associativity).

Fixpoint mapM {A B : Type} (f : A -> option B) (l : list A) : option (list B) :=
  match l with
  | [] => Some []
  | a :: r => b <- f a ;; bs <- mapM f r ;; Some (b :: bs)
  end.

(** ** numpy on the last axis *)

Section Numpy.
Context {T : Type} `{Scalar T}.
Local Open Scope num_scope.

(** [np.zeros_like] *)
Definition zeros_like (a : list T) : list T := map (fun _ => zero) a.

(** [np.abs] *)
Definition np_abs (a : list T) : list T := map absv a.

(** Entries paired by position; the shapes are checked by the callers. *)
Fixpoint zip_with (f : T -> T -> T) (xs ys : list T) : list T :=
  match xs, ys with
  | x :: xs', y :: ys' => f x y :: zip_with f xs' ys'
  | _, _ => []
  end.

(** A binary ufunc on two 1-d arrays: an array of one entry is broadcast,
    otherwise the lengths must agree (ValueError). *)
Definition broadcast (f : T -> T -> T) (xs ys : list T) : option (list T) :=
  match xs, ys with
  | [x], _ => Some (map (f x) ys)
  | _, [y] => Some (map (fun x => f x y) xs)
  | _, _ =>
      if Nat.eqb (length xs) (length ys) then Some (zip_with f xs ys)
      else None
  end.

(** [a -= b] on 1-d arrays: [b] is broadcast to [a], never [a] to [b]. *)
Definition isub (a b : list T) : option (list T) :=
  match b with
  | [y] => Some (map (fun x => sub x y) a)
  | _ =>
      if Nat.eqb (length a) (length b) then Some (zip_with sub a b)
      else None
  end.

(** A Python float times an array. *)
Definition scale (a : T) (xs : list T) : list T := map (mul a) xs.

(** [np.sum] of a 1-d array. *)
Definition np_sum (a : list T) : T := fold_left add a zero.

(** [np.max] of a 1-d array; ValueError on an empty one. *)
Definition np_max (a : list T) : option T :=
  match a with
  | [] => None
  | x :: r => Some (fold_left maxv r x)
  end.

(** [np.min] of a 1-d array; ValueError on an empty one. *)
Definition np_min (a : list T) : option T :=
  match a with
  | [] => None
  | x :: r => Some (fold_left minv r x)
  end.

(** [np.einsum("...l,...l->...", a, b)]: the contraction of two 1-d arrays
    of one length. *)
Definition dot (a b : list T) : option T :=
  if Nat.eqb (length a) (length b) then Some (np_sum (zip_with mul a b))
  else None.

(** [np.einsum("...kl,...l->...k", A, n)] *)
Definition einsum_kl_l (A : list (list T)) (n : list T) : option (list T) :=
  mapM (fun row => dot row n) A.

(** [np.linalg.norm] of a 1-d array. *)
Definition norm (v : list T) : T := sqrtv (np_sum (zip_with mul v v)).
End Numpy.

Section Arrays.
Context {A B C : Type}.

(** Two arrays walked together along their first axis; shapes that differ
    are a ValueError. *)
Fixpoint mapM2 (f : A -> B -> option C) (xs : list A) (ys : list B)
  : option (list C) :=
  match xs, ys with
  | [], [] => Some []
  | x :: xs', y :: ys' =>
      z <- f x y ;; zs <- mapM2 f xs' ys' ;; Some (z :: zs)
  | _, _ => None
  end.

(** Four arrays walked together along their first axis. *)
Fixpoint mapM4 {D E : Type} (f : A -> B -> C -> D -> option E)
    (ws : list A) (xs : list B) (ys : list C) (zs : list D)
  : option (list E) :=
  match ws, xs, ys, zs with
  | [], [], [], [] => Some []
  | w :: ws', x :: xs', y :: ys', z :: zs' =>
      e <- f w x y z ;; es <- mapM4 f ws' xs' ys' zs' ;; Some (e :: es)
  | _, _, _, _ => None
  end.

(** [a[lo:hi]]: a Python slice, clamped to the array. *)
Definition slice (a : list A) (lo hi : nat) : list A :=
  firstn (hi - lo) (skipn lo a).

(** [a[i] = x]; IndexError when [i] is out of range. *)
Fixpoint set_at (a : list A) (i : nat) (x : A) : option (list A) :=
  match a, i with
  | [], _ => None
  | _ :: r, O => Some (x :: r)
  | y :: r, S i' => r' <- set_at r i' x ;; Some (y :: r')
  end.
End Arrays.

(** ** The Euler state *)

(** Modelled from the spec: [josie/euler/state.py], which declares the schema
    of [Q] and of [EigState], is not among the sources.  The layout is the one
    the sources rely on: nine fields (problem.py: "dimension [Nx * Ny * 9]"),
    the first four of them the conservative ones (rusanov.py: "First four
    variables of the total state are the conservative variables (rho, rhoU,
    rhoV, rhoE)"), and [V] right after [U] (problem.py slices
    [fields.U : fields.V + 1]). *)
Module fields.
Inductive t : Type := rho | rhoU | rhoV | rhoE | rhoe | U | V | p | c.

Definition index (f : t) : nat :=
  match f with
  | rho => 0 | rhoU => 1 | rhoV => 2 | rhoE => 3 | rhoe => 4
  | U => 5 | V => 6 | p => 7 | c => 8
  end.

(** The conservative sub-range. *)
Definition cons : list t := [rho; rhoU; rhoV; rhoE].

Definition is_cons (f : t) : bool :=
  match f with
  | rho | rhoU | rhoV | rhoE => true
  | _ => false
  end.
End fields.

(** Modelled from the spec: the two columns of [EigState]. *)
Module eigfields.
Inductive t : Type := UPLUS | UMINUS.
Definition index (f : t) : nat :=
  match f with UPLUS => 0 | UMINUS => 1 end.
End eigfields.

Section State.
Context {T : Type} `{Scalar T}.
Local Open Scope num_scope.

(** [q[..., f]]; IndexError when the state is too short. *)
Definition getf (q : list T) (f : fields.t) : option T :=
  nth_error q (fields.index f).

(** Modelled from the spec: [State.get_conservative] reads the
    conservative sub-range. *)
Definition get_conservative (q : list T) : option (list T) :=
  mapM (getf q) fields.cons.

(** Modelled from the spec: [State.set_conservative] writes the
    conservative sub-range and leaves the other entries as they are. *)
Definition set_conservative (q v : list T) : option (list T) :=
  if Nat.eqb (length v) (length fields.cons)
     && Nat.leb (length fields.cons) (length q)
  then Some (v ++ skipn (length fields.cons) q)
  else None.

(** Modelled from the spec: [EulerScheme.compute_U_norm] projects the
    velocity onto the face normal, [U_n = velocity . normal], and keeps a
    last axis of size one. *)
Definition compute_U_norm (q normal : list T) : option (list T) :=
  let UV := slice q (fields.index fields.U) (fields.index fields.V + 1) in
  U_n <- dot UV normal ;;
  Some [U_n].
End State.

(** ** josie/solver/euler/problem.py *)

Module Euler.
Section Euler.
Context {T : Type} `{Scalar T}.
Local Open Scope num_scope.

(** [eigs], at one cell.  [np.empty((nx, ny, 2))] gives the cell two
    entries, both assigned afterwards; zero stands for an entry that is not
    assigned yet. *)
Definition eigs_cell (q normal : list T) : option (list T) :=
  let UV := slice q (fields.index fields.U) (fields.index fields.V + 1) in
  U <- dot UV normal ;;
  c <- getf q fields.c ;;
  let Uplus := U + c in
  let Uminus := U - c in
  eigs <- set_at [zero; zero] (eigfields.index eigfields.UPLUS) Uplus ;;
  set_at eigs (eigfields.index eigfields.UMINUS) Uminus.

(** [eigs(state_array, normals)] on an [nx * ny] mesh. *)
Definition eigs (state_array : list (list (list T)))
    (normals : list (list (list T))) : option (list (list (list T))) :=
  mapM2 (mapM2 eigs_cell) state_array normals.

(** [flux], at one cell: the eight entries assigned to [F[:, :, k, l]]. *)
Definition flux_cell (q : list T) : option (list (list T)) :=
  rhoU <- getf q fields.rhoU ;;
  rhoV <- getf q fields.rhoV ;;
  rhoE <- getf q fields.rhoE ;;
  U <- getf q fields.U ;;
  V <- getf q fields.V ;;
  p <- getf q fields.p ;;
  let rhoUU := rhoU * U in
  let rhoUV := rhoU * V in
  let rhoVV := rhoV * V in
  let rhoVU := rhoV * U in
  Some [ [rhoU; rhoV];
         [rhoUU + p; rhoUV];
         [rhoVU; rhoVV + p];
         [(rhoE + p) * U; (rhoE + p) * V] ].

(** [flux(state_array)] on an [nx * ny] mesh. *)
Definition flux (state_array : list (list (list T)))
  : option (list (list (list (list T)))) :=
  mapM (mapM flux_cell) state_array.
End Euler.
End Euler.

(** ** josie/euler/schemes/rusanov.py *)

Module Rusanov.
Section Rusanov.
Context {T : Type} `{Scalar T}.
Local Open Scope num_scope.

(** [compute_sigma], at one cell: [U_L], [U_R] carry the last axis of size
    one, [c_L], [c_R] are the entries that [c_L[..., np.newaxis]] wraps. *)
Definition compute_sigma_cell (U_L U_R : list T) (c_L c_R : T)
  : option (list T) :=
  sigma_L <- broadcast add (np_abs U_L) [c_L] ;;
  sigma_R <- broadcast add (np_abs U_R) [c_R] ;;
  let sigma_array := sigma_L ++ sigma_R in
  sigma <- np_max sigma_array ;;
  Some [sigma].

(** [compute_sigma(U_L, U_R, c_L, c_R)] over the cells of the mesh. *)
Definition compute_sigma (U_L U_R : list (list T)) (c_L c_R : list T)
  : option (list (list T)) :=
  mapM4 (fun u_L u_R c_L c_R => compute_sigma_cell u_L u_R c_L c_R)
    U_L U_R c_L c_R.

(** [self.problem.F], the flux law of the Euler problem: [flux] of
    problem.py, at one cell. *)
Definition problem_F (q : list T) : option (list (list T)) :=
  Euler.flux_cell q.

(** [F], at one face: the cell state, the neighbour state, the normal and
    the surface of the face. *)
Definition F_cell (Q_L Q_R normal : list T) (surface : T)
  : option (list T) :=
  let FS := zeros_like Q_L in
  U_L <- compute_U_norm Q_L normal ;;
  U_R <- compute_U_norm Q_R normal ;;
  c_L <- getf Q_L fields.c ;;
  c_R <- getf Q_R fields.c ;;
  sigma <- compute_sigma_cell U_L U_R c_L c_R ;;
  F_L <- problem_F Q_L ;;
  F_R <- problem_F Q_R ;;
  F_sum <- mapM2 (broadcast add) F_L F_R ;;
  let DeltaF := map (scale half) F_sum in
  DeltaF <- einsum_kl_l DeltaF normal ;;
  Q_L_cons <- get_conservative Q_L ;;
  Q_R_cons <- get_conservative Q_R ;;
  Q_diff <- broadcast sub Q_R_cons Q_L_cons ;;
  DeltaQ <- broadcast mul (scale half sigma) Q_diff ;;
  D <- broadcast sub DeltaF DeltaQ ;;
  FS_cons <- broadcast mul [surface] D ;;
  set_conservative FS FS_cons.

(** The mesh cell set and its neighbours in one direction; the leading
    axes of the arrays are one list of cells.  [n_values] is the attribute
    [values] of the neighbours. *)
Record MeshCellSet : Type := { values : list (list T) }.

Record NeighboursCellSet : Type := {
  n_values : list (list T);
  normals : list (list T);
  surfaces : list T
}.

(** [F(cells, neighs)] *)
Definition F (cells : MeshCellSet) (neighs : NeighboursCellSet)
  : option (list (list T)) :=
  mapM4 F_cell (values cells) (n_values neighs) (normals neighs)
    (surfaces neighs).

(** The flux rule in the words of the specification, on the conservative
    sub-range of one face: the central average of the flux tensors
    contracted with the normal, minus half of sigma times the jump of the
    conservative variables, times the surface. *)
Definition central_flux (F_L F_R : list (list T)) (n : list T) : list T :=
  map (fun rows =>
         np_sum (zip_with mul (map (mul half) (zip_with add (fst rows) (snd rows))) n))
      (combine F_L F_R).

Definition rusanov_flux_spec (F_L F_R : list (list T)) (sigma : T)
    (cons_L cons_R n : list T) (s : T) : list T :=
  zip_with (fun dF dQ => (dF - dQ) * s)
    (central_flux F_L F_R n)
    (map (fun d => half * sigma * d) (zip_with sub cons_R cons_L)).
End Rusanov.
End Rusanov.

(** ** tests/advection/one/test_advectionDG.py *)

Module Upwind.
Section Upwind.
Context {T : Type} `{Scalar T}.
Local Open Scope num_scope.

(** The advection velocity, a global of the module: [V = [1.0, 0.0]]. *)
Definition V : list T := [one; zero].

(** [Upwind.CFL(cells, CFL_value)].  [V] is the global the method reads,
    [surfaces] is [cells.surfaces], one row of face lengths per cell. *)
Definition CFL (V : list T) (surfaces : list (list T)) (CFL_value : T)
  : option T :=
  let U_abs := norm V in
  dx <- np_min (concat surfaces) ;;
  Some (CFL_value * dx / U_abs).
End Upwind.
End Upwind.

Module RKDG.
Section RKDG.
Context {T : Type} `{Scalar T}.
Local Open Scope num_scope.

(** The Butcher tableau as the scheme object holds it: [butcher.a_s] and
    [butcher.c_s] (the class is not among the sources). *)
Variable a_s : list T.
Variable c_s : list T.

(** What [k] does after it has built the trial state: the limiter, the
    refresh of the ghost cells at the trial time, [pre_accumulate], the
    loop of [accumulate] over the neighbours, the stiffness term and the
    solve with the mass matrix.  It reads the trial values, the trial time
    and [self._fluxes], and leaves the new [self._fluxes]. *)
Variable residual : list T -> T -> list T -> list T.

(** The scratch arrays of the scheme object.  [ks] is [self._ks], one row
    per mesh entry and one column per stored stage; [fluxes] is
    [self._fluxes].  [trials] is not in the source: it records, for every
    evaluation of the residual, the stage and the trial values it was
    evaluated at. *)
Record scratch : Type := Scratch {
  ks : list (list T);
  fluxes : list T;
  trials : list (nat * list T)
}.

(** [self._ks[..., j] = x] *)
Definition set_stage (ks : list (list T)) (j : nat) (x : list T)
  : option (list (list T)) :=
  mapM2 (fun row v => set_at row j v) ks x.

(** [np.einsum("...i,...j->...", a, ks)]: both [i] and [j] are summed. *)
Definition einsum_i_j (a : list T) (ks : list (list T)) : list T :=
  map (fun row => np_sum (flat_map (fun ai => map (mul ai) row) a)) ks.

(** The values of [step_cells] after
    [step_cells.values -= dt * np.einsum(..., a_s, self._ks[..., :step])]. *)
Definition trial_values (values : list T) (dt : T) (step : nat)
    (ks : list (list T)) : option (list T) :=
  let a_s := slice a_s step (2 * step + 1) in
  let ks_step := map (fun row => slice row 0 step) ks in
  isub values (scale dt (einsum_i_j a_s ks_step)).

(** [RKDG.k(mesh, dt, t, step)]; [values] is [mesh.cells.values]. *)
Fixpoint k (values : list T) (dt t : T) (step : nat) (s : scratch)
  : option scratch :=
  s <- match step with
       | O => Some s
       | S step' =>
           s' <- k values dt t step' s ;;
           ks' <- set_stage (ks s') step' (fluxes s') ;;
           Some (Scratch ks' (zeros_like (fluxes s')) (trials s'))
       end ;;
  c <- nth_error c_s step ;;
  let t := t + c * dt in
  step_values <- trial_values values dt step (ks s) ;;
  Some (Scratch (ks s) (residual step_values t (fluxes s))
          (trials s ++ [(step, step_values)])).
End RKDG.
End RKDG.

(** ** Shapes *)

(** A 1-d array of [w] entries per cell, on the cells of one list. *)
Definition shape2 {A : Type} (n w : nat) (a : list (list A)) : Prop :=
  length a = n /\ Forall (fun row => length row = w) a.

(** An array of shape [nx, ny, w]. *)
Definition shape3 {A : Type} (nx ny w : nat) (a : list (list (list A))) : Prop :=
  length a = nx /\ Forall (shape2 ny w) a.

(** [a[i, j]] *)
Definition at2 {A : Type} (a : list (list A)) (i j : nat) : option A :=
  row <- nth_error a i ;; nth_error row j.

(** ** Python comparisons *)

(** [<], [<=] and [==] on Python and numpy floats. *)
Class Compare (T : Type) : Type := {
  ltv : T -> T -> bool;
  lev : T -> T -> bool;
  eqv : T -> T -> bool
}.

#[export] Instance R_compare : Compare R := {
  ltv x y := if Rlt_dec x y then true else false;
  lev x y := if Rle_dec x y then true else false;
  eqv x y := if Req_dec_T x y then true else false
}.

#[export] Instance float_compare : Compare float := {
  ltv := PrimFloat.ltb; lev := PrimFloat.leb; eqv := PrimFloat.eqb
}.

(** [np.isnan(x)]: NaN is the one value that differs from itself. *)
Definition isnan {T : Type} `{Compare T} (x : T) : bool := negb (eqv x x).

(** Python's [min(a, b, c)]: the arguments are walked in order and a later
    one replaces the current least when it is [<] than it. *)
Definition py_min3 {T : Type} `{Compare T} (a b c : T) : T :=
  let m := a in
  let m := if ltv b m then b else m in
  if ltv c m then c else m.

(** Three arrays walked together along their first axis. *)
Fixpoint mapM3 {A B C D : Type} (f : A -> B -> C -> option D)
    (xs : list A) (ys : list B) (zs : list C) : option (list D) :=
  match xs, ys, zs with
  | [], [], [] => Some []
  | x :: xs', y :: ys', z :: zs' =>
      d <- f x y z ;; ds <- mapM3 f xs' ys' zs' ;; Some (d :: ds)
  | _, _, _ => None
  end.

(** ** tests/advection/one/test_advectionDG.py: the advection problem *)

Module Advection.
Section Advection.
Context {T : Type} `{Scalar T} `{Compare T}.
Local Open Scope num_scope.

(** The advection velocity [V], a global of the module. *)
Variable V : list T.

(** [flux(state_array)], at one cell, an array [num_dofs, num_fields]:
    [np.einsum("j,...i->...j", V, state_array)] sums over the fields [i] of
    every degree of freedom and keeps the axis [j] of [V]. *)
Definition flux (state_array : list (list T)) : list (list T) :=
  map (fun dof => map (fun v => np_sum (map (mul v) dof)) V) state_array.

(** [a[..., lo:hi, j]], at one cell; IndexError when a row has no entry
    [j]. *)
Definition rows_col (a : list (list T)) (lo hi j : nat) : option (list T) :=
  mapM (fun row => nth_error row j) (slice a lo hi).

(** [F[..., lo:hi, j] = rhs], at one cell: [rhs] has as many entries as the
    slice has rows, or one entry that is broadcast (ValueError otherwise). *)
Definition set_rows_col (F : list (list T)) (lo hi j : nat) (rhs : list T)
  : option (list (list T)) :=
  let target := slice F lo hi in
  rhs <- match rhs with
         | [x] => Some (map (fun _ => x) target)
         | _ => if Nat.eqb (length rhs) (length target) then Some rhs
                else None
         end ;;
  rows <- mapM2 (fun row x => set_at row j x) target rhs ;;
  Some (firstn lo F ++ rows ++ skipn (lo + length target) F).

(** [upwind(cells, neighs)], at one cell: [values] is [cells.values] and
    [n_values] is [neighs.values], both [num_dofs, num_fields]; [normal] is
    the row of [neighs.normals].  The first [FS = np.zeros_like(values)] is
    overwritten before it is read.  [flux(...)[..., 0]] raises when [V] is
    empty. *)
Definition upwind_cell (direction : nat) (values n_values : list (list T))
    (normal : list T) : option (list (list T)) :=
  let num_dofs := length values in
  let F := repeat [zero; zero] num_dofs in
  _ <- nth_error V 0 ;;
  F <- (if Nat.eqb direction 0 then
          a <- rows_col (flux values) 0 2 0 ;;
          b <- rows_col (flux n_values) 2 4 0 ;;
          s <- broadcast add a b ;;
          d <- broadcast sub a b ;;
          rhs <- broadcast sub (map (fun x => x * half) s) (scale half d) ;;
          set_rows_col F 0 2 0 rhs
        else Some F) ;;
  F <- (if Nat.eqb direction 2 then
          a <- rows_col (flux values) 2 4 0 ;;
          b <- rows_col (flux n_values) 0 2 0 ;;
          s <- broadcast add a b ;;
          d <- broadcast sub b a ;;
          rhs <- broadcast sub (map (fun x => x * half) s) (scale half d) ;;
          set_rows_col F 2 4 0 rhs
        else Some F) ;;
  FS <- einsum_kl_l F normal ;;
  Some (map (fun x => [x]) FS).

(** [upwind(cells, neighs)] and [Upwind.F(cells, neighs)], which returns
    it, over the cells of the mesh; [direction] is [neighs.direction]. *)
Definition upwind (values n_values : list (list (list T)))
    (normals : list (list T)) (direction : nat)
  : option (list (list (list T))) :=
  mapM3 (upwind_cell direction) values n_values normals.

(** [0.25]: the product of 0.5 by 0.5, which float64 computes exactly. *)
Definition quarter : T := half * half.

(** [uavg], at one cell: the rows 0 to 3 hold a quarter of the sum of the
    rows 0 to 3 of the cell, the further rows of [np.zeros_like] stay
    zero.  IndexError when the cell has fewer than four rows. *)
Definition uavg_cell (cell : list (list T)) : option (list (list T)) :=
  v0 <- nth_error cell 0 ;;
  v1 <- nth_error cell 1 ;;
  v2 <- nth_error cell 2 ;;
  v3 <- nth_error cell 3 ;;
  let avg :=
    scale quarter (zip_with add (zip_with add (zip_with add v0 v1) v2) v3) in
  Some ([avg; avg; avg; avg] ++ map zeros_like (skipn 4 cell)).

(** [theta] in the loop of [limiter], from [minu], [maxu] and
    [ucell[j, 0]]. *)
Definition theta (minu maxu ucell : T) : T :=
  let umin := zero in
  let umax := one in
  py_min3 one
    (absv ((umax - ucell) / (maxu - ucell)))
    (absv ((umin - ucell) / (minu - ucell))).

(** The body of the loop of [limiter] on the column [u] of
    [cells.values[j, 0, :, 0]], with [ua] for [uavg[j, 0, :, 0]] and
    [ucell] for [ucell[j, 0]]. *)
Definition limit_column (u ua : list T) (ucell : T) : option (list T) :=
  minu <- np_min u ;;
  maxu <- np_max u ;;
  let theta := theta minu maxu ucell in
  d <- broadcast sub u ua ;;
  broadcast add (scale theta d) ua.

(** One turn of the loop of [limiter]: [row] is [cells.values[j]] and
    [uavg_row] is [uavg[j]]. *)
Definition limiter_row (row uavg_row : list (list (list T)))
  : option (list (list (list T))) :=
  cell <- nth_error row 0 ;;
  uavg <- nth_error uavg_row 0 ;;
  u <- mapM (fun dof => nth_error dof 0) cell ;;
  ua <- mapM (fun dof => nth_error dof 0) uavg ;;
  ucell <- nth_error ua 0 ;;
  new <- limit_column u ua ucell ;;
  cell' <- mapM2 (fun dof x => set_at dof 0 x) cell new ;;
  set_at row 0 cell'.

(** [SchemeAdvDG.limiter(cells)]; the argument is [cells.values], of shape
    [nx, ny, num_dofs, num_fields], and the result is the array the call
    leaves in it. *)
Definition limiter (values : list (list (list (list T))))
  : option (list (list (list (list T)))) :=
  uavg <- mapM (mapM uavg_cell) values ;;
  mapM2 limiter_row values uavg.
End Advection.
End Advection.

(** [RKDG2Alpha.__init__] and [RKDG2.__init__]: the tableau of the
    two-stage schemes.  [ButcherTableau] is the three arrays it is built
    from. *)
Module Butcher.
Section Butcher.
Context {T : Type} `{Scalar T} `{Compare T}.
Local Open Scope num_scope.



End Butcher.
End Butcher.

(** ** tests/tsfoureq/two/test_twoscale.py *)

Module TwoScale.
Section TwoScale.
Context {T : Type} `{Scalar T} `{Compare T}.
Local Open Scope num_scope.

(** [relative_error(a, b)] on 1-d arrays. *)
Definition relative_error (a b : list T) : option (list T) :=
  d <- broadcast sub a b ;;
  Some (np_abs d).




(** How the time loop of [test_twoscale] ends: it leaves the loop at a time
    [t] and passes the last assertion, an assertion fails, or it is still
    running when the fuel is spent. *)
Inductive outcome (S : Type) : Type :=
| Finished (t : T) (s : S)
| AssertionError
| Running (t : T) (s : S).

(** The loop [while t <= final_time] of [test_twoscale].  [S] is the state
    of the solver, [CFL] is [scheme.CFL(cells, CFL)] and [step] is
    [solver.step(dt)]. *)
Fixpoint time_loop {S : Type} (CFL : S -> T) (step : S -> T -> S)
    (fuel : nat) (final_time t : T) (s : S) : outcome S :=
  match fuel with
  | O => Running S t s
  | Datatypes.S fuel' =>
      if lev t final_time then
        let dt := CFL s in
        if isnan dt then AssertionError S
        else
          let s := step s dt in
          time_loop CFL step fuel' final_time (t + dt) s
      else if lev final_time t then Finished S t s
      else AssertionError S
  end.
End TwoScale.
End TwoScale.

(** ** Readings of the specification *)

(** "Returns the eigenvalues (u +- c, v +- c)": every returned value is one
    of the four characteristic speeds along the axes. *)
Definition among_axis_eigenvalues (u v c : R) (e : list R) : Prop :=
  Forall (fun x => x = (u + c)%R \/ x = (u - c)%R \/
                   x = (v + c)%R \/ x = (v - c)%R) e.

(** Symbolic inputs: [w] distinct variables, numbered from [k]. *)
Definition symbols (k w : nat) : list expr := map EVar (seq k w).

(** No entry of the array was computed with a division. *)
Definition division_free (a : list expr) : Prop :=
  Forall (fun e => has_div e = false) a.

(** "CFL fails: it returns NaN or raises", at float64. *)
Definition CFL_fails (r : option float) : Prop :=
  r = None \/ exists x, r = Some x /\ PrimFloat.is_nan x = true.

(** The trial state of a Runge-Kutta stage in the words of the
    specification: the base state minus dt times the sum, over the lower
    stages j, of a[k, j] times residual[j].  [a_k] is the row a[k, .] of the
    tableau and [residuals] holds one array per lower stage. *)
Fixpoint weighted_sum {T : Type} `{Scalar T} (a_k : list T)
    (residuals : list (list T)) (acc : list T) : list T :=
  match a_k, residuals with
  | a :: a_k', r :: residuals' =>
      weighted_sum a_k' residuals' (zip_with add acc (scale a r))
  | _, _ => acc
  end.

Definition trial_state_spec {T : Type} `{Scalar T} (a_k : list T)
    (values : list T) (dt : T) (residuals : list (list T)) : list T :=
  zip_with sub values
    (scale dt (weighted_sum a_k residuals (zeros_like values))).

(** The residual of the test equation u' = -u: the trial values. *)
Definition decay {T : Type} (step_values : list T) (t : T)
    (fluxes : list T) : list T := step_values.

(** The scratch arrays fit a mesh of [n] entries and hold [w] stages. *)
Definition scratch_fits {T : Type} (n w : nat) (s : @RKDG.scratch T) : Prop :=
  shape2 n w (RKDG.ks s) /\ length (RKDG.fluxes s) = n.

(** Two float64 values that are the same up to the sign of a zero: the same
    value, NaN and the infinities included, or two zeros. *)
Definition zeq (a b : spec_float) : Prop :=
  match a, b with
  | S754_zero _, S754_zero _ => True
  | _, _ => a = b
  end.

Definition feq (x y : float) : Prop := zeq (Prim2SF x) (Prim2SF y).

(** * Properties *)

(** ** Traversals *)

Lemma mapM_rel {A B : Type} (f : A -> option B) (P : A -> Prop)
    (Post : B -> Prop) (l : list A) :
  Forall P l ->
  (forall a, P a -> exists b, f a = Some b /\ Post b) ->
  exists r, mapM f l = Some r /\ length r = length l /\ Forall Post r /\
    forall i a, nth_error l i = Some a ->
      exists b, nth_error r i = Some b /\ f a = Some b.
Proof.
  intros HP Hf. induction HP as [|a l Ha _ IH].
  - exists []. repeat split; [constructor|]. intros [|i] a; discriminate.
  - destruct (Hf a Ha) as (b & Hb & Hpost).
    destruct IH as (r & Hr & Hlen & Hall & Hnth).
    exists (b :: r). cbn. rewrite Hb, Hr. repeat split.
    + cbn. now rewrite Hlen.
    + now constructor.
    + intros [|i] a' Hi; cbn in *.
      * injection Hi as <-. now exists b.
      * now apply Hnth.
Qed.

Lemma mapM2_rel {A B C : Type} (f : A -> B -> option C)
    (P : A -> Prop) (Q : B -> Prop) (Post : C -> Prop)
    (xs : list A) (ys : list B) :
  length ys = length xs -> Forall P xs -> Forall Q ys ->
  (forall a b, P a -> Q b -> exists c, f a b = Some c /\ Post c) ->
  exists r, mapM2 f xs ys = Some r /\ length r = length xs /\ Forall Post r /\
    forall i a b, nth_error xs i = Some a -> nth_error ys i = Some b ->
      exists c, nth_error r i = Some c /\ f a b = Some c.
Proof.
  intros Hlen HP HQ Hf. revert ys Hlen HQ.
  induction HP as [|a xs Ha _ IH]; intros [|b ys] Hlen HQ; try discriminate.
  - exists []. repeat split; [constructor|]. intros [|i] a b; discriminate.
  - inversion HQ as [|? ? Hb HQ']; subst.
    destruct (Hf a b Ha Hb) as (c & Hc & Hpost).
    destruct (IH ys) as (r & Hr & Hl & Hall & Hnth);
      [now injection Hlen | assumption |].
    exists (c :: r). cbn. rewrite Hc, Hr. repeat split.
    + cbn. now rewrite Hl.
    + now constructor.
    + intros [|i] a' b' Hi Hj; cbn in *.
      * injection Hi as <-. injection Hj as <-. now exists c.
      * now apply Hnth.
Qed.

Lemma mapM4_rel {A B C D E : Type} (f : A -> B -> C -> D -> option E)
    (P : A -> Prop) (Q : B -> Prop) (R' : C -> Prop) (Post : E -> Prop)
    (ws : list A) (xs : list B) (ys : list C) (zs : list D) :
  length xs = length ws -> length ys = length ws -> length zs = length ws ->
  Forall P ws -> Forall Q xs -> Forall R' ys ->
  (forall a b c d, P a -> Q b -> R' c ->
     exists e, f a b c d = Some e /\ Post e) ->
  exists r, mapM4 f ws xs ys zs = Some r /\ length r = length ws /\
    Forall Post r /\
    forall i a b c d,
      nth_error ws i = Some a -> nth_error xs i = Some b ->
      nth_error ys i = Some c -> nth_error zs i = Some d ->
      exists e, nth_error r i = Some e /\ f a b c d = Some e.
Proof.
  intros Hx Hy Hz HP. revert xs ys zs Hx Hy Hz.
  induction HP as [|a ws Ha _ IH];
    intros [|b xs] [|c ys] [|d zs] Hx Hy Hz HQ HR Hf; try discriminate.
  - exists []. repeat split; [constructor|]. intros [|i] ? ? ? ?; discriminate.
  - inversion HQ as [|? ? Hb HQ']; subst.
    inversion HR as [|? ? Hc HR']; subst.
    destruct (Hf a b c d Ha Hb Hc) as (e & He & Hpost).
    destruct (IH xs ys zs) as (r & Hr & Hl & Hall & Hnth);
      [now injection Hx | now injection Hy | now injection Hz
      | assumption | assumption | assumption |].
    exists (e :: r). cbn. rewrite He, Hr. repeat split.
    + cbn. now rewrite Hl.
    + now constructor.
    + intros [|i] a' b' c' d' Hi Hj Hk Hl'; cbn in *.
      * injection Hi as <-. injection Hj as <-. injection Hk as <-.
        injection Hl' as <-. now exists e.
      * now apply Hnth.
Qed.

Lemma mapM_inv {A B : Type} (f : A -> option B) (l : list A) (r : list B) :
  mapM f l = Some r ->
  length r = length l /\
  forall i a, nth_error l i = Some a ->
    exists b, nth_error r i = Some b /\ f a = Some b.
Proof.
  revert r. induction l as [|a l IH]; cbn; intros r Hr.
  - injection Hr as <-. split; [reflexivity | intros [|i] a; discriminate].
  - destruct (f a) as [b|] eqn:Hb; [|discriminate].
    destruct (mapM f l) as [bs|]; [|discriminate].
    injection Hr as <-. destruct (IH bs eq_refl) as [Hl Hn].
    split; [cbn; now rewrite Hl|].
    intros [|i] a' Hi; cbn in *.
    + injection Hi as <-. now exists b.
    + now apply Hn.
Qed.

Lemma mapM2_inv {A B C : Type} (f : A -> B -> option C)
    (xs : list A) (ys : list B) (r : list C) :
  mapM2 f xs ys = Some r ->
  length r = length xs /\
  forall i a b, nth_error xs i = Some a -> nth_error ys i = Some b ->
    exists c, nth_error r i = Some c /\ f a b = Some c.
Proof.
  revert ys r. induction xs as [|a xs IH]; intros [|b ys] r; cbn; intros Hr;
    try discriminate.
  - injection Hr as <-. split; [reflexivity | intros [|i] a b; discriminate].
  - destruct (f a b) as [c|] eqn:Hc; [|discriminate].
    destruct (mapM2 f xs ys) as [cs|] eqn:Hcs; [|discriminate].
    injection Hr as <-. destruct (IH ys cs Hcs) as [Hl Hn].
    split; [cbn; now rewrite Hl|].
    intros [|i] a' b' Hi Hj; cbn in *.
    + injection Hi as <-. injection Hj as <-. now exists c.
    + now apply Hn.
Qed.

(** ** States and normals of the right width *)

Lemma length9 {A : Type} (q : list A) :
  length q = 9 ->
  exists a0 a1 a2 a3 a4 a5 a6 a7 a8, q = [a0; a1; a2; a3; a4; a5; a6; a7; a8].
Proof.
  intros Hq.
  do 9 (destruct q as [|? q]; [discriminate|]).
  destruct q; [|discriminate]. now repeat eexists.
Qed.

Lemma length2 {A : Type} (n : list A) :
  length n = 2 -> exists a0 a1, n = [a0; a1].
Proof.
  intros Hn.
  do 2 (destruct n as [|? n]; [discriminate|]).
  destruct n; [|discriminate]. now repeat eexists.
Qed.

Lemma length1 {A : Type} (u : list A) :
  length u = 1 -> exists a0, u = [a0].
Proof.
  intros Hu.
  destruct u as [|? u]; [discriminate|].
  destruct u; [|discriminate]. now eexists.
Qed.

Ltac state9 H :=
  let a0 := fresh "rho" in let a1 := fresh "rhoU" in
  let a2 := fresh "rhoV" in let a3 := fresh "rhoE" in
  let a4 := fresh "rhoe" in let a5 := fresh "U" in
  let a6 := fresh "V" in let a7 := fresh "p" in let a8 := fresh "c" in
  destruct (length9 _ H) as (a0 & a1 & a2 & a3 & a4 & a5 & a6 & a7 & a8 & ->).

Ltac normal2 H :=
  let nx := fresh "n_x" in let ny := fresh "n_y" in
  destruct (length2 _ H) as (nx & ny & ->).

(** ** The Euler flux law (problem.py) *)

Section FluxLaw.
Context {T : Type} `{Scalar T}.
Local Open Scope num_scope.

Lemma flux_cell_total (q : list T) :
  length q = 9 ->
  exists t, Euler.flux_cell q = Some t /\ shape2 4 2 t.
Proof.
  intros Hq. state9 Hq. eexists. split; [reflexivity|].
  split; [reflexivity | repeat constructor].
Qed.

Lemma flux_row (ny : nat) (row : list (list T)) :
  shape2 ny 9 row ->
  exists r, mapM Euler.flux_cell row = Some r /\
    shape2 ny 4 r /\ Forall (shape2 4 2) r.
Proof.
  intros [Hny Hrow].
  destruct (mapM_rel Euler.flux_cell (fun q => length q = 9) (shape2 4 2)
              row Hrow flux_cell_total) as (r & Hr & Hlen & Hall & _).
  exists r. repeat split; [assumption | congruence | | assumption].
  eapply Forall_impl; [|exact Hall]. now intros t [Ht _].
Qed.

(** C4. On a state array of shape [nx, ny, 9] the Euler flux function
    returns an array of shape [nx, ny, 4, 2]; at the cell that holds
    (rho, rhoU, rhoV, rhoE, rhoe, U, V, p, c) it is the tensor with rows
    (rhoU, rhoV), (rhoU U + p, rhoU V), (rhoV U, rhoV V + p),
    ((rhoE + p) U, (rhoE + p) V).  It holds for every scalar type, so for
    float64 entry by entry. *)
Theorem flux_is_euler_flux_tensor
    (state_array : list (list (list T))) (nx ny : nat) :
  shape3 nx ny 9 state_array ->
  exists Fl,
    Euler.flux state_array = Some Fl /\
    shape3 nx ny 4 Fl /\
    (forall i j t, at2 Fl i j = Some t -> shape2 4 2 t) /\
    (forall i j rho rhoU rhoV rhoE rhoe U V p c,
        at2 state_array i j = Some [rho; rhoU; rhoV; rhoE; rhoe; U; V; p; c] ->
        at2 Fl i j =
          Some [ [rhoU; rhoV];
                 [rhoU * U + p; rhoU * V];
                 [rhoV * U; rhoV * V + p];
                 [(rhoE + p) * U; (rhoE + p) * V] ]).
Proof.
  intros [Hnx Hrows].
  destruct (mapM_rel (mapM Euler.flux_cell) (shape2 ny 9)
              (fun r => shape2 ny 4 r /\ Forall (shape2 4 2) r)
              state_array Hrows (flux_row ny))
    as (Fl & HFl & Hlen & Hall & Hnth).
  exists Fl. split; [exact HFl|]. split; [|split].
  - split; [congruence|].
    eapply Forall_impl; [|exact Hall]. now intros r [Hr _].
  - intros i j t Ht. unfold at2 in Ht.
    destruct (nth_error Fl i) as [frow|] eqn:Hfrow; [|discriminate].
    pose proof (proj1 (Forall_forall _ _) Hall frow
                  (nth_error_In _ _ Hfrow)) as [_ Hts].
    exact (proj1 (Forall_forall _ _) Hts t (nth_error_In _ _ Ht)).
  - intros i j rho rhoU rhoV rhoE rhoe U V p c Hq. unfold at2 in *.
    destruct (nth_error state_array i) as [row|] eqn:Hrow; [|discriminate].
    destruct (Hnth i row Hrow) as (frow & -> & Hfrow).
    destruct (mapM_inv _ _ _ Hfrow) as [_ Hin].
    destruct (Hin j _ Hq) as (t & -> & Hfl).
    cbn in Hfl. now rewrite <- Hfl.
Qed.
End FluxLaw.

(** ** The eigenvalues (problem.py) *)

(** Lists of reals are compared entry by entry. *)
Ltac list_ring :=
  repeat (apply (f_equal2 (@cons R)); [try ring|]); try reflexivity.

Section Eigenvalues.
Local Open Scope R_scope.

Lemma eigs_cell_value (rho rhoU rhoV rhoE rhoe U V p c n_x n_y : R) :
  Euler.eigs_cell [rho; rhoU; rhoV; rhoE; rhoe; U; V; p; c] [n_x; n_y] =
    Some [U * n_x + V * n_y + c; U * n_x + V * n_y - c].
Proof. cbn. f_equal. list_ring. Qed.

Lemma eigs_cell_total (q n : list R) :
  length q = 9%nat -> length n = 2%nat ->
  exists e, Euler.eigs_cell q n = Some e /\ length e = 2%nat.
Proof.
  intros Hq Hn. state9 Hq. normal2 Hn.
  rewrite eigs_cell_value. now eexists.
Qed.

Lemma eigs_row (ny : nat) (row nrow : list (list R)) :
  shape2 ny 9 row -> shape2 ny 2 nrow ->
  exists r, mapM2 Euler.eigs_cell row nrow = Some r /\ shape2 ny 2 r.
Proof.
  intros [Hny Hrow] [Hny' Hnrow].
  destruct (mapM2_rel Euler.eigs_cell (fun q => length q = 9%nat)
              (fun n => length n = 2%nat) (fun e => length e = 2%nat) row nrow)
    as (r & Hr & Hlen & Hall & _);
    [congruence | assumption | assumption | exact eigs_cell_total |].
  exists r. repeat split; [assumption | congruence | assumption].
Qed.

(** C5, as the code has it.  On a state array of shape [nx, ny, 9] and
    normals of shape [nx, ny, 2] the eigenvalue function returns an array of
    shape [nx, ny, 2]: per cell the two values U_n + c and U_n - c, where
    U_n = U n_x + V n_y is the velocity projected on the face normal.  They
    are u +- c for a normal along x and v +- c for a normal along y; the
    eigenvalue U_n alone is not among the two. *)
Theorem eigs_projects_velocity_on_normal
    (state_array normals : list (list (list R))) (nx ny : nat) :
  shape3 nx ny 9 state_array ->
  shape3 nx ny 2 normals ->
  exists E,
    Euler.eigs state_array normals = Some E /\
    shape3 nx ny 2 E /\
    (forall i j rho rhoU rhoV rhoE rhoe U V p c n_x n_y,
        at2 state_array i j = Some [rho; rhoU; rhoV; rhoE; rhoe; U; V; p; c] ->
        at2 normals i j = Some [n_x; n_y] ->
        at2 E i j = Some [U * n_x + V * n_y + c; U * n_x + V * n_y - c]) /\
    (forall i j rho rhoU rhoV rhoE rhoe U V p c,
        at2 state_array i j = Some [rho; rhoU; rhoV; rhoE; rhoe; U; V; p; c] ->
        (at2 normals i j = Some [1; 0] -> at2 E i j = Some [U + c; U - c]) /\
        (at2 normals i j = Some [0; 1] -> at2 E i j = Some [V + c; V - c])).
Proof.
  intros [Hnx Hrows] [Hnx' Hnrows].
  destruct (mapM2_rel (mapM2 Euler.eigs_cell) (shape2 ny 9) (shape2 ny 2)
              (shape2 ny 2) state_array normals)
    as (E & HE & Hlen & Hall & Hnth);
    [congruence | assumption | assumption | exact (eigs_row ny) |].
  assert (Hval : forall i j rho rhoU rhoV rhoE rhoe U V p c n_x n_y,
      at2 state_array i j = Some [rho; rhoU; rhoV; rhoE; rhoe; U; V; p; c] ->
      at2 normals i j = Some [n_x; n_y] ->
      at2 E i j = Some [U * n_x + V * n_y + c; U * n_x + V * n_y - c]).
  { intros i j rho rhoU rhoV rhoE rhoe U V p c n_x n_y Hq Hn. unfold at2 in *.
    destruct (nth_error state_array i) as [row|] eqn:Hrow; [|discriminate].
    destruct (nth_error normals i) as [nrow|] eqn:Hnrow; [|discriminate].
    destruct (Hnth i row nrow Hrow Hnrow) as (erow & -> & Herow).
    destruct (mapM2_inv _ _ _ _ Herow) as [_ Hin].
    destruct (Hin j _ _ Hq Hn) as (e & -> & He).
    now rewrite eigs_cell_value in He. }
  exists E. split; [exact HE|]. split; [|split].
  - split; [congruence | assumption].
  - exact Hval.
  - intros i j rho rhoU rhoV rhoE rhoe U V p c Hq. split; intros Hn.
    + rewrite (Hval i j _ _ _ _ _ _ _ _ _ _ _ Hq Hn). f_equal. list_ring.
    + rewrite (Hval i j _ _ _ _ _ _ _ _ _ _ _ Hq Hn). f_equal. list_ring.
Qed.

(** C5, as the specification states it, fails.  For the state with u = 1,
    v = 0, c = 1 and the unit normal (3/5, 4/5) the function returns
    (8/5, -2/5): neither value is one of u + c = 2, u - c = 0, v + c = 1,
    v - c = -1. *)
Lemma eigs_oblique_normal_counterexample :
  Euler.eigs [[ [1; 1; 0; 3; 2; 1; 0; 1; 1] ]] [[ [3/5; 4/5] ]] =
    Some [[ [8/5; -2/5] ]] /\
  ~ among_axis_eigenvalues 1 0 1 [8/5; -2/5].
Proof.
  split.
  - unfold Euler.eigs. cbn [mapM2]. rewrite eigs_cell_value.
    do 3 f_equal. list_ring; lra.
  - intros Hall. inversion Hall as [|x l Hx _]; subst. lra.
Qed.
End Eigenvalues.

(** ** The wave speed bound (rusanov.py) *)

Lemma fmax64_idem (x : float) : fmax64 x x = x.
Proof.
  unfold fmax64. destruct (PrimFloat.is_nan x); [reflexivity|].
  now destruct (PrimFloat.ltb x x).
Qed.

Section Sigma.
Context {T : Type} `{Scalar T}.
Local Open Scope num_scope.

Lemma compute_sigma_cell_value (u_L u_R c_L c_R : T) :
  Rusanov.compute_sigma_cell [u_L] [u_R] c_L c_R =
    Some [maxv (absv u_L + c_L) (absv u_R + c_R)].
Proof. reflexivity. Qed.

Lemma compute_sigma_cell_total (U_L U_R : list T) (c_L c_R : T) :
  length U_L = 1 -> length U_R = 1 ->
  exists s, Rusanov.compute_sigma_cell U_L U_R c_L c_R = Some s /\ length s = 1.
Proof.
  intros HL HR.
  destruct (length1 U_L HL) as [u_L ->]. destruct (length1 U_R HR) as [u_R ->].
  rewrite compute_sigma_cell_value. now eexists.
Qed.

(** C3. On normal velocities of shape [n, 1] and sound speeds of shape [n],
    [compute_sigma] returns an array of shape [n, 1] that holds, per cell,
    max(|U_L| + c_L, |U_R| + c_R); called with the same arrays on both
    sides it holds |U| + c.  The first part holds for every scalar type, the
    second for every one whose max returns x on (x, x), float64 included. *)
Theorem compute_sigma_is_max_of_sides
    (U_L U_R : list (list T)) (c_L c_R : list T) (n : nat) :
  shape2 n 1 U_L -> shape2 n 1 U_R -> length c_L = n -> length c_R = n ->
  exists sigma,
    Rusanov.compute_sigma U_L U_R c_L c_R = Some sigma /\
    shape2 n 1 sigma /\
    (forall i u_L u_R c_Li c_Ri,
        nth_error U_L i = Some [u_L] -> nth_error U_R i = Some [u_R] ->
        nth_error c_L i = Some c_Li -> nth_error c_R i = Some c_Ri ->
        nth_error sigma i =
          Some [maxv (absv u_L + c_Li) (absv u_R + c_Ri)]) /\
    ((forall x : T, maxv x x = x) -> U_R = U_L -> c_R = c_L ->
     forall i u c_i,
        nth_error U_L i = Some [u] -> nth_error c_L i = Some c_i ->
        nth_error sigma i = Some [absv u + c_i]).
Proof.
  intros [HnL HL] [HnR HR] HcL HcR.
  destruct (mapM4_rel
              (fun u_L u_R c_L c_R => Rusanov.compute_sigma_cell u_L u_R c_L c_R)
              (fun u => length u = 1) (fun u => length u = 1) (fun _ => True)
              (fun s => length s = 1) U_L U_R c_L c_R)
    as (sigma & Hs & Hlen & Hall & Hnth);
    [congruence | congruence | congruence | assumption | assumption
    | now apply Forall_forall
    | intros a b c d Ha Hb _; now apply compute_sigma_cell_total |].
  assert (Hval : forall i u_L u_R c_Li c_Ri,
      nth_error U_L i = Some [u_L] -> nth_error U_R i = Some [u_R] ->
      nth_error c_L i = Some c_Li -> nth_error c_R i = Some c_Ri ->
      nth_error sigma i = Some [maxv (absv u_L + c_Li) (absv u_R + c_Ri)]).
  { intros i u_L u_R c_Li c_Ri H1 H2 H3 H4.
    destruct (Hnth i _ _ _ _ H1 H2 H3 H4) as (s & -> & Hs').
    now rewrite compute_sigma_cell_value in Hs'. }
  exists sigma. split; [exact Hs|]. split; [|split].
  - split; [congruence | assumption].
  - exact Hval.
  - intros Hidem -> -> i u c_i Hu Hc.
    rewrite (Hval i u u c_i c_i Hu Hu Hc Hc). now rewrite Hidem.
Qed.
End Sigma.

(** C3 at float64, on two cells with the same arrays on both sides. *)
Lemma compute_sigma_is_max_of_sides_witness :
  exists sigma,
    Rusanov.compute_sigma [[1.5%float]; [(-2)%float]] [[1.5%float]; [(-2)%float]]
      [0.5%float; 0.25%float] [0.5%float; 0.25%float] = Some sigma /\
    nth_error sigma 0 = Some [2%float] /\
    nth_error sigma 1 = Some [2.25%float].
Proof.
  destruct (compute_sigma_is_max_of_sides
              [[1.5%float]; [(-2)%float]] [[1.5%float]; [(-2)%float]]
              [0.5%float; 0.25%float] [0.5%float; 0.25%float] 2)
    as (sigma & Hs & _ & _ & Hsame).
  - split; [reflexivity | repeat constructor].
  - split; [reflexivity | repeat constructor].
  - reflexivity.
  - reflexivity.
  - exists sigma. split; [exact Hs|]. split.
    + exact (Hsame fmax64_idem eq_refl eq_refl 0 _ _ eq_refl eq_refl).
    + exact (Hsame fmax64_idem eq_refl eq_refl 1 _ _ eq_refl eq_refl).
Defined.

(** ** The Rusanov flux rule (rusanov.py) *)

Section RusanovShape.
Context {T : Type} `{Scalar T}.
Local Open Scope num_scope.

(** On a face of the right shape [F] returns, and what it returns is four
    entries followed by the zeros of [np.zeros_like]. *)
Lemma F_cell_shape (Q_L Q_R normal : list T) (surface : T) :
  length Q_L = 9 -> length Q_R = 9 -> length normal = 2 ->
  exists f0 f1 f2 f3,
    Rusanov.F_cell Q_L Q_R normal surface =
      Some [f0; f1; f2; f3; zero; zero; zero; zero; zero].
Proof.
  intros HL HR Hn. state9 HL. state9 HR. normal2 Hn.
  cbn. now repeat eexists.
Qed.

Lemma non_conservative_zero (f0 f1 f2 f3 : T) (f : fields.t) :
  fields.is_cons f = false ->
  getf [f0; f1; f2; f3; zero; zero; zero; zero; zero] f = Some zero.
Proof. destruct f; cbn; intros Hf; (discriminate || reflexivity). Qed.

(** C10. On arrays of [n] faces of the right shapes [F] returns [n] states
    of nine entries, and in each of them every field outside the
    conservative sub-range (rhoe, U, V, p, c) is zero. *)
Theorem F_leaves_non_conservative_fields_zero
    (cells : Rusanov.MeshCellSet) (neighs : Rusanov.NeighboursCellSet)
    (n : nat) :
  shape2 n 9 (Rusanov.values cells) ->
  shape2 n 9 (Rusanov.n_values neighs) ->
  shape2 n 2 (Rusanov.normals neighs) ->
  length (Rusanov.surfaces neighs) = n ->
  exists FS,
    Rusanov.F cells neighs = Some FS /\
    shape2 n 9 FS /\
    forall i fs f,
      nth_error FS i = Some fs -> fields.is_cons f = false ->
      getf fs f = Some zero.
Proof.
  intros [HnL HL] [HnR HR] [Hnn Hn] Hs.
  destruct (mapM4_rel Rusanov.F_cell
              (fun q => length q = 9) (fun q => length q = 9)
              (fun v => length v = 2)
              (fun fs => length fs = 9 /\
                 forall f, fields.is_cons f = false -> getf fs f = Some zero)
              (Rusanov.values cells) (Rusanov.n_values neighs)
              (Rusanov.normals neighs) (Rusanov.surfaces neighs))
    as (FS & HFS & Hlen & Hall & _);
    [congruence | congruence | congruence | assumption | assumption
    | assumption | |].
  - intros Q_L Q_R nrm s H9L H9R H2.
    destruct (F_cell_shape Q_L Q_R nrm s H9L H9R H2)
      as (f0 & f1 & f2 & f3 & Hfs).
    eexists. split; [exact Hfs|]. split; [reflexivity|].
    intros f. apply non_conservative_zero.
  - exists FS. split; [exact HFS|]. split.
    + split; [congruence|].
      eapply Forall_impl; [|exact Hall]. now intros fs [Hfs _].
    + intros i fs f Hi.
      exact (proj2 (proj1 (Forall_forall _ _) Hall fs (nth_error_In _ _ Hi)) f).
Qed.
End RusanovShape.

Section RusanovFormula.
Context {T : Type} `{Scalar T}.
Local Open Scope num_scope.

(** One face: the conservative sub-range of what [F] returns, next to the
    formula of the specification.  The two differ in the side on which the
    surface multiplies. *)
Lemma F_cell_is_rusanov_flux (Q_L Q_R normal : list T) (surface : T) :
  (forall x y : T, x * y = y * x) ->
  length Q_L = 9 -> length Q_R = 9 -> length normal = 2 ->
  exists fs F_L F_R U_L U_R c_L c_R sigma cons_L cons_R,
    Rusanov.F_cell Q_L Q_R normal surface = Some fs /\
    Rusanov.problem_F Q_L = Some F_L /\
    Rusanov.problem_F Q_R = Some F_R /\
    compute_U_norm Q_L normal = Some U_L /\
    compute_U_norm Q_R normal = Some U_R /\
    getf Q_L fields.c = Some c_L /\
    getf Q_R fields.c = Some c_R /\
    Rusanov.compute_sigma_cell U_L U_R c_L c_R = Some [sigma] /\
    get_conservative Q_L = Some cons_L /\
    get_conservative Q_R = Some cons_R /\
    get_conservative fs =
      Some (Rusanov.rusanov_flux_spec F_L F_R sigma cons_L cons_R
              normal surface).
Proof.
  intros Hcomm HL HR Hn. state9 HL. state9 HR. normal2 Hn.
  do 10 eexists.
  split; [reflexivity|].
  split; [reflexivity|]. split; [reflexivity|].
  split; [reflexivity|]. split; [reflexivity|].
  split; [reflexivity|]. split; [reflexivity|].
  split; [reflexivity|].
  split; [reflexivity|]. split; [reflexivity|].
  cbn. f_equal.
  repeat (apply (f_equal2 (@cons T)); [apply Hcomm|]). reflexivity.
Qed.

(** C1. On arrays of [n] faces of the right shapes [F] returns [n] states;
    the conservative sub-range of the state of a face is
    (0.5 (F(left) + F(right)) . normal
       - 0.5 sigma (Q_right,conservative - Q_left,conservative)) * surface,
    where F(left), F(right) are the flux tensors the problem returns for the
    two states and sigma is what [compute_sigma] returns for the two normal
    velocities and sound speeds.  It holds for every scalar type whose
    multiplication commutes: for the real numbers and for float64. *)
Theorem F_is_rusanov_flux
    (cells : Rusanov.MeshCellSet) (neighs : Rusanov.NeighboursCellSet)
    (n : nat) :
  (forall x y : T, x * y = y * x) ->
  shape2 n 9 (Rusanov.values cells) ->
  shape2 n 9 (Rusanov.n_values neighs) ->
  shape2 n 2 (Rusanov.normals neighs) ->
  length (Rusanov.surfaces neighs) = n ->
  exists FS,
    Rusanov.F cells neighs = Some FS /\
    shape2 n 9 FS /\
    forall i Q_L Q_R normal surface,
      nth_error (Rusanov.values cells) i = Some Q_L ->
      nth_error (Rusanov.n_values neighs) i = Some Q_R ->
      nth_error (Rusanov.normals neighs) i = Some normal ->
      nth_error (Rusanov.surfaces neighs) i = Some surface ->
      exists fs F_L F_R U_L U_R c_L c_R sigma cons_L cons_R,
        nth_error FS i = Some fs /\
        Rusanov.problem_F Q_L = Some F_L /\
        Rusanov.problem_F Q_R = Some F_R /\
        compute_U_norm Q_L normal = Some U_L /\
        compute_U_norm Q_R normal = Some U_R /\
        getf Q_L fields.c = Some c_L /\
        getf Q_R fields.c = Some c_R /\
        Rusanov.compute_sigma_cell U_L U_R c_L c_R = Some [sigma] /\
        get_conservative Q_L = Some cons_L /\
        get_conservative Q_R = Some cons_R /\
        get_conservative fs =
          Some (Rusanov.rusanov_flux_spec F_L F_R sigma cons_L cons_R
                  normal surface).
Proof.
  intros Hcomm [HnL HL] [HnR HR] [Hnn Hn] Hs.
  destruct (mapM4_rel Rusanov.F_cell
              (fun q => length q = 9) (fun q => length q = 9)
              (fun v => length v = 2) (fun fs => length fs = 9)
              (Rusanov.values cells) (Rusanov.n_values neighs)
              (Rusanov.normals neighs) (Rusanov.surfaces neighs))
    as (FS & HFS & Hlen & Hall & Hnth);
    [congruence | congruence | congruence | assumption | assumption
    | assumption | |].
  - intros Q_L Q_R nrm s H9L H9R H2.
    destruct (F_cell_shape Q_L Q_R nrm s H9L H9R H2)
      as (f0 & f1 & f2 & f3 & Hfs).
    eexists. split; [exact Hfs | reflexivity].
  - exists FS. split; [exact HFS|]. split; [split; [congruence | assumption]|].
    intros i Q_L Q_R nrm s HiL HiR Hin His.
    destruct (Hnth i Q_L Q_R nrm s HiL HiR Hin His) as (fs & Hfs & HF).
    pose proof (proj1 (Forall_forall _ _) HL Q_L (nth_error_In _ _ HiL)) as H9L.
    pose proof (proj1 (Forall_forall _ _) HR Q_R (nth_error_In _ _ HiR)) as H9R.
    pose proof (proj1 (Forall_forall _ _) Hn nrm (nth_error_In _ _ Hin)) as H2.
    destruct (F_cell_is_rusanov_flux Q_L Q_R nrm s Hcomm H9L H9R H2)
      as (fs' & F_L & F_R & U_L & U_R & c_L & c_R & sigma & cons_L & cons_R &
          HF' & Hrest).
    assert (fs' = fs) by congruence. subst fs'.
    exists fs, F_L, F_R, U_L, U_R, c_L, c_R, sigma, cons_L, cons_R.
    split; [exact Hfs | exact Hrest].
Qed.
End RusanovFormula.

(** Multiplication commutes in float64, NaN, zeros and infinities included. *)
Lemma SF64mul_comm (x y : spec_float) : SF64mul x y = SF64mul y x.
Proof.
  unfold SF64mul.
  destruct x as [sx|sx| |sx mx ex], y as [sy|sy| |sy my ey]; cbn;
    rewrite ?(xorb_comm sx sy); try reflexivity.
  now rewrite (Pos.mul_comm mx my), (Z.add_comm ex ey).
Qed.

Lemma float_mul_comm (x y : float) : PrimFloat.mul x y = PrimFloat.mul y x.
Proof. apply Prim2SF_inj. rewrite !mul_spec. apply SF64mul_comm. Qed.

(** ** float64 up to the sign of zero *)

Lemma zeq_refl a : zeq a a.
Proof. now destruct a. Qed.
Lemma zeq_sym a b : zeq a b -> zeq b a.
Proof. destruct a, b; cbn; congruence. Qed.
Lemma zeq_trans a b c : zeq a b -> zeq b c -> zeq a c.
Proof. destruct a, b, c; cbn; congruence. Qed.

Lemma round_aux_opp s m e l :
  SFopp (binary_round_aux prec emax s m e l) = binary_round_aux prec emax (negb s) m e l.
Proof.
  unfold binary_round_aux.
  destruct (shr_fexp prec emax m e l) as [mrs' e'].
  destruct (shr_fexp prec emax _ e' loc_Exact) as [mrs'' e''].
  destruct (shr_m mrs''); try reflexivity.
  now destruct (Z.leb e'' (emax - prec)).
Qed.

Lemma round_opp s m e :
  SFopp (binary_round prec emax s m e) = binary_round prec emax (negb s) m e.
Proof.
  unfold binary_round. destruct (shl_align m e _) as [mz ez]. apply round_aux_opp.
Qed.

Lemma normalize_opp m e :
  zeq (SFopp (binary_normalize prec emax m e false))
      (binary_normalize prec emax (- m) e false).
Proof.
  destruct m as [|p|p]; cbn [binary_normalize Z.opp].
  - exact I.
  - rewrite round_opp. apply zeq_refl.
  - rewrite round_opp. apply zeq_refl.
Qed.

Lemma SFopp_involutive a : SFopp (SFopp a) = a.
Proof. destruct a; cbn; now rewrite ?negb_involutive. Qed.

Lemma SFopp_zeq a b : zeq a b -> zeq (SFopp a) (SFopp b).
Proof. destruct a, b; cbn; congruence. Qed.

Lemma SFmul_opp_r a b : SF64mul a (SFopp b) = SFopp (SF64mul a b).
Proof.
  unfold SF64mul.
  destruct a as [sa|sa| |sa ma ea], b as [sb|sb| |sb mb eb]; cbn [SFmul SFopp];
    rewrite <- ?negb_xorb_r; try reflexivity.
  symmetry. apply round_aux_opp.
Qed.

Lemma cond_Zopp_negb s m : cond_Zopp (negb s) m = (- cond_Zopp s m)%Z.
Proof. destruct s; cbn; lia. Qed.

Lemma SFadd_opp a b :
  zeq (SF64add (SFopp a) (SFopp b)) (SFopp (SF64add a b)).
Proof.
  unfold SF64add.
  destruct a as [sa|sa| |sa ma ea], b as [sb|sb| |sb mb eb]; cbn [SFadd SFopp];
    try exact I; try reflexivity;
    try (destruct sa, sb; cbn; (exact I || reflexivity)).
  rewrite !cond_Zopp_negb, <- Z.opp_add_distr.
  apply zeq_sym, normalize_opp.
Qed.

Lemma SFadd_comm a b : SF64add a b = SF64add b a.
Proof.
  unfold SF64add.
  destruct a as [sa|sa| |sa ma ea], b as [sb|sb| |sb mb eb]; cbn [SFadd];
    try reflexivity; try (now destruct sa, sb).
  now rewrite (Z.min_comm eb ea), Z.add_comm.
Qed.

Lemma SFsub_as_add a b : SF64sub a b = SF64add a (SFopp b).
Proof.
  unfold SF64sub, SF64add.
  destruct a as [sa|sa| |sa ma ea], b as [sb|sb| |sb mb eb]; cbn [SFsub SFadd SFopp];
    try reflexivity; try (now destruct sa, sb).
Qed.

Ltac zeq_cases H :=
  match type of H with
  | zeq ?a ?b =>
      destruct a, b; cbn [zeq] in H; try discriminate H;
      try (inversion H; subst; clear H)
  end.

Lemma SFmul_zeq a a' b b' :
  zeq a a' -> zeq b b' -> zeq (SF64mul a b) (SF64mul a' b').
Proof.
  intros Ha Hb. zeq_cases Ha; zeq_cases Hb;
    try apply zeq_refl; cbn; try exact I; reflexivity.
Qed.

Lemma SFadd_zeq a a' b b' :
  zeq a a' -> zeq b b' -> zeq (SF64add a b) (SF64add a' b').
Proof.
  intros Ha Hb. zeq_cases Ha; zeq_cases Hb;
    try apply zeq_refl; cbn; try exact I; try reflexivity;
    repeat match goal with s : bool |- _ => destruct s end;
    cbn; (exact I || reflexivity).
Qed.

Lemma SFabs_opp a : SFabs (SFopp a) = SFabs a.
Proof. now destruct a. Qed.
Lemma SFabs_zeq a b : zeq a b -> SFabs a = SFabs b.
Proof. destruct a, b; cbn; congruence. Qed.

Lemma SFcompare_zeq a a' b b' :
  zeq a a' -> zeq b b' -> SFcompare a b = SFcompare a' b'.
Proof.
  intros Ha Hb. zeq_cases Ha; zeq_cases Hb; reflexivity.
Qed.

Lemma SFcompare_swap a b :
  SFcompare b a = option_map CompOpp (SFcompare a b).
Proof.
  destruct a as [sa|sa| |sa ma ea], b as [sb|sb| |sb mb eb]; cbn;
    try reflexivity; try (now destruct sa); try (now destruct sb);
    try (now destruct sa, sb).
  pose proof (Pos.compare_cont_antisym ma mb Eq) as Hm. cbn in Hm.
  destruct sa, sb; try reflexivity;
    rewrite (Z.compare_antisym ea eb); destruct (ea ?= eb)%Z; cbn;
    try reflexivity; now rewrite <- Hm.
Qed.

Lemma SFcompare_Eq a b : SFcompare a b = Some Eq -> zeq a b.
Proof.
  destruct a as [sa|sa| |sa ma ea], b as [sb|sb| |sb mb eb]; cbn;
    try discriminate; try exact (fun _ => I);
    try (destruct sa; discriminate); try (destruct sb; discriminate).
  - destruct sa, sb; (discriminate || reflexivity).
  - destruct sa, sb; try discriminate.
    + destruct (ea ?= eb)%Z eqn:He; try discriminate.
      intros Hm. apply Z.compare_eq in He. subst.
      destruct (Pos.compare_cont Eq ma mb) eqn:Hc; try discriminate.
      apply Pos.compare_eq in Hc. now subst.
    + destruct (ea ?= eb)%Z eqn:He; try discriminate.
      intros Hm. apply Z.compare_eq in He. subst.
      injection Hm as Hm. apply Pos.compare_eq in Hm. now subst.
Qed.

#[export] Instance feq_equiv : Equivalence feq.
Proof.
  split.
  - intros x. apply zeq_refl.
  - intros x y. apply zeq_sym.
  - intros x y z. apply zeq_trans.
Qed.

#[export] Instance add_feq : Proper (feq ==> feq ==> feq) PrimFloat.add.
Proof. intros x x' Hx y y' Hy. unfold feq. rewrite !add_spec. now apply SFadd_zeq. Qed.

#[export] Instance mul_feq : Proper (feq ==> feq ==> feq) PrimFloat.mul.
Proof. intros x x' Hx y y' Hy. unfold feq. rewrite !mul_spec. now apply SFmul_zeq. Qed.

#[export] Instance opp_feq : Proper (feq ==> feq) PrimFloat.opp.
Proof. intros x x' Hx. unfold feq. rewrite !opp_spec. now apply SFopp_zeq. Qed.

Section FloatLaws.
Local Open Scope float_scope.

Lemma f_sub_add x y : x - y = x + - y.
Proof. apply Prim2SF_inj. rewrite sub_spec, add_spec, opp_spec. apply SFsub_as_add. Qed.

#[export] Instance sub_feq : Proper (feq ==> feq ==> feq) PrimFloat.sub.
Proof. intros x x' Hx y y' Hy. rewrite !f_sub_add. now rewrite Hx, Hy. Qed.

Lemma f_add_comm x y : x + y = y + x.
Proof. apply Prim2SF_inj. rewrite !add_spec. apply SFadd_comm. Qed.

Lemma f_mul_opp_r x y : x * - y = - (x * y).
Proof. apply Prim2SF_inj. rewrite mul_spec, !opp_spec, mul_spec. apply SFmul_opp_r. Qed.

Lemma f_opp_involutive x : - - x = x.
Proof. apply Prim2SF_inj. rewrite !opp_spec. apply SFopp_involutive. Qed.

Lemma f_add_opp x y : feq (- x + - y) (- (x + y)).
Proof. unfold feq. rewrite add_spec, !opp_spec, add_spec. apply SFadd_opp. Qed.

Lemma f_zero_add x : feq (0 + x) x.
Proof.
  unfold feq. rewrite add_spec. change (Prim2SF 0) with (S754_zero false).
  destruct (Prim2SF x) as [s|s| |s m e]; cbn; try reflexivity.
  now destruct s.
Qed.

Lemma f_zero_opp : feq 0 (- 0).
Proof. exact I. Qed.

Lemma f_abs_opp x : abs (- x) = abs x.
Proof. apply Prim2SF_inj. rewrite !abs_spec, opp_spec. apply SFabs_opp. Qed.

Lemma f_abs_feq x y : feq x y -> abs x = abs y.
Proof. intros Hxy. apply Prim2SF_inj. rewrite !abs_spec. now apply SFabs_zeq. Qed.

Lemma f_sub_antisym x y : feq (x - y) (- (y - x)).
Proof.
  rewrite !f_sub_add. rewrite <- f_add_opp, f_opp_involutive.
  now rewrite f_add_comm.
Qed.

Lemma f_sub_opp x y : feq (- x - - y) (- (x - y)).
Proof. rewrite !f_sub_add. apply f_add_opp. Qed.

Lemma is_nan_feq x y : feq x y -> PrimFloat.is_nan x = PrimFloat.is_nan y.
Proof.
  intros Hxy. unfold feq in Hxy.
  unfold PrimFloat.is_nan. rewrite !FloatAxioms.eqb_spec. unfold SFeqb.
  now rewrite (SFcompare_zeq _ _ _ _ Hxy Hxy).
Qed.

Lemma ltb_feq x x' y y' : feq x x' -> feq y y' -> (x <? y) = (x' <? y').
Proof.
  intros Hx Hy. unfold feq in Hx, Hy. rewrite !FloatAxioms.ltb_spec. unfold SFltb.
  now rewrite (SFcompare_zeq _ _ _ _ Hx Hy).
Qed.

Lemma is_nan_eq x y :
  PrimFloat.is_nan x = true -> PrimFloat.is_nan y = true -> x = y.
Proof.
  unfold PrimFloat.is_nan. rewrite !FloatAxioms.eqb_spec. intros Hx Hy.
  apply Prim2SF_inj.
  destruct (Prim2SF x) as [s|s| |s m e] eqn:Ex; cbn in Hx.
  1,2,4: exfalso.
  - discriminate.
  - now destruct s.
  - unfold SFeqb in Hx. cbn in Hx. destruct s.
    + rewrite Z.compare_refl in Hx.
      pose proof (Pos.compare_cont_refl m Eq) as Hm. rewrite Hm in Hx. discriminate.
    + rewrite Z.compare_refl in Hx.
      pose proof (Pos.compare_cont_refl m Eq) as Hm. rewrite Hm in Hx. discriminate.
  - destruct (Prim2SF y) as [s|s| |s m e] eqn:Ey; cbn in Hy; try reflexivity; exfalso.
    + discriminate.
    + now destruct s.
    + unfold SFeqb in Hy. cbn in Hy. destruct s.
      * rewrite Z.compare_refl in Hy.
        pose proof (Pos.compare_cont_refl m Eq) as Hm. rewrite Hm in Hy. discriminate.
      * rewrite Z.compare_refl in Hy.
        pose proof (Pos.compare_cont_refl m Eq) as Hm. rewrite Hm in Hy. discriminate.
Qed.

#[export] Instance fmax64_feq : Proper (feq ==> feq ==> feq) fmax64.
Proof.
  intros x x' Hx y y' Hy. unfold fmax64.
  rewrite (is_nan_feq _ _ Hx), (is_nan_feq _ _ Hy), (ltb_feq _ _ _ _ Hx Hy).
  destruct (PrimFloat.is_nan x'); [exact Hx|].
  destruct (PrimFloat.is_nan y'); [exact Hy|].
  now destruct (x' <? y').
Qed.

Lemma fmax64_comm x y : feq (fmax64 x y) (fmax64 y x).
Proof.
  unfold fmax64.
  destruct (PrimFloat.is_nan x) eqn:Hx, (PrimFloat.is_nan y) eqn:Hy.
  - rewrite (is_nan_eq x y Hx Hy). reflexivity.
  - reflexivity.
  - reflexivity.
  - rewrite !FloatAxioms.ltb_spec. unfold SFltb. rewrite (SFcompare_swap (Prim2SF x) (Prim2SF y)).
    destruct (SFcompare (Prim2SF x) (Prim2SF y)) as [[| |]|] eqn:Hc; cbn;
      try reflexivity.
    + now apply SFcompare_Eq.
    + (* not comparable: one is NaN *)
      exfalso. unfold PrimFloat.is_nan in Hx, Hy. rewrite FloatAxioms.eqb_spec in Hx, Hy.
      destruct (Prim2SF x), (Prim2SF y); cbn in *; discriminate.
Qed.
End FloatLaws.

Section FloatAntisymmetry.
Local Open Scope float_scope.

Lemma f_normal_velocity_opp (u v n_x n_y : float) :
  abs (0 + u * - n_x + v * - n_y) = abs (0 + u * n_x + v * n_y).
Proof.
  rewrite <- (f_abs_opp (0 + u * n_x + v * n_y)). apply f_abs_feq.
  rewrite !f_mul_opp_r.
  rewrite (f_zero_add (- (u * n_x))), (f_zero_add (u * n_x)).
  apply f_add_opp.
Qed.

Lemma f_entry_antisymmetric (s n_x n_y a_L a_R b_L b_R sg sg' q_L q_R : float) :
  feq sg sg' ->
  feq (s * (0 + 0.5 * (a_L + a_R) * n_x + 0.5 * (b_L + b_R) * n_y
            - 0.5 * sg * (q_R - q_L)))
      (- (s * (0 + 0.5 * (a_R + a_L) * - n_x + 0.5 * (b_R + b_L) * - n_y
               - 0.5 * sg' * (q_L - q_R)))).
Proof.
  intros Hsg.
  rewrite (f_add_comm a_R a_L), (f_add_comm b_R b_L), !f_mul_opp_r.
  set (A := 0.5 * (a_L + a_R) * n_x). set (B := 0.5 * (b_L + b_R) * n_y).
  rewrite <- Hsg. rewrite (f_sub_antisym q_L q_R), f_mul_opp_r.
  set (Q := 0.5 * sg * (q_R - q_L)).
  assert (HAB : feq (0 + - A + - B) (- (0 + A + B))).
  { rewrite (f_zero_add (- A)), (f_zero_add A). apply f_add_opp. }
  rewrite HAB, f_sub_opp, f_mul_opp_r, f_opp_involutive. reflexivity.
Qed.

(** One face seen from its two sides, in float64. *)
Lemma F_cell_antisymmetric_float64 (Q_L Q_R normal : list float) (s : float) :
  length Q_L = 9%nat -> length Q_R = 9%nat -> length normal = 2%nat ->
  exists fs fs',
    Rusanov.F_cell Q_L Q_R normal s = Some fs /\
    Rusanov.F_cell Q_R Q_L (map PrimFloat.opp normal) s = Some fs' /\
    Forall2 (fun x y => feq x (- y)) fs fs'.
Proof.
  intros HL HR Hn. state9 HL. state9 HR. normal2 Hn.
  eexists. eexists. split; [reflexivity|]. split; [reflexivity|].
  cbn. rewrite !f_normal_velocity_opp.
  repeat constructor;
    try (apply f_entry_antisymmetric; apply fmax64_comm).
Qed.

Lemma F_faces_antisymmetric_float64 (Q_L Q_R normals : list (list float))
    (surfaces : list float) :
  Forall (fun q => length q = 9%nat) Q_L ->
  Forall (fun q => length q = 9%nat) Q_R ->
  Forall (fun v => length v = 2%nat) normals ->
  length Q_R = length Q_L -> length normals = length Q_L ->
  length surfaces = length Q_L ->
  exists FS FS',
    mapM4 Rusanov.F_cell Q_L Q_R normals surfaces = Some FS /\
    mapM4 Rusanov.F_cell Q_R Q_L (map (map PrimFloat.opp) normals) surfaces
      = Some FS' /\
    Forall2 (Forall2 (fun x y => feq x (- y))) FS FS'.
Proof.
  intros HL. revert Q_R normals surfaces.
  induction HL as [|q_L Q_L H9L _ IH];
    intros [|q_R Q_R] [|nrm normals] [|s surfaces] HR Hn HlR Hln Hls;
    try discriminate.
  - exists [], []. repeat split. constructor.
  - inversion HR as [|? ? H9R HR']; subst.
    inversion Hn as [|? ? H2 Hn']; subst.
    destruct (F_cell_antisymmetric_float64 q_L q_R nrm s H9L H9R H2)
      as (fs & fs' & Hfs & Hfs' & Hanti).
    destruct (IH Q_R normals surfaces HR' Hn') as (FS & FS' & HFS & HFS' & HA);
      [now injection HlR | now injection Hln | now injection Hls |].
    exists (fs :: FS), (fs' :: FS'). cbn [map mapM4].
    rewrite Hfs, Hfs', HFS, HFS'. repeat split. now constructor.
Qed.
End FloatAntisymmetry.

Section RusanovReal.
Local Open Scope R_scope.

(** The wave speed bound of a face, in closed form. *)
Lemma compute_sigma_cell_real (U_L V_L c_L U_R V_R c_R n_x n_y : R) :
  Rusanov.compute_sigma_cell [0 + U_L * n_x + V_L * n_y]
      [0 + U_R * n_x + V_R * n_y] c_L c_R =
    Some [Rmax (Rabs (U_L * n_x + V_L * n_y) + c_L)
               (Rabs (U_R * n_x + V_R * n_y) + c_R)].
Proof. cbn. now rewrite !Rplus_0_l. Qed.

(** The flux of a face, in closed form. *)
Lemma F_cell_real
    (rho_L rhoU_L rhoV_L rhoE_L rhoe_L U_L V_L p_L c_L : R)
    (rho_R rhoU_R rhoV_R rhoE_R rhoe_R U_R V_R p_R c_R : R)
    (n_x n_y s : R) :
  let sigma := Rmax (Rabs (U_L * n_x + V_L * n_y) + c_L)
                    (Rabs (U_R * n_x + V_R * n_y) + c_R) in
  Rusanov.F_cell
    [rho_L; rhoU_L; rhoV_L; rhoE_L; rhoe_L; U_L; V_L; p_L; c_L]
    [rho_R; rhoU_R; rhoV_R; rhoE_R; rhoe_R; U_R; V_R; p_R; c_R]
    [n_x; n_y] s =
  Some [ s * (1 / 2 * (rhoU_L + rhoU_R) * n_x + 1 / 2 * (rhoV_L + rhoV_R) * n_y
              - 1 / 2 * sigma * (rho_R - rho_L));
         s * (1 / 2 * (rhoU_L * U_L + p_L + (rhoU_R * U_R + p_R)) * n_x
              + 1 / 2 * (rhoU_L * V_L + rhoU_R * V_R) * n_y
              - 1 / 2 * sigma * (rhoU_R - rhoU_L));
         s * (1 / 2 * (rhoV_L * U_L + rhoV_R * U_R) * n_x
              + 1 / 2 * (rhoV_L * V_L + p_L + (rhoV_R * V_R + p_R)) * n_y
              - 1 / 2 * sigma * (rhoV_R - rhoV_L));
         s * (1 / 2 * ((rhoE_L + p_L) * U_L + (rhoE_R + p_R) * U_R) * n_x
              + 1 / 2 * ((rhoE_L + p_L) * V_L + (rhoE_R + p_R) * V_R) * n_y
              - 1 / 2 * sigma * (rhoE_R - rhoE_L));
         0; 0; 0; 0; 0 ].
Proof. cbn. now rewrite !Rplus_0_l. Qed.

Lemma sigma_swap (U_L V_L c_L U_R V_R c_R n_x n_y : R) :
  Rmax (Rabs (U_R * - n_x + V_R * - n_y) + c_R)
       (Rabs (U_L * - n_x + V_L * - n_y) + c_L) =
  Rmax (Rabs (U_L * n_x + V_L * n_y) + c_L)
       (Rabs (U_R * n_x + V_R * n_y) + c_R).
Proof.
  rewrite Rmax_comm.
  replace (U_L * - n_x + V_L * - n_y) with (- (U_L * n_x + V_L * n_y)) by ring.
  replace (U_R * - n_x + V_R * - n_y) with (- (U_R * n_x + V_R * n_y)) by ring.
  now rewrite !Rabs_Ropp.
Qed.

(** One face seen from its two sides. *)
Lemma F_cell_antisymmetric (Q_L Q_R normal : list R) (s : R) :
  length Q_L = 9%nat -> length Q_R = 9%nat -> length normal = 2%nat ->
  exists fs,
    Rusanov.F_cell Q_R Q_L (map Ropp normal) s = Some fs /\
    Rusanov.F_cell Q_L Q_R normal s = Some (map Ropp fs).
Proof.
  intros HL HR Hn. state9 HL. state9 HR. normal2 Hn.
  cbn [map]. rewrite !F_cell_real. cbv zeta. rewrite sigma_swap.
  eexists. split; [reflexivity|]. f_equal. cbn [map]. list_ring.
Qed.
End RusanovReal.

Section RusanovClaims.
Local Open Scope R_scope.

Lemma F_faces_antisymmetric (Q_L Q_R normals : list (list R))
    (surfaces : list R) :
  Forall (fun q => length q = 9%nat) Q_L ->
  Forall (fun q => length q = 9%nat) Q_R ->
  Forall (fun v => length v = 2%nat) normals ->
  length Q_R = length Q_L -> length normals = length Q_L ->
  length surfaces = length Q_L ->
  exists FS',
    mapM4 Rusanov.F_cell Q_R Q_L (map (map Ropp) normals) surfaces = Some FS' /\
    mapM4 Rusanov.F_cell Q_L Q_R normals surfaces = Some (map (map Ropp) FS').
Proof.
  intros HL. revert Q_R normals surfaces.
  induction HL as [|q_L Q_L H9L _ IH];
    intros [|q_R Q_R] [|nrm normals] [|s surfaces] HR Hn HlR Hln Hls;
    try discriminate.
  - now exists [].
  - inversion HR as [|? ? H9R HR']; subst.
    inversion Hn as [|? ? H2 Hn']; subst.
    destruct (F_cell_antisymmetric q_L q_R nrm s H9L H9R H2) as (fs & Hfs & Hfs').
    destruct (IH Q_R normals surfaces HR' Hn') as (FS' & HFS & HFS');
      [now injection HlR | now injection Hln | now injection Hls |].
    exists (fs :: FS'). cbn [map mapM4].
    now rewrite Hfs, Hfs', HFS, HFS'.
Qed.

(** C2. On arrays of [n] faces of the right shapes, the flux computed with
    (left, right, normal) is the negation of the flux computed with
    (right, left, -normal), entry by entry: exactly over the real numbers,
    and in float64 up to the sign of a zero (the two entries are the same
    float, or two zeros). *)
Theorem F_is_antisymmetric_across_a_face :
  (forall (Q_L Q_R normals : list (list R)) (surfaces : list R) (n : nat),
      shape2 n 9 Q_L -> shape2 n 9 Q_R -> shape2 n 2 normals ->
      length surfaces = n ->
      exists FS FS',
        Rusanov.F {| Rusanov.values := Q_L |}
          {| Rusanov.n_values := Q_R; Rusanov.normals := normals;
             Rusanov.surfaces := surfaces |} = Some FS /\
        Rusanov.F {| Rusanov.values := Q_R |}
          {| Rusanov.n_values := Q_L;
             Rusanov.normals := map (map Ropp) normals;
             Rusanov.surfaces := surfaces |} = Some FS' /\
        FS = map (map Ropp) FS') /\
  (forall (Q_L Q_R normals : list (list float)) (surfaces : list float)
      (n : nat),
      shape2 n 9 Q_L -> shape2 n 9 Q_R -> shape2 n 2 normals ->
      length surfaces = n ->
      exists FS FS',
        Rusanov.F {| Rusanov.values := Q_L |}
          {| Rusanov.n_values := Q_R; Rusanov.normals := normals;
             Rusanov.surfaces := surfaces |} = Some FS /\
        Rusanov.F {| Rusanov.values := Q_R |}
          {| Rusanov.n_values := Q_L;
             Rusanov.normals := map (map PrimFloat.opp) normals;
             Rusanov.surfaces := surfaces |} = Some FS' /\
        Forall2 (Forall2 (fun x y => feq x (PrimFloat.opp y))) FS FS').
Proof.
  split.
  - intros Q_L Q_R normals surfaces n [HnL HL] [HnR HR] [Hnn Hn] Hs.
    destruct (F_faces_antisymmetric Q_L Q_R normals surfaces HL HR Hn)
      as (FS' & HFS' & HFS); [congruence | congruence | congruence |].
    exists (map (map Ropp) FS'), FS'. unfold Rusanov.F. cbn.
    now rewrite HFS, HFS'.
  - intros Q_L Q_R normals surfaces n [HnL HL] [HnR HR] [Hnn Hn] Hs.
    destruct (F_faces_antisymmetric_float64 Q_L Q_R normals surfaces HL HR Hn)
      as (FS & FS' & HFS & HFS' & Hanti); [congruence | congruence | congruence |].
    exists FS, FS'. unfold Rusanov.F. cbn. now rewrite HFS, HFS'.
Qed.
End RusanovClaims.

Section RusanovDegenerate.
Local Open Scope R_scope.

Lemma has_div_symbols (k w : nat) : division_free (symbols k w).
Proof.
  unfold division_free, symbols. apply Forall_forall.
  intros e He. apply in_map_iff in He. now destruct He as (i & <- & _).
Qed.

(** C9. Neither [compute_sigma] nor [F] divides: run on symbolic inputs,
    the expressions they return contain no division.  [F] returns on every
    face of the right shape, and when sigma is zero (as it is when both
    normal velocities and both sound speeds are zero) the conservative
    sub-range is the central flux average times the surface. *)
Theorem rusanov_never_divides_and_is_central_at_zero_sigma :
  (exists e,
      Rusanov.compute_sigma_cell (symbols 0 1) (symbols 1 1) (EVar 2) (EVar 3)
        = Some [e] /\
      has_div e = false) /\
  (exists fs,
      Rusanov.F_cell (symbols 0 9) (symbols 9 9) (symbols 18 2) (EVar 20)
        = Some fs /\
      division_free fs) /\
  (forall (Q_L Q_R normal : list R) (surface : R),
      length Q_L = 9%nat -> length Q_R = 9%nat -> length normal = 2%nat ->
      exists fs F_L F_R U_L U_R c_L c_R sigma,
        Rusanov.F_cell Q_L Q_R normal surface = Some fs /\
        Rusanov.problem_F Q_L = Some F_L /\
        Rusanov.problem_F Q_R = Some F_R /\
        compute_U_norm Q_L normal = Some U_L /\
        compute_U_norm Q_R normal = Some U_R /\
        getf Q_L fields.c = Some c_L /\
        getf Q_R fields.c = Some c_R /\
        Rusanov.compute_sigma_cell U_L U_R c_L c_R = Some [sigma] /\
        (U_L = [0] -> U_R = [0] -> c_L = 0 -> c_R = 0 -> sigma = 0) /\
        (sigma = 0 ->
         get_conservative fs =
           Some (map (fun dF => dF * surface)
                   (Rusanov.central_flux F_L F_R normal)))).
Proof.
  split; [|split].
  - eexists. split; reflexivity.
  - eexists. split; [reflexivity|]. repeat constructor.
  - intros Q_L Q_R nrm s H9L H9R H2. state9 H9L. state9 H9R. normal2 H2.
    rewrite F_cell_real. cbv zeta.
    set (sigma := Rmax (Rabs (U * n_x + V * n_y) + c)
                       (Rabs (U0 * n_x + V0 * n_y) + c0)).
    do 7 eexists. exists sigma.
    split; [reflexivity|].
    split; [reflexivity|]. split; [reflexivity|].
    split; [reflexivity|]. split; [reflexivity|].
    split; [reflexivity|]. split; [reflexivity|].
    split; [apply compute_sigma_cell_real|]. split.
    + intros HUL HUR -> ->. injection HUL as HUL. injection HUR as HUR.
      cbn in HUL, HUR. subst sigma.
      replace (U * n_x + V * n_y) with 0 by lra.
      replace (U0 * n_x + V0 * n_y) with 0 by lra.
      rewrite Rabs_R0, Rplus_0_l. apply Rmax_left. lra.
    + intros Hsigma. rewrite Hsigma. cbn. f_equal. list_ring.
Qed.

(** C9 on a face between two states at rest with zero sound speed. *)
Lemma rusanov_never_divides_and_is_central_at_zero_sigma_witness :
  exists fs,
    Rusanov.F_cell [1; 0; 0; 5; 5; 0; 0; 2; 0] [3; 0; 0; 7; 7; 0; 0; 4; 0]
      [1; 0] 2 = Some fs /\
    get_conservative fs = Some [0; 6; 0; 0].
Proof.
  destruct (proj2 (proj2 rusanov_never_divides_and_is_central_at_zero_sigma)
              [1; 0; 0; 5; 5; 0; 0; 2; 0] [3; 0; 0; 7; 7; 0; 0; 4; 0]
              [1; 0] 2 eq_refl eq_refl eq_refl)
    as (fs & F_L & F_R & U_L & U_R & c_L & c_R & sigma &
        Hfs & HFL & HFR & HUL & HUR & HcL & HcR & _ & Hzero & Hcentral).
  exists fs. split; [exact Hfs|].
  cbn in HFL, HFR, HUL, HUR, HcL, HcR.
  injection HFL as <-. injection HFR as <-.
  injection HUL as <-. injection HUR as <-.
  injection HcL as <-. injection HcR as <-.
  rewrite Hcentral.
  - cbn. f_equal. list_ring; lra.
  - apply Hzero; try reflexivity; f_equal; lra.
Defined.
End RusanovDegenerate.

(** ** The CFL bound (test_advectionDG.py) *)

Section CFLReal.
Local Open Scope R_scope.

Lemma fold_left_Rmin_le (l : list R) (x : R) :
  fold_left Rmin l x <= x /\ forall y, In y l -> fold_left Rmin l x <= y.
Proof.
  revert x. induction l as [|a l IH]; intros x; cbn.
  - split; [lra | now intros y []].
  - destruct (IH (Rmin x a)) as [Hx Hl]. split.
    + pose proof (Rmin_l x a). lra.
    + intros y [<-|Hy]; [|now apply Hl].
      pose proof (Rmin_r x a). lra.
Qed.

Lemma fold_left_Rmin_In (l : list R) (x : R) :
  In (fold_left Rmin l x) (x :: l).
Proof.
  revert x. induction l as [|a l IH]; intros x; cbn.
  - now left.
  - destruct (IH (Rmin x a)) as [H|H].
    + unfold Rmin in H at 1. destruct (Rle_dec x a).
      * left. exact H.
      * right. left. exact H.
    + right. now right.
Qed.

(** [np.min] returns the least entry of a non-empty array. *)
Lemma np_min_is_least (a : list R) :
  a <> [] ->
  exists m, np_min a = Some m /\ In m a /\ forall y, In y a -> m <= y.
Proof.
  destruct a as [|x l]; [congruence|]. intros _.
  exists (fold_left Rmin l x). split; [reflexivity|].
  split; [apply fold_left_Rmin_In|].
  destruct (fold_left_Rmin_le l x) as [Hx Hl].
  intros y [<-|Hy]; [exact Hx | now apply Hl].
Qed.

Lemma sum_squares_scale (k : R) (v : list R) (a : R) :
  fold_left Rplus (zip_with Rmult (map (Rmult k) v) (map (Rmult k) v))
    (k * k * a) =
  k * k * fold_left Rplus (zip_with Rmult v v) a.
Proof.
  revert a. induction v as [|x v IH]; intros a; cbn; [reflexivity|].
  replace (k * k * a + k * x * (k * x)) with (k * k * (a + x * x)) by ring.
  apply IH.
Qed.

Lemma sum_squares_nonneg (v : list R) (a : R) :
  0 <= a -> 0 <= fold_left Rplus (zip_with Rmult v v) a.
Proof.
  revert a. induction v as [|x v IH]; intros a Ha; cbn; [exact Ha|].
  apply IH. pose proof (Rle_0_sqr x) as Hx. unfold Rsqr in Hx. lra.
Qed.

(** Doubling every component of the velocity doubles the wave speed. *)
Lemma norm_double (V : list R) : norm (map (Rmult 2) V) = 2 * norm V.
Proof.
  unfold norm, np_sum. cbn [add mul sqrtv zero R_scalar].
  replace 0 with (2 * 2 * 0) at 1 by ring.
  rewrite sum_squares_scale.
  rewrite sqrt_mult; [| lra | apply sum_squares_nonneg; lra].
  now rewrite sqrt_square by lra.
Qed.

(** C6. On a cell set with at least one face, [CFL] returns
    cfl_number * min_cell_size / wave_speed, where min_cell_size is the
    least of the face lengths and the wave speed is the norm of the advection
    velocity, the same in every cell.  When that speed is not zero, doubling
    the velocity halves the returned step (float64 idealised as the real
    numbers). *)
Theorem CFL_is_cfl_times_min_size_over_wave_speed
    (V : list R) (surfaces : list (list R)) (CFL_value : R) :
  concat surfaces <> [] ->
  exists dx,
    np_min (concat surfaces) = Some dx /\
    In dx (concat surfaces) /\
    (forall x, In x (concat surfaces) -> dx <= x) /\
    Upwind.CFL V surfaces CFL_value = Some (CFL_value * dx / norm V) /\
    (norm V <> 0 ->
     Upwind.CFL (map (Rmult 2) V) surfaces CFL_value =
       Some (CFL_value * dx / norm V / 2)).
Proof.
  intros Hne. destruct (np_min_is_least (concat surfaces) Hne)
    as (dx & Hdx & Hin & Hle).
  exists dx. split; [exact Hdx|]. split; [exact Hin|]. split; [exact Hle|].
  unfold Upwind.CFL. rewrite Hdx. split; [reflexivity|].
  intros HV. rewrite norm_double. f_equal.
  cbn [mul div R_scalar]. now field.
Qed.

(** C6 on a mesh of two cells with the velocity of the source. *)
Lemma CFL_is_cfl_times_min_size_over_wave_speed_witness :
  Upwind.CFL Upwind.V [[1 / 4; 1 / 2]; [1 / 8; 1]] (1 / 2) = Some (1 / 16) /\
  Upwind.CFL (map (Rmult 2) Upwind.V) [[1 / 4; 1 / 2]; [1 / 8; 1]] (1 / 2) =
    Some (1 / 32).
Proof.
  assert (Hnorm : norm (T:=R) Upwind.V = 1).
  { unfold norm, np_sum. cbn.
    replace (0 + 1 * 1 + 0 * 0) with 1 by ring. apply sqrt_1. }
  destruct (CFL_is_cfl_times_min_size_over_wave_speed
              Upwind.V [[1 / 4; 1 / 2]; [1 / 8; 1]] (1 / 2))
    as (dx & Hdx & Hin & Hle & HCFL & Hdouble).
  - discriminate.
  - assert (Hmin : dx = 1 / 8).
    { cbn in Hin. pose proof (Hle (1 / 8)) as H8. cbn in H8.
      assert (dx <= 1 / 8) by (apply H8; tauto).
      destruct Hin as [<-|[<-|[<-|[<-|[]]]]]; lra. }
    rewrite Hdouble by (rewrite Hnorm; lra).
    rewrite HCFL, Hnorm, Hmin. split; f_equal; lra.
Defined.
End CFLReal.

Section CFLFloat.
Local Open Scope float_scope.

(** A float that is neither NaN nor infinite is a zero or a finite number. *)
Lemma finite_float_cases (x : float) :
  PrimFloat.is_finite x = true ->
  (exists s, Prim2SF x = S754_zero s) \/
  (exists s m e, Prim2SF x = S754_finite s m e).
Proof.
  unfold PrimFloat.is_finite, PrimFloat.is_nan, PrimFloat.is_infinity.
  rewrite !FloatAxioms.eqb_spec, abs_spec.
  destruct (Prim2SF x) as [s| s | |s m e] eqn:Hx; cbn.
  - intros _. left. now exists s.
  - now destruct s.
  - discriminate.
  - intros _. right. now exists s, m, e.
Qed.

Lemma is_zero_spec (x : float) :
  PrimFloat.is_zero x = true <-> exists s, Prim2SF x = S754_zero s.
Proof.
  unfold PrimFloat.is_zero. rewrite FloatAxioms.eqb_spec.
  destruct (Prim2SF x) as [s| s | |s m e]; cbn; split.
  - intros _. now exists s.
  - reflexivity.
  - now destruct s.
  - now intros [s' Hs'].
  - discriminate.
  - now intros [s' Hs'].
  - now destruct s.
  - now intros [s' Hs'].
Qed.

Lemma zero_is_not_nan (x : float) :
  PrimFloat.is_zero x = true -> PrimFloat.is_nan x = false.
Proof.
  intros Hx. apply is_zero_spec in Hx as [s Hs].
  unfold PrimFloat.is_nan. now rewrite FloatAxioms.eqb_spec, Hs.
Qed.

(** finite * 0 = 0 *)
Lemma mul_finite_zero (x z : float) :
  PrimFloat.is_finite x = true -> PrimFloat.is_zero z = true ->
  PrimFloat.is_zero (x * z) = true.
Proof.
  intros Hx Hz. apply is_zero_spec in Hz as [sz Hz]. apply is_zero_spec.
  rewrite mul_spec, Hz.
  destruct (finite_float_cases x Hx) as [[s ->]|(s & m & e & ->)];
    now eexists.
Qed.

(** 0 / 1 = 0 *)
Lemma div_zero_one (z : float) :
  PrimFloat.is_zero z = true -> PrimFloat.is_zero (z / 1) = true.
Proof.
  intros Hz. apply is_zero_spec in Hz as [sz Hz]. apply is_zero_spec.
  rewrite div_spec, Hz. now eexists.
Qed.

(** finite / infinity = 0 *)
Lemma div_finite_infinity (x : float) :
  PrimFloat.is_finite x = true ->
  PrimFloat.is_zero (x / infinity) = true.
Proof.
  intros Hx. apply is_zero_spec. rewrite div_spec.
  destruct (finite_float_cases x Hx) as [[s ->]|(s & m & e & ->)];
    now eexists.
Qed.

(** C7, as the code has it.  [CFL] raises exactly when the cell set has no
    face to take the minimum of, and checks nothing else.  On a degenerate
    mesh (a zero minimum cell size), with the velocity [1, 0] of the source
    and a finite cfl_number, it returns a zero; with the infinite wave speed
    of the velocity [inf, 0] and a finite product of cfl_number and minimum
    cell size it returns a zero as well.  Neither is NaN. *)
Theorem CFL_returns_zero_on_degenerate_mesh :
  (forall (V : list float) (surfaces : list (list float)) (CFL_value : float),
      Upwind.CFL V surfaces CFL_value = None <-> concat surfaces = []) /\
  (forall (surfaces : list (list float)) (dx CFL_value : float),
      np_min (concat surfaces) = Some dx ->
      PrimFloat.is_zero dx = true ->
      PrimFloat.is_finite CFL_value = true ->
      exists dt,
        Upwind.CFL Upwind.V surfaces CFL_value = Some dt /\
        PrimFloat.is_zero dt = true /\ PrimFloat.is_nan dt = false) /\
  (forall (surfaces : list (list float)) (dx CFL_value : float),
      np_min (concat surfaces) = Some dx ->
      PrimFloat.is_finite (CFL_value * dx) = true ->
      exists dt,
        Upwind.CFL [infinity; 0] surfaces CFL_value = Some dt /\
        PrimFloat.is_zero dt = true /\ PrimFloat.is_nan dt = false).
Proof.
  split; [|split].
  - intros V surfaces CFL_value. unfold Upwind.CFL.
    destruct (concat surfaces) as [|x l]; cbn; split; congruence.
  - intros surfaces dx CFL_value Hdx Hzero Hfin.
    unfold Upwind.CFL. rewrite Hdx. eexists. split; [reflexivity|].
    assert (Hdt : PrimFloat.is_zero (CFL_value * dx / 1) = true)
      by now apply div_zero_one, mul_finite_zero.
    split; [exact Hdt | now apply zero_is_not_nan].
  - intros surfaces dx CFL_value Hdx Hfin.
    unfold Upwind.CFL. rewrite Hdx. eexists. split; [reflexivity|].
    assert (Hdt : PrimFloat.is_zero (CFL_value * dx / infinity) = true)
      by now apply div_finite_infinity.
    split; [exact Hdt | now apply zero_is_not_nan].
Qed.

(** C7 on a mesh with a face of length zero. *)
Lemma CFL_returns_zero_on_degenerate_mesh_witness :
  exists dt,
    Upwind.CFL Upwind.V [[0; 0.5]; [0.25; 1]] 0.5 = Some dt /\
    PrimFloat.is_zero dt = true /\ PrimFloat.is_nan dt = false.
Proof.
  apply (proj1 (proj2 CFL_returns_zero_on_degenerate_mesh)
           [[0; 0.5]; [0.25; 1]] 0 0.5); reflexivity.
Defined.

(** C7, as the specification states it, fails.  The mesh with the face
    lengths (0, 0.5) is degenerate, and [CFL] returns 0 for it, neither NaN
    nor an exception; the velocity [inf, 0] is not finite, and [CFL] returns
    0 for it as well. *)
Lemma CFL_degenerate_mesh_counterexample :
  np_min (concat [[0; 0.5]]) = Some 0 /\
  Upwind.CFL Upwind.V [[0; 0.5]] 0.5 = Some 0 /\
  ~ CFL_fails (Upwind.CFL Upwind.V [[0; 0.5]] 0.5) /\
  PrimFloat.is_finite infinity = false /\
  Upwind.CFL [infinity; 0] [[0.5; 0.25]] 0.5 = Some 0 /\
  ~ CFL_fails (Upwind.CFL [infinity; 0] [[0.5; 0.25]] 0.5).
Proof.
  assert (H1 : Upwind.CFL Upwind.V [[0; 0.5]] 0.5 = Some 0) by reflexivity.
  assert (H2 : Upwind.CFL [infinity; 0] [[0.5; 0.25]] 0.5 = Some 0)
    by reflexivity.
  repeat split; try reflexivity.
  - rewrite H1. intros [H|(x & Hx & Hnan)]; [discriminate|].
    injection Hx as <-. discriminate.
  - rewrite H2. intros [H|(x & Hx & Hnan)]; [discriminate|].
    injection Hx as <-. discriminate.
Qed.
End CFLFloat.

(** ** The Runge-Kutta stage recursion (test_advectionDG.py) *)

Section Stages.
Context {T : Type} `{Scalar T}.
Variables a_s c_s : list T.
Variable residual : list T -> T -> list T -> list T.

(** X9. A call of [k] for stage [step] evaluates the residual of the stages
    0, ..., step, each of them once and in this order: a lower stage is
    stored in [self._ks] and not computed again. *)
Lemma k_evaluates_each_stage_once
    (values : list T) (dt t : T) (step : nat) (s s' : RKDG.scratch) :
  RKDG.k a_s c_s residual values dt t step s = Some s' ->
  map fst (RKDG.trials s') = map fst (RKDG.trials s) ++ seq 0 (S step).
Proof.
  revert s'. induction step as [|step IH]; intros s' Hk.
  - cbn [RKDG.k] in Hk. destruct (nth_error c_s 0); [|discriminate].
    destruct (RKDG.trial_values a_s values dt 0 (RKDG.ks s)); [|discriminate].
    injection Hk as <-. cbn. now rewrite map_app.
  - cbn [RKDG.k] in Hk.
    destruct (RKDG.k a_s c_s residual values dt t step s) as [s1|];
      [|discriminate].
    specialize (IH s1 eq_refl).
    destruct (RKDG.set_stage (RKDG.ks s1) step (RKDG.fluxes s1)) as [ks'|];
      [|discriminate].
    destruct (nth_error c_s (S step)); [|discriminate].
    cbn [RKDG.ks RKDG.fluxes RKDG.trials] in Hk.
    destruct (RKDG.trial_values a_s values dt (S step) ks'); [|discriminate].
    injection Hk as <-. cbn [RKDG.trials]. rewrite map_app, IH.
    cbn [map fst]. rewrite <- app_assoc. f_equal.
    change (seq 0 (S step) ++ [S step]) with (seq 0 (S step) ++ [0 + S step]).
    rewrite (seq_S (S step) 0). reflexivity.
Qed.

Lemma zip_with_length (f : T -> T -> T) (xs ys : list T) :
  length ys = length xs -> length (zip_with f xs ys) = length xs.
Proof.
  revert ys. induction xs as [|x xs IH]; intros [|y ys] Hlen;
    try discriminate; cbn; [reflexivity|].
  f_equal. apply IH. now injection Hlen.
Qed.

Lemma isub_total (a b : list T) :
  length b = length a ->
  exists r, isub a b = Some r /\ length r = length a.
Proof.
  intros Hlen. unfold isub. destruct b as [|y [|y' b]].
  - rewrite Hlen, Nat.eqb_refl. eexists. split; [reflexivity|].
    now destruct a.
  - eexists. split; [reflexivity|]. apply length_map.
  - rewrite Hlen, Nat.eqb_refl. eexists. split; [reflexivity|].
    now apply zip_with_length.
Qed.

Lemma set_at_total (a : list T) (i : nat) (x : T) :
  i < length a ->
  exists a', set_at a i x = Some a' /\ length a' = length a.
Proof.
  revert i. induction a as [|y a IH]; intros [|i] Hi; cbn in *; try lia.
  - now eexists.
  - destruct (IH i) as (a' & -> & Hlen); [lia|].
    eexists. split; [reflexivity|]. cbn. now rewrite Hlen.
Qed.

Lemma set_stage_total (n w j : nat) (ks : list (list T)) (x : list T) :
  shape2 n w ks -> length x = n -> j < w ->
  exists ks', RKDG.set_stage ks j x = Some ks' /\ shape2 n w ks'.
Proof.
  intros [Hn Hw] Hx Hj.
  destruct (mapM2_rel (fun row v => set_at row j v)
              (fun row => length row = w) (fun _ => True)
              (fun row => length row = w) ks x)
    as (ks' & Hks' & Hlen & Hall & _);
    [congruence | assumption | now apply Forall_forall | |].
  - intros row v Hrow _.
    destruct (set_at_total row j v) as (row' & Hrow' & Hl); [lia|].
    exists row'. split; [exact Hrow' | congruence].
  - exists ks'. split; [exact Hks'|]. split; [congruence | assumption].
Qed.

Lemma trial_values_total (values : list T) (dt : T) (step : nat)
    (ks : list (list T)) :
  length ks = length values ->
  exists v, RKDG.trial_values a_s values dt step ks = Some v /\
    length v = length values.
Proof.
  intros Hlen. unfold RKDG.trial_values. apply isub_total.
  unfold scale, RKDG.einsum_i_j. now rewrite !length_map.
Qed.

(** [k] returns whenever the tableau has a [c] for every stage up to [step],
    [self._ks] has a column for every lower stage, and the arrays fit the
    mesh. *)
Lemma k_returns (n w : nat) (values : list T) (dt t : T) (step : nat)
    (s : RKDG.scratch) :
  (forall v t' f, length v = n -> length f = n ->
     length (residual v t' f) = n) ->
  length values = n -> scratch_fits n w s ->
  step < length c_s -> step <= w ->
  exists s', RKDG.k a_s c_s residual values dt t step s = Some s' /\
    scratch_fits n w s'.
Proof.
  intros Hres Hvalues Hs. induction step as [|step IH]; intros Hc Hw.
  - cbn [RKDG.k].
    destruct (nth_error c_s 0) as [c|] eqn:Hc0;
      [|apply nth_error_None in Hc0; lia].
    destruct Hs as [[Hn Hrows] Hfl].
    destruct (trial_values_total values dt 0 (RKDG.ks s)) as (v & -> & Hv);
      [congruence|].
    eexists. split; [reflexivity|]. split; [now split|].
    cbn. apply Hres; congruence.
  - cbn [RKDG.k].
    destruct IH as (s1 & -> & [Hks1 Hfl1]); [lia | lia |].
    destruct (set_stage_total n w step (RKDG.ks s1) (RKDG.fluxes s1))
      as (ks' & -> & Hks'); [assumption | assumption | lia |].
    destruct (nth_error c_s (S step)) as [c|] eqn:HcS;
      [|apply nth_error_None in HcS; lia].
    cbn [RKDG.ks RKDG.fluxes RKDG.trials].
    destruct (trial_values_total values dt (S step) ks') as (v & -> & Hv);
      [destruct Hks'; congruence|].
    eexists. split; [reflexivity|]. split; [assumption|].
    cbn. apply Hres; [congruence|]. unfold zeros_like. now rewrite length_map.
Qed.
End Stages.

Section StagesReal.
Local Open Scope R_scope.

Lemma fold_left_Rplus_acc (l : list R) (a : R) :
  fold_left Rplus l a = a + fold_left Rplus l 0.
Proof.
  revert a. induction l as [|x l IH]; intros a; cbn; [ring|].
  rewrite (IH (a + x)), (IH (0 + x)). ring.
Qed.

Lemma np_sum_cons (x : R) (l : list R) : np_sum (x :: l) = x + np_sum l.
Proof.
  unfold np_sum. cbn. rewrite fold_left_Rplus_acc. ring.
Qed.

Lemma np_sum_app (l l' : list R) : np_sum (l ++ l') = np_sum l + np_sum l'.
Proof.
  induction l as [|x l IH]; cbn [app].
  - unfold np_sum at 2. cbn. ring.
  - rewrite !np_sum_cons, IH. ring.
Qed.

Lemma np_sum_scaled (a : R) (l : list R) :
  np_sum (map (Rmult a) l) = a * np_sum l.
Proof.
  induction l as [|x l IH]; cbn [map].
  - unfold np_sum. cbn. ring.
  - rewrite !np_sum_cons, IH. ring.
Qed.

(** The contraction [einsum("...i,...j->...")] is a product of two sums. *)
Lemma einsum_i_j_is_product_of_sums (a : list R) (ks : list (list R)) :
  RKDG.einsum_i_j a ks = map (fun row => np_sum a * np_sum row) ks.
Proof.
  unfold RKDG.einsum_i_j. apply map_ext. intros row.
  induction a as [|x a IH]; cbn [flat_map].
  - unfold np_sum. cbn. ring.
  - rewrite np_sum_app, IH, np_sum_cons.
    change (map (mul x) row) with (map (Rmult x) row).
    rewrite np_sum_scaled. ring.
Qed.

Lemma isub_same_length (a b : list R) :
  length a = length b -> isub a b = Some (zip_with Rminus a b).
Proof.
  intros Hlen. unfold isub.
  destruct b as [|y [|y' b]].
  - now rewrite Hlen.
  - destruct a as [|x [|x' a]]; try discriminate. reflexivity.
  - rewrite Hlen, Nat.eqb_refl. reflexivity.
Qed.

(** X11. The trial state the code builds for a stage: the base state minus dt
    times the sum of the slice [a_s[step : 2 step + 1]] times the sum of the
    stored lower stages.  Every lower stage has the same weight. *)
Lemma trial_values_weigh_lower_stages_equally
    (a_s values : list R) (dt : R) (step : nat) (ks : list (list R)) :
  length ks = length values ->
  RKDG.trial_values a_s values dt step ks =
    Some (zip_with Rminus values
            (map (fun row =>
                    dt * (np_sum (slice a_s step (2 * step + 1)) *
                          np_sum (slice row 0 step)))
                 ks)).
Proof.
  intros Hlen. unfold RKDG.trial_values.
  rewrite einsum_i_j_is_product_of_sums. unfold scale.
  rewrite !map_map. apply isub_same_length.
  now rewrite length_map.
Qed.
End StagesReal.

Section StagesFloat.
Local Open Scope float_scope.

(** C8 on Kutta's third-order tableau (a10 = 1/2, a20 = -1, a21 = 2,
    c = (0, 1/2, 1)), for the test equation u' = -u with the base value 1
    and dt = 0.5, in float64 (every number is exact).  With the rows stored
    one after the other the code evaluates the stages at 1, 0.5 and -0.5;
    with a zero stored in front of them, at 1, 1.25 and -0.125.  The trial
    states of the specification are 1, 0.75 and 0.75: the stage 1 state is
    1 - 0.5 (0.5 * 1), and the stage 2 state 1 - 0.5 (-1 * 1 + 2 * 0.75). *)
Lemma k_trial_states_on_kutta_tableau :
  RKDG.k [0.5; -1; 2] [0; 0.5; 1] (@decay float) [1] 0.5 0 2
    (RKDG.Scratch [[0; 0]] [0] []) =
    Some (RKDG.Scratch [[1; 0.5]] [-0.5]
            [(0%nat, [1]); (1%nat, [0.5]); (2%nat, [-0.5])]) /\
  RKDG.k [0; 0.5; -1; 2] [0; 0.5; 1] (@decay float) [1] 0.5 0 2
    (RKDG.Scratch [[0; 0]] [0] []) =
    Some (RKDG.Scratch [[1; 1.25]] [-0.125]
            [(0%nat, [1]); (1%nat, [1.25]); (2%nat, [-0.125])]) /\
  trial_state_spec [0.5] [1] 0.5 [[1]] = [0.75] /\
  trial_state_spec [-1; 2] [1] 0.5 [[1]; [0.75]] = [0.75].
Proof. repeat split; reflexivity. Qed.
End StagesFloat.

(** ** The claims on concrete meshes *)

Section FloatWitnesses.
Local Open Scope float_scope.

(** C4 on a mesh of one row of two cells, in float64. *)
Lemma flux_is_euler_flux_tensor_witness :
  exists Fl,
    Euler.flux
      [[ [1; 0.5; 0.25; 2.5; 2; 0.5; 0.25; 0.75; 1.25];
         [2; 1; 0; 4; 3; 0.5; 0; 1; 1.5] ]] = Some Fl /\
    at2 Fl 0%nat 0%nat =
      Some [ [0.5; 0.25]; [1; 0.125]; [0.125; 0.8125]; [1.625; 0.8125] ] /\
    at2 Fl 0%nat 1%nat = Some [ [1; 0]; [1.5; 0]; [0; 1]; [2.5; 0] ].
Proof.
  destruct (flux_is_euler_flux_tensor
              [[ [1; 0.5; 0.25; 2.5; 2; 0.5; 0.25; 0.75; 1.25];
                 [2; 1; 0; 4; 3; 0.5; 0; 1; 1.5] ]] 1%nat 2%nat)
    as (Fl & HFl & _ & _ & Hval).
  - split; [reflexivity|]. repeat constructor.
  - exists Fl. split; [exact HFl|]. split.
    + exact (Hval 0%nat 0%nat _ _ _ _ _ _ _ _ _ eq_refl).
    + exact (Hval 0%nat 1%nat _ _ _ _ _ _ _ _ _ eq_refl).
Defined.

(** C10 on one face, in float64. *)
Lemma F_leaves_non_conservative_fields_zero_witness :
  exists FS,
    Rusanov.F
      {| Rusanov.values := [[1; 0.5; 0.25; 2.5; 2; 0.5; 0.25; 0.75; 1.25]] |}
      {| Rusanov.n_values := [[2; 1; 0; 4; 3; 0.5; 0; 1; 1.5]];
         Rusanov.normals := [[1; 0]];
         Rusanov.surfaces := [0.5] |} = Some FS /\
    shape2 1%nat 9%nat FS /\
    forall i fs f,
      nth_error FS i = Some fs -> fields.is_cons f = false ->
      getf fs f = Some 0.
Proof.
  destruct (F_leaves_non_conservative_fields_zero
           {| Rusanov.values := [[1; 0.5; 0.25; 2.5; 2; 0.5; 0.25; 0.75; 1.25]] |}
           {| Rusanov.n_values := [[2; 1; 0; 4; 3; 0.5; 0; 1; 1.5]];
              Rusanov.normals := [[1; 0]];
              Rusanov.surfaces := [0.5] |} 1%nat)
    as (FS & HFS & Hshape & Hzero);
    try reflexivity; try (split; [reflexivity | cbn; repeat constructor]).
  exists FS. split; [exact HFS|]. split; [exact Hshape | exact Hzero].
Defined.

(** C1 on one face, in float64. *)
Lemma F_is_rusanov_flux_witness :
  exists FS,
    Rusanov.F
      {| Rusanov.values := [[1; 0.5; 0.25; 2.5; 2; 0.5; 0.25; 0.75; 1.25]] |}
      {| Rusanov.n_values := [[2; 1; 0; 4; 3; 0.5; 0; 1; 1.5]];
         Rusanov.normals := [[0.5; -0.75]];
         Rusanov.surfaces := [0.5] |} = Some FS /\
    shape2 1%nat 9%nat FS.
Proof.
  destruct (@F_is_rusanov_flux float float_scalar
           {| Rusanov.values := [[1; 0.5; 0.25; 2.5; 2; 0.5; 0.25; 0.75; 1.25]] |}
           {| Rusanov.n_values := [[2; 1; 0; 4; 3; 0.5; 0; 1; 1.5]];
              Rusanov.normals := [[0.5; -0.75]];
              Rusanov.surfaces := [0.5] |} 1%nat float_mul_comm)
    as (FS & HFS & Hshape & _);
    try reflexivity; try (split; [reflexivity | cbn; repeat constructor]).
  exists FS. now split.
Defined.
End FloatWitnesses.

Section RealWitnesses.
Local Open Scope R_scope.

(** C5 on one cell with the normal along x. *)
Lemma eigs_projects_velocity_on_normal_witness :
  exists E,
    Euler.eigs [[ [1; 1; 0; 3; 2; 1; 0; 1; 1] ]] [[ [1; 0] ]] = Some E /\
    at2 E 0%nat 0%nat = Some [1 + 1; 1 - 1].
Proof.
  destruct (eigs_projects_velocity_on_normal
              [[ [1; 1; 0; 3; 2; 1; 0; 1; 1] ]] [[ [1; 0] ]] 1%nat 1%nat)
    as (E & HE & _ & _ & Haxis).
  - split; [reflexivity|]. repeat constructor.
  - split; [reflexivity|]. repeat constructor.
  - exists E. split; [exact HE|].
    exact (proj1 (Haxis 0%nat 0%nat _ _ _ _ _ _ _ _ _ eq_refl) eq_refl).
Defined.

(** C2 on one face. *)
Lemma F_is_antisymmetric_across_a_face_witness :
  exists FS FS',
    Rusanov.F {| Rusanov.values := [[1; 1; 0; 3; 2; 1; 0; 1; 1]] |}
      {| Rusanov.n_values := [[2; 1; 0; 4; 3; 1 / 2; 0; 1; 2]];
         Rusanov.normals := [[3 / 5; 4 / 5]];
         Rusanov.surfaces := [2] |} = Some FS /\
    Rusanov.F {| Rusanov.values := [[2; 1; 0; 4; 3; 1 / 2; 0; 1; 2]] |}
      {| Rusanov.n_values := [[1; 1; 0; 3; 2; 1; 0; 1; 1]];
         Rusanov.normals := map (map Ropp) [[3 / 5; 4 / 5]];
         Rusanov.surfaces := [2] |} = Some FS' /\
    FS = map (map Ropp) FS'.
Proof.
  apply (proj1 F_is_antisymmetric_across_a_face
           [[1; 1; 0; 3; 2; 1; 0; 1; 1]] [[2; 1; 0; 4; 3; 1 / 2; 0; 1; 2]]
           [[3 / 5; 4 / 5]] [2] 1%nat);
    try reflexivity; (split; [reflexivity | cbn; repeat constructor]).
Defined.
End RealWitnesses.

Section FloatRuns.
Local Open Scope float_scope.

(** The flux of one face from its two sides in float64 (every input is
    exact): the entries are the negations of each other, compared with the
    float equality (which identifies 0 and -0). *)
Lemma F_antisymmetric_float64_run :
  exists fs fs',
    Rusanov.F_cell [1; 0.5; 0.25; 2.5; 2; 0.5; 0.25; 0.75; 1.25]
      [2; 1; 0; 4; 3; 0.5; 0; 1; 1.5] [0.5; -0.75] 0.5 = Some fs /\
    Rusanov.F_cell [2; 1; 0; 4; 3; 0.5; 0; 1; 1.5]
      [1; 0.5; 0.25; 2.5; 2; 0.5; 0.25; 0.75; 1.25] [-0.5; 0.75] 0.5 = Some fs' /\
    Forall2 (fun x y => PrimFloat.eqb x (- y) = true) fs fs'.
Proof.
  eexists. eexists. split; [reflexivity|]. split; [reflexivity|].
  repeat constructor.
Qed.
End FloatRuns.

(** * Further properties *)

(** ** The Rusanov flux rule and the Euler flux law *)

Section FacesOfF.
Context {T : Type} `{Scalar T}.

(** [F] on arrays is [F] on each face. *)
Lemma F_at_faces
    (cells : Rusanov.MeshCellSet) (neighs : Rusanov.NeighboursCellSet)
    (n : nat) :
  shape2 n 9 (Rusanov.values cells) ->
  shape2 n 9 (Rusanov.n_values neighs) ->
  shape2 n 2 (Rusanov.normals neighs) ->
  length (Rusanov.surfaces neighs) = n ->
  exists FS,
    Rusanov.F cells neighs = Some FS /\
    length FS = n /\
    forall i Q_L Q_R normal surface,
      nth_error (Rusanov.values cells) i = Some Q_L ->
      nth_error (Rusanov.n_values neighs) i = Some Q_R ->
      nth_error (Rusanov.normals neighs) i = Some normal ->
      nth_error (Rusanov.surfaces neighs) i = Some surface ->
      exists fs,
        nth_error FS i = Some fs /\
        Rusanov.F_cell Q_L Q_R normal surface = Some fs /\
        length Q_L = 9 /\ length Q_R = 9 /\ length normal = 2.
Proof.
  intros [HnL HL] [HnR HR] [Hnn Hn] Hs.
  destruct (mapM4_rel Rusanov.F_cell
              (fun q => length q = 9) (fun q => length q = 9)
              (fun v => length v = 2) (fun _ => True)
              (Rusanov.values cells) (Rusanov.n_values neighs)
              (Rusanov.normals neighs) (Rusanov.surfaces neighs))
    as (FS & HFS & Hlen & _ & Hnth);
    [congruence | congruence | congruence | assumption | assumption
    | assumption | |].
  - intros Q_L Q_R nrm s H9L H9R H2.
    destruct (F_cell_shape Q_L Q_R nrm s H9L H9R H2)
      as (f0 & f1 & f2 & f3 & Hfs).
    eexists. split; [exact Hfs | exact I].
  - exists FS. split; [exact HFS|]. split; [congruence|].
    intros i Q_L Q_R nrm s HiL HiR Hin His.
    destruct (Hnth i Q_L Q_R nrm s HiL HiR Hin His) as (fs & Hfs & HF).
    exists fs. split; [exact Hfs|]. split; [exact HF|].
    split; [|split].
    + exact (proj1 (Forall_forall _ _) HL Q_L (nth_error_In _ _ HiL)).
    + exact (proj1 (Forall_forall _ _) HR Q_R (nth_error_In _ _ HiR)).
    + exact (proj1 (Forall_forall _ _) Hn nrm (nth_error_In _ _ Hin)).
Qed.
End FacesOfF.

(** Lists of reals compared entry by entry, halves included. *)
Ltac list_field :=
  repeat (apply (f_equal2 (@cons R)); [try field|]); try reflexivity.

Section RusanovFurther.
Local Open Scope R_scope.

(** X1. The Rusanov flux is consistent: on a face whose two sides hold the
    same state, the conservative sub-range of [F] is the flux tensor of that
    state contracted with the normal, times the surface; the dissipation
    term vanishes. *)
Theorem F_is_consistent_with_the_flux_law
    (Q normals : list (list R)) (surfaces : list R) (n : nat) :
  shape2 n 9 Q -> shape2 n 2 normals -> length surfaces = n ->
  exists FS,
    Rusanov.F {| Rusanov.values := Q |}
      {| Rusanov.n_values := Q; Rusanov.normals := normals;
         Rusanov.surfaces := surfaces |} = Some FS /\
    forall i q normal surface,
      nth_error Q i = Some q ->
      nth_error normals i = Some normal ->
      nth_error surfaces i = Some surface ->
      exists fs F_q Fn,
        nth_error FS i = Some fs /\
        Rusanov.problem_F q = Some F_q /\
        einsum_kl_l F_q normal = Some Fn /\
        get_conservative fs = Some (map (fun x => x * surface) Fn).
Proof.
  intros HQ Hn Hs.
  destruct (F_at_faces {| Rusanov.values := Q |}
              {| Rusanov.n_values := Q; Rusanov.normals := normals;
                 Rusanov.surfaces := surfaces |} n HQ HQ Hn Hs)
    as (FS & HFS & _ & Hnth).
  exists FS. split; [exact HFS|].
  intros i q nrm s Hq Hnrm Hsi.
  destruct (Hnth i q q nrm s Hq Hq Hnrm Hsi) as (fs & Hfs & HF & H9 & _ & H2).
  state9 H9. normal2 H2.
  rewrite F_cell_real in HF. cbv zeta in HF. injection HF as <-.
  do 3 eexists. split; [exact Hfs|].
  split; [reflexivity|]. split; [reflexivity|].
  cbn. f_equal. list_field.
Qed.

(** X1 on one face. *)
Lemma F_is_consistent_with_the_flux_law_witness :
  exists FS,
    Rusanov.F {| Rusanov.values := [[1; 1; 0; 3; 2; 1; 0; 1; 1]] |}
      {| Rusanov.n_values := [[1; 1; 0; 3; 2; 1; 0; 1; 1]];
         Rusanov.normals := [[3 / 5; 4 / 5]];
         Rusanov.surfaces := [2] |} = Some FS /\
    length FS = 1%nat.
Proof.
  destruct (F_is_consistent_with_the_flux_law
              [[1; 1; 0; 3; 2; 1; 0; 1; 1]] [[3 / 5; 4 / 5]] [2] 1%nat)
    as (FS & HFS & _);
    try reflexivity; try (split; [reflexivity | cbn; repeat constructor]).
  exists FS. split; [exact HFS|].
  cbn in HFS. destruct FS as [|fs [|fs' FS]]; try reflexivity.
  - discriminate.
  - cbv in HFS. discriminate.
Defined.
End RusanovFurther.

Section GridHelpers.
Context {T : Type} `{Scalar T}.

(** [flux] on a mesh is [flux] at each cell. *)
Lemma flux_at (state_array : list (list (list T))) (nx ny : nat) :
  shape3 nx ny 9 state_array ->
  exists Fl,
    Euler.flux state_array = Some Fl /\
    forall i j q, at2 state_array i j = Some q ->
      exists t, at2 Fl i j = Some t /\ Euler.flux_cell q = Some t /\
        length q = 9.
Proof.
  intros [Hnx Hrows].
  destruct (mapM_rel (mapM Euler.flux_cell) (shape2 ny 9)
              (fun r => shape2 ny 4 r /\ Forall (shape2 4 2) r)
              state_array Hrows (flux_row ny))
    as (Fl & HFl & Hlen & Hall & Hnth).
  exists Fl. split; [exact HFl|].
  intros i j q Hq. unfold at2 in *.
  destruct (nth_error state_array i) as [row|] eqn:Hrow; [|discriminate].
  destruct (Hnth i row Hrow) as (frow & -> & Hfrow).
  destruct (mapM_inv _ _ _ Hfrow) as [_ Hin].
  destruct (Hin j _ Hq) as (t & Ht & Hfl).
  exists t. split; [exact Ht|]. split; [exact Hfl|].
  pose proof (proj1 (Forall_forall _ _) Hrows row (nth_error_In _ _ Hrow))
    as [_ Hq9].
  exact (proj1 (Forall_forall _ _) Hq9 q (nth_error_In _ _ Hq)).
Qed.

Lemma shape3_map {A B : Type} (f : list A -> list B) (nx ny w w' : nat)
    (a : list (list (list A))) :
  (forall v, length v = w -> length (f v) = w') ->
  shape3 nx ny w a -> shape3 nx ny w' (map (map f) a).
Proof.
  intros Hf [Hnx Hrows]. split; [now rewrite length_map|].
  apply Forall_forall. intros row' Hin.
  apply in_map_iff in Hin as (row & <- & Hrow).
  destruct (proj1 (Forall_forall _ _) Hrows row Hrow) as [Hny Hw].
  split; [now rewrite length_map|].
  apply Forall_forall. intros v' Hv'.
  apply in_map_iff in Hv' as (v & <- & Hv).
  apply Hf. exact (proj1 (Forall_forall _ _) Hw v Hv).
Qed.

Lemma at2_map {A B : Type} (f : A -> B) (a : list (list A)) (i j : nat) :
  at2 (map (map f) a) i j = option_map f (at2 a i j).
Proof.
  unfold at2. rewrite nth_error_map.
  destruct (nth_error a i) as [row|]; cbn; [|reflexivity].
  apply nth_error_map.
Qed.
End GridHelpers.

Section EulerFurther.
Local Open Scope R_scope.

(** [eigs] on a mesh is [eigs] at each cell. *)
Lemma eigs_at (state_array normals : list (list (list R))) (nx ny : nat) :
  shape3 nx ny 9 state_array ->
  shape3 nx ny 2 normals ->
  exists E,
    Euler.eigs state_array normals = Some E /\
    forall i j rho rhoU rhoV rhoE rhoe U V p c n_x n_y,
      at2 state_array i j = Some [rho; rhoU; rhoV; rhoE; rhoe; U; V; p; c] ->
      at2 normals i j = Some [n_x; n_y] ->
      at2 E i j = Some [U * n_x + V * n_y + c; U * n_x + V * n_y - c].
Proof.
  intros [Hnx Hrows] [Hnx' Hnrows].
  destruct (mapM2_rel (mapM2 Euler.eigs_cell) (shape2 ny 9) (shape2 ny 2)
              (shape2 ny 2) state_array normals)
    as (E & HE & Hlen & Hall & Hnth);
    [congruence | assumption | assumption | exact (eigs_row ny) |].
  exists E. split; [exact HE|].
  intros i j rho rhoU rhoV rhoE rhoe U V p c n_x n_y Hq Hn. unfold at2 in *.
  destruct (nth_error state_array i) as [row|] eqn:Hrow; [|discriminate].
  destruct (nth_error normals i) as [nrow|] eqn:Hnrow; [|discriminate].
  destruct (Hnth i row nrow Hrow Hnrow) as (erow & -> & Herow).
  destruct (mapM2_inv _ _ _ _ Herow) as [_ Hin].
  destruct (Hin j _ _ Hq Hn) as (e & -> & He).
  now rewrite eigs_cell_value in He.
Qed.

Lemma at2_shape3 {A : Type} (nx ny w : nat) (a : list (list (list A)))
    (i j : nat) (v : list A) :
  shape3 nx ny w a -> at2 a i j = Some v -> length v = w.
Proof.
  intros [_ Hrows] Hv. unfold at2 in Hv.
  destruct (nth_error a i) as [row|] eqn:Hrow; [|discriminate].
  destruct (proj1 (Forall_forall _ _) Hrows row (nth_error_In _ _ Hrow))
    as [_ Hw].
  exact (proj1 (Forall_forall _ _) Hw v (nth_error_In _ _ Hv)).
Qed.

Lemma at2_defined {A B : Type} (nx ny w w' : nat)
    (a : list (list (list A))) (b : list (list (list B))) (i j : nat)
    (v : list A) :
  shape3 nx ny w a -> shape3 nx ny w' b -> at2 a i j = Some v ->
  exists v', at2 b i j = Some v'.
Proof.
  intros [Hnx Hrows] [Hnx' Hrows'] Hv. unfold at2 in *.
  destruct (nth_error a i) as [row|] eqn:Hrow; [|discriminate].
  assert (Hi : (i < length b)%nat).
  { rewrite Hnx', <- Hnx. apply nth_error_Some. congruence. }
  destruct (nth_error b i) as [row'|] eqn:Hrow';
    [|apply nth_error_None in Hrow'; lia].
  destruct (proj1 (Forall_forall _ _) Hrows row (nth_error_In _ _ Hrow))
    as [Hny _].
  destruct (proj1 (Forall_forall _ _) Hrows' row' (nth_error_In _ _ Hrow'))
    as [Hny' _].
  assert (Hj : (j < length row')%nat).
  { rewrite Hny', <- Hny. apply nth_error_Some. congruence. }
  destruct (nth_error row' j) as [v'|] eqn:Hv';
    [now exists v' | apply nth_error_None in Hv'; lia].
Qed.

(** X2. Reversing the face normals negates and swaps the two eigenvalues
    that [eigs] returns for a cell, and the two always differ by twice the
    sound speed of the cell. *)
Theorem eigs_of_reversed_normal
    (state_array normals : list (list (list R))) (nx ny : nat) :
  shape3 nx ny 9 state_array ->
  shape3 nx ny 2 normals ->
  exists E E',
    Euler.eigs state_array normals = Some E /\
    Euler.eigs state_array (map (map (map Ropp)) normals) = Some E' /\
    forall i j q,
      at2 state_array i j = Some q ->
      exists Uplus Uminus c,
        getf q fields.c = Some c /\
        at2 E i j = Some [Uplus; Uminus] /\
        at2 E' i j = Some [- Uminus; - Uplus] /\
        Uplus - Uminus = 2 * c.
Proof.
  intros Hs Hn.
  assert (Hn' : shape3 nx ny 2 (map (map (map Ropp)) normals)).
  { apply (shape3_map (map Ropp) nx ny 2 2); [|exact Hn].
    intros v Hv. now rewrite length_map. }
  destruct (eigs_at state_array normals nx ny Hs Hn) as (E & HE & HvE).
  destruct (eigs_at state_array _ nx ny Hs Hn') as (E' & HE' & HvE').
  exists E, E'. split; [exact HE|]. split; [exact HE'|].
  intros i j q Hq.
  pose proof (at2_shape3 nx ny 9 state_array i j q Hs Hq) as H9.
  destruct (at2_defined nx ny 9 2 state_array normals i j q Hs Hn Hq)
    as [nrm Hnrm].
  pose proof (at2_shape3 nx ny 2 normals i j nrm Hn Hnrm) as H2.
  state9 H9. normal2 H2.
  exists (U * n_x + V * n_y + c), (U * n_x + V * n_y - c), c.
  split; [reflexivity|].
  split; [exact (HvE i j _ _ _ _ _ _ _ _ _ _ _ Hq Hnrm)|].
  split; [|ring].
  rewrite (HvE' i j rho rhoU rhoV rhoE rhoe U V p c (- n_x) (- n_y) Hq).
  - f_equal. list_ring.
  - rewrite at2_map, Hnrm. reflexivity.
Qed.

(** X2 on one cell. *)
Lemma eigs_of_reversed_normal_witness :
  exists E E',
    Euler.eigs [[ [1; 1; 0; 3; 2; 1; 0; 1; 1] ]] [[ [3 / 5; 4 / 5] ]] = Some E /\
    Euler.eigs [[ [1; 1; 0; 3; 2; 1; 0; 1; 1] ]]
      (map (map (map Ropp)) [[ [3 / 5; 4 / 5] ]]) = Some E'.
Proof.
  destruct (eigs_of_reversed_normal
              [[ [1; 1; 0; 3; 2; 1; 0; 1; 1] ]] [[ [3 / 5; 4 / 5] ]]
              1%nat 1%nat)
    as (E & E' & HE & HE' & _).
  - split; [reflexivity|]. repeat constructor.
  - split; [reflexivity|]. repeat constructor.
  - now exists E, E'.
Defined.

(** X3. The flux tensor of a cell contracted with a normal (n_x, n_y), as
    [F] contracts it, is the normal velocity U_n = U n_x + V n_y times
    (rhoU/U, rhoU, rhoV, rhoE + p) plus the pressure on the momentum rows:
    (rhoU n_x + rhoV n_y, rhoU U_n + p n_x, rhoV U_n + p n_y,
    (rhoE + p) U_n); the first entry is rho U_n when the momenta of the
    state are rho U and rho V. *)
Theorem flux_contracted_with_the_normal
    (state_array : list (list (list R))) (nx ny : nat) :
  shape3 nx ny 9 state_array ->
  exists Fl,
    Euler.flux state_array = Some Fl /\
    forall i j rho rhoU rhoV rhoE rhoe U V p c n_x n_y,
      at2 state_array i j = Some [rho; rhoU; rhoV; rhoE; rhoe; U; V; p; c] ->
      exists t Fn U_n,
        at2 Fl i j = Some t /\
        compute_U_norm [rho; rhoU; rhoV; rhoE; rhoe; U; V; p; c] [n_x; n_y]
          = Some [U_n] /\
        einsum_kl_l t [n_x; n_y] = Some Fn /\
        Fn = [ rhoU * n_x + rhoV * n_y;
               rhoU * U_n + p * n_x;
               rhoV * U_n + p * n_y;
               (rhoE + p) * U_n ] /\
        (rhoU = rho * U -> rhoV = rho * V ->
         nth_error Fn 0 = Some (rho * U_n)).
Proof.
  intros Hs. destruct (flux_at state_array nx ny Hs) as (Fl & HFl & Hat).
  exists Fl. split; [exact HFl|].
  intros i j rho rhoU rhoV rhoE rhoe U V p c n_x n_y Hq.
  destruct (Hat i j _ Hq) as (t & Ht & Hfl & _).
  cbn in Hfl. injection Hfl as <-.
  do 3 eexists. split; [exact Ht|].
  split; [reflexivity|]. split; [reflexivity|]. split.
  - cbn. list_ring.
  - intros -> ->. cbn. f_equal. ring.
Qed.

(** X3 on a mesh of one cell. *)
Lemma flux_contracted_with_the_normal_witness :
  exists Fl, Euler.flux [[ [1; 1; 0; 3; 2; 1; 0; 1; 1] ]] = Some Fl.
Proof.
  destruct (flux_contracted_with_the_normal
              [[ [1; 1; 0; 3; 2; 1; 0; 1; 1] ]] 1%nat 1%nat)
    as (Fl & HFl & _).
  - split; [reflexivity|]. repeat constructor.
  - now exists Fl.
Defined.
End EulerFurther.

Section SigmaFurther.
Local Open Scope R_scope.

(** [compute_sigma] on the faces is [compute_sigma] at each face. *)
Lemma compute_sigma_at (U_L U_R : list (list R)) (c_L c_R : list R) (n : nat) :
  shape2 n 1 U_L -> shape2 n 1 U_R -> length c_L = n -> length c_R = n ->
  exists sigma,
    Rusanov.compute_sigma U_L U_R c_L c_R = Some sigma /\
    forall i u_L u_R c_Li c_Ri,
      nth_error U_L i = Some [u_L] -> nth_error U_R i = Some [u_R] ->
      nth_error c_L i = Some c_Li -> nth_error c_R i = Some c_Ri ->
      nth_error sigma i = Some [Rmax (Rabs u_L + c_Li) (Rabs u_R + c_Ri)].
Proof.
  intros [HnL HL] [HnR HR] HcL HcR.
  destruct (mapM4_rel
              (fun u_L u_R c_L c_R => Rusanov.compute_sigma_cell u_L u_R c_L c_R)
              (fun u => length u = 1%nat) (fun u => length u = 1%nat)
              (fun _ => True) (fun s => length s = 1%nat) U_L U_R c_L c_R)
    as (sigma & Hs & Hlen & Hall & Hnth);
    [congruence | congruence | congruence | assumption | assumption
    | now apply Forall_forall
    | intros a b c d Ha Hb _; now apply compute_sigma_cell_total |].
  exists sigma. split; [exact Hs|].
  intros i u_L u_R c_Li c_Ri H1 H2 H3 H4.
  destruct (Hnth i _ _ _ _ H1 H2 H3 H4) as (s & -> & Hs').
  now rewrite compute_sigma_cell_value in Hs'.
Qed.

Lemma Rabs_shift_le (u c : R) :
  0 <= c -> Rabs (u + c) <= Rabs u + c /\ Rabs (u - c) <= Rabs u + c.
Proof.
  intros Hc. split.
  - pose proof (Rabs_triang u c) as Ht. rewrite (Rabs_pos_eq c Hc) in Ht.
    exact Ht.
  - pose proof (Rabs_triang u (- c)) as Ht.
    rewrite Rabs_Ropp, (Rabs_pos_eq c Hc) in Ht. exact Ht.
Qed.

(** X4. The speed [compute_sigma] returns for a face is one of |U_L| + c_L
    and |U_R| + c_R and bounds them both; when the sound speeds are not
    negative it bounds the absolute value of all four eigenvalues U + c and
    U - c of the two sides (float64 idealised as the real numbers). *)
Theorem compute_sigma_bounds_the_eigenvalues
    (U_L U_R : list (list R)) (c_L c_R : list R) (n : nat) :
  shape2 n 1 U_L -> shape2 n 1 U_R -> length c_L = n -> length c_R = n ->
  exists sigma,
    Rusanov.compute_sigma U_L U_R c_L c_R = Some sigma /\
    forall i u_L u_R c_Li c_Ri,
      nth_error U_L i = Some [u_L] -> nth_error U_R i = Some [u_R] ->
      nth_error c_L i = Some c_Li -> nth_error c_R i = Some c_Ri ->
      exists s,
        nth_error sigma i = Some [s] /\
        Rabs u_L + c_Li <= s /\ Rabs u_R + c_Ri <= s /\
        (s = Rabs u_L + c_Li \/ s = Rabs u_R + c_Ri) /\
        (0 <= c_Li -> 0 <= c_Ri ->
         Rabs (u_L + c_Li) <= s /\ Rabs (u_L - c_Li) <= s /\
         Rabs (u_R + c_Ri) <= s /\ Rabs (u_R - c_Ri) <= s).
Proof.
  intros HL HR HcL HcR.
  destruct (compute_sigma_at U_L U_R c_L c_R n HL HR HcL HcR)
    as (sigma & Hs & Hval).
  exists sigma. split; [exact Hs|].
  intros i u_L u_R c_Li c_Ri H1 H2 H3 H4.
  exists (Rmax (Rabs u_L + c_Li) (Rabs u_R + c_Ri)).
  split; [now apply Hval|].
  pose proof (Rmax_l (Rabs u_L + c_Li) (Rabs u_R + c_Ri)) as Hl.
  pose proof (Rmax_r (Rabs u_L + c_Li) (Rabs u_R + c_Ri)) as Hr.
  split; [exact Hl|]. split; [exact Hr|]. split.
  - unfold Rmax. destruct (Rle_dec _ _); [now right | now left].
  - intros HcLi HcRi.
    destruct (Rabs_shift_le u_L c_Li HcLi) as [Ha Hb].
    destruct (Rabs_shift_le u_R c_Ri HcRi) as [Hc Hd].
    repeat split; lra.
Qed.

(** X4 on two faces. *)
Lemma compute_sigma_bounds_the_eigenvalues_witness :
  exists sigma,
    Rusanov.compute_sigma [[1]; [-2]] [[3]; [1]] [1; 1] [2; 1] = Some sigma.
Proof.
  destruct (compute_sigma_bounds_the_eigenvalues
              [[1]; [-2]] [[3]; [1]] [1; 1] [2; 1] 2%nat)
    as (sigma & Hs & _).
  - split; [reflexivity|]. repeat constructor.
  - split; [reflexivity|]. repeat constructor.
  - reflexivity.
  - reflexivity.
  - now exists sigma.
Defined.

(** X5. [compute_sigma] does not tell the two sides of a face apart and
    does not see the sign of the normal velocities: exchanging the left
    and the right arguments, or negating every velocity, gives the same
    array (float64 idealised as the real numbers). *)
Theorem compute_sigma_ignores_the_orientation
    (U_L U_R : list (list R)) (c_L c_R : list R) (n : nat) :
  shape2 n 1 U_L -> shape2 n 1 U_R -> length c_L = n -> length c_R = n ->
  Rusanov.compute_sigma U_R U_L c_R c_L =
    Rusanov.compute_sigma U_L U_R c_L c_R /\
  Rusanov.compute_sigma (map (map Ropp) U_L) (map (map Ropp) U_R) c_L c_R =
    Rusanov.compute_sigma U_L U_R c_L c_R.
Proof.
  intros [HnL HL] [HnR HR] HcL HcR. unfold Rusanov.compute_sigma.
  subst n. revert U_R c_L c_R HnR HR HcL HcR.
  induction HL as [|u_L U_L Hu _ IH];
    intros [|u_R U_R] [|cl c_L] [|cr c_R] HnR HR HcL HcR;
    try discriminate; [now split|].
  inversion HR as [|? ? Hu' HR']; subst.
  destruct (length1 u_L Hu) as [a ->]. destruct (length1 u_R Hu') as [b ->].
  destruct (IH U_R c_L c_R) as [IH1 IH2];
    [now injection HnR | assumption | now injection HcL | now injection HcR |].
  cbn [mapM4 map]. rewrite !compute_sigma_cell_value, IH1, IH2.
  cbn [add absv maxv R_scalar]. rewrite !Rabs_Ropp.
  now rewrite (Rmax_comm (Rabs b + cr)).
Qed.

(** X5 on two faces. *)
Lemma compute_sigma_ignores_the_orientation_witness :
  Rusanov.compute_sigma [[3]; [1]] [[1]; [-2]] [2; 1] [1; 1] =
    Rusanov.compute_sigma [[1]; [-2]] [[3]; [1]] [1; 1] [2; 1].
Proof.
  refine (proj1 (compute_sigma_ignores_the_orientation
                   [[1]; [-2]] [[3]; [1]] [1; 1] [2; 1] 2%nat _ _ _ _)).
  - split; [reflexivity|]. repeat constructor.
  - split; [reflexivity|]. repeat constructor.
  - reflexivity.
  - reflexivity.
Defined.
End SigmaFurther.

Section CFLFurther.
Local Open Scope R_scope.

Lemma sum_squares_ge (v : list R) (a : R) :
  a <= fold_left Rplus (zip_with Rmult v v) a.
Proof.
  revert a. induction v as [|x v IH]; intros a; cbn; [lra|].
  pose proof (IH (a + x * x)) as Hx.
  pose proof (Rle_0_sqr x) as Hsq. unfold Rsqr in Hsq. lra.
Qed.

Lemma sum_squares_pos (v : list R) (a x : R) :
  0 <= a -> In x v -> x <> 0 ->
  0 < fold_left Rplus (zip_with Rmult v v) a.
Proof.
  revert a. induction v as [|y v IH]; intros a Ha Hin Hx; [destruct Hin|].
  cbn. pose proof (Rle_0_sqr y) as Hsq. unfold Rsqr in Hsq.
  destruct Hin as [->|Hin].
  - pose proof (sum_squares_ge v (a + x * x)) as Hge.
    pose proof (Rsqr_pos_lt x Hx) as Hpos. unfold Rsqr in Hpos. lra.
  - apply IH; [lra | assumption | assumption].
Qed.

(** The wave speed is positive as soon as one component of the velocity is
    not zero. *)
Lemma norm_pos (V : list R) (x : R) : In x V -> x <> 0 -> 0 < norm V.
Proof.
  intros Hin Hx. unfold norm, np_sum. cbn [add mul sqrtv zero R_scalar].
  apply sqrt_lt_R0. apply (sum_squares_pos V 0 x); [lra | assumption..].
Qed.



(** X6. The step [CFL] returns keeps the advection within every face: with
    a cfl_number that is not negative and a velocity that is not zero, the
    distance dt * ||V|| travelled in one step is at most cfl_number times
    the length of any face of the cell set, with equality at one face; the
    step is positive when the cfl_number and all the face lengths are
    (float64 idealised as the real numbers). *)
Theorem CFL_step_stays_within_every_face
    (V : list R) (surfaces : list (list R)) (CFL_value v : R) :
  0 <= CFL_value -> In v V -> v <> 0 -> concat surfaces <> [] ->
  exists dt,
    Upwind.CFL V surfaces CFL_value = Some dt /\
    (forall row x, In row surfaces -> In x row ->
       dt * norm V <= CFL_value * x) /\
    (exists row x, In row surfaces /\ In x row /\
       dt * norm V = CFL_value * x) /\
    (0 < CFL_value ->
     (forall row x, In row surfaces -> In x row -> 0 < x) -> 0 < dt).
Proof.
  intros Hcfl Hin Hv Hne.
  pose proof (norm_pos V v Hin Hv) as Hnorm.
  destruct (np_min_is_least (concat surfaces) Hne) as (dx & Hdx & Hmem & Hleast).
  unfold Upwind.CFL. rewrite Hdx. eexists. split; [reflexivity|].
  cbn [mul div R_scalar].
  assert (Heq : CFL_value * dx / norm V * norm V = CFL_value * dx)
    by (field; lra).
  apply in_concat in Hmem as (row0 & Hrow0 & Hx0).
  split; [|split].
  - intros row x Hrow Hx. rewrite Heq.
    apply Rmult_le_compat_l; [exact Hcfl|].
    apply Hleast. apply in_concat. now exists row.
  - exists row0, dx. now repeat split.
  - intros Hpos Hfaces. pose proof (Hfaces row0 dx Hrow0 Hx0) as Hdxpos.
    apply Rdiv_lt_0_compat; [|exact Hnorm].
    now apply Rmult_lt_0_compat.
Qed.

(** X6 on two cells. *)
Lemma CFL_step_stays_within_every_face_witness :
  exists dt, Upwind.CFL [1; 0] [[1 / 2; 1 / 4]; [1; 1 / 4]] (1 / 2) = Some dt.
Proof.
  destruct (CFL_step_stays_within_every_face
              [1; 0] [[1 / 2; 1 / 4]; [1; 1 / 4]] (1 / 2) 1)
    as (dt & Hdt & _).
  - lra.
  - now left.
  - lra.
  - discriminate.
  - now exists dt.
Defined.



(** With the advection velocity of the module, V = (1, 0), the wave speed
    is one and [CFL] returns cfl_number times the least face length. *)
Lemma CFL_of_the_unit_velocity (surfaces : list (list R)) (CFL_value : R) :
  norm (@Upwind.V R _) = 1 /\
  Upwind.CFL Upwind.V surfaces CFL_value =
    option_map (Rmult CFL_value) (np_min (concat surfaces)).
Proof.
  assert (Hnorm : norm (@Upwind.V R _) = 1).
  { unfold norm, np_sum, Upwind.V. cbn.
    replace (0 + 1 * 1 + 0 * 0) with 1 by ring. apply sqrt_1. }
  split; [exact Hnorm|].
  unfold Upwind.CFL. rewrite Hnorm.
  destruct (np_min (concat surfaces)) as [dx|]; [|reflexivity].
  cbn. f_equal. field.
Qed.
End CFLFurther.

Section Dissipation.
Local Open Scope R_scope.

(** X23. The Rusanov flux is the mean of the fluxes of the two sides minus
    a dissipation that opposes the jump.  On every face, the conservative
    sub-range of F(Q_L, Q_R) is the half sum of those of F(Q_L, Q_L) and
    F(Q_R, Q_R) minus sigma surface / 2 times Q_R - Q_L, where sigma is the
    speed [compute_sigma] returns for the face; sigma is not negative when
    the sound speeds are not, and then, for a surface that is not negative,
    the difference to the half sum, contracted with the jump Q_R - Q_L, is
    not positive (float64 idealised as the real numbers). *)
Theorem F_dissipation_opposes_the_jump
    (Q_L Q_R normals : list (list R)) (surfaces : list R) (n : nat) :
  shape2 n 9 Q_L -> shape2 n 9 Q_R -> shape2 n 2 normals ->
  length surfaces = n ->
  exists FS F_LL F_RR,
    Rusanov.F {| Rusanov.values := Q_L |}
      {| Rusanov.n_values := Q_R; Rusanov.normals := normals;
         Rusanov.surfaces := surfaces |} = Some FS /\
    Rusanov.F {| Rusanov.values := Q_L |}
      {| Rusanov.n_values := Q_L; Rusanov.normals := normals;
         Rusanov.surfaces := surfaces |} = Some F_LL /\
    Rusanov.F {| Rusanov.values := Q_R |}
      {| Rusanov.n_values := Q_R; Rusanov.normals := normals;
         Rusanov.surfaces := surfaces |} = Some F_RR /\
    forall i q_L q_R normal surface,
      nth_error Q_L i = Some q_L -> nth_error Q_R i = Some q_R ->
      nth_error normals i = Some normal ->
      nth_error surfaces i = Some surface ->
      exists fs fl fr U_L U_R c_L c_R sigma a b b' ql qr,
        nth_error FS i = Some fs /\ nth_error F_LL i = Some fl /\
        nth_error F_RR i = Some fr /\
        compute_U_norm q_L normal = Some U_L /\
        compute_U_norm q_R normal = Some U_R /\
        getf q_L fields.c = Some c_L /\ getf q_R fields.c = Some c_R /\
        Rusanov.compute_sigma_cell U_L U_R c_L c_R = Some [sigma] /\
        get_conservative fs = Some a /\ get_conservative fl = Some b /\
        get_conservative fr = Some b' /\
        get_conservative q_L = Some ql /\ get_conservative q_R = Some qr /\
        a = zip_with Rminus (map (Rmult (1 / 2)) (zip_with Rplus b b'))
              (map (Rmult (sigma * surface / 2)) (zip_with Rminus qr ql)) /\
        (0 <= c_L -> 0 <= c_R -> 0 <= sigma) /\
        (0 <= c_L -> 0 <= c_R -> 0 <= surface ->
         np_sum (zip_with Rmult
                   (zip_with Rminus a
                      (map (Rmult (1 / 2)) (zip_with Rplus b b')))
                   (zip_with Rminus qr ql)) <= 0).
Proof.
  intros HL HR Hn Hs.
  destruct (F_at_faces {| Rusanov.values := Q_L |}
              {| Rusanov.n_values := Q_R; Rusanov.normals := normals;
                 Rusanov.surfaces := surfaces |} n HL HR Hn Hs)
    as (FS & HFS & _ & Hnth).
  destruct (F_at_faces {| Rusanov.values := Q_L |}
              {| Rusanov.n_values := Q_L; Rusanov.normals := normals;
                 Rusanov.surfaces := surfaces |} n HL HL Hn Hs)
    as (F_LL & HFLL & _ & HnthL).
  destruct (F_at_faces {| Rusanov.values := Q_R |}
              {| Rusanov.n_values := Q_R; Rusanov.normals := normals;
                 Rusanov.surfaces := surfaces |} n HR HR Hn Hs)
    as (F_RR & HFRR & _ & HnthR).
  exists FS, F_LL, F_RR. repeat (split; [assumption|]).
  cbn [Rusanov.values Rusanov.n_values Rusanov.normals Rusanov.surfaces]
    in Hnth, HnthL, HnthR.
  intros i q_L q_R nrm s HqL HqR Hnrm Hsi.
  destruct (Hnth i q_L q_R nrm s HqL HqR Hnrm Hsi)
    as (fs & Hfs & HF & H9L & H9R & H2).
  destruct (HnthL i q_L q_L nrm s HqL HqL Hnrm Hsi) as (fl & Hfl & HFl & _).
  destruct (HnthR i q_R q_R nrm s HqR HqR Hnrm Hsi) as (fr & Hfr & HFr & _).
  clear Hnth HnthL HnthR HqL HqR.
  destruct (length9 q_L H9L)
    as (rho_L & rhoU_L & rhoV_L & rhoE_L & rhoe_L & U_L & V_L & p_L & c_L & ->).
  destruct (length9 q_R H9R)
    as (rho_R & rhoU_R & rhoV_R & rhoE_R & rhoe_R & U_R & V_R & p_R & c_R & ->).
  normal2 H2.
  rewrite F_cell_real in HF, HFl, HFr. cbv zeta in HF, HFl, HFr.
  injection HF as <-. injection HFl as <-. injection HFr as <-.
  set (sg := Rmax (Rabs (U_L * n_x + V_L * n_y) + c_L)
                  (Rabs (U_R * n_x + V_R * n_y) + c_R)).
  do 3 eexists.
  exists [0 + U_L * n_x + V_L * n_y], [0 + U_R * n_x + V_R * n_y],
    c_L, c_R, sg.
  do 5 eexists.
  split; [exact Hfs|]. split; [exact Hfl|]. split; [exact Hfr|].
  split; [reflexivity|]. split; [reflexivity|].
  split; [reflexivity|]. split; [reflexivity|].
  split; [apply compute_sigma_cell_real|].
  split; [reflexivity|]. split; [reflexivity|]. split; [reflexivity|].
  split; [reflexivity|]. split; [reflexivity|].
  assert (Hsg : 0 <= c_L -> 0 <= c_R -> 0 <= sg).
  { intros HcL _. unfold sg.
    apply Rle_trans with (Rabs (U_L * n_x + V_L * n_y) + c_L);
      [|apply Rmax_l].
    pose proof (Rabs_pos (U_L * n_x + V_L * n_y)). lra. }
  split; [|split; [exact Hsg|]].
  - cbn. unfold sg. list_field.
  - intros HcL HcR Hsurf. specialize (Hsg HcL HcR).
    unfold np_sum. cbn. fold sg.
    match goal with
    | |- ?e <= 0 =>
        replace e with
          (- (sg * s / 2 *
              ((rho_R - rho_L) * (rho_R - rho_L) +
               (rhoU_R - rhoU_L) * (rhoU_R - rhoU_L) +
               (rhoV_R - rhoV_L) * (rhoV_R - rhoV_L) +
               (rhoE_R - rhoE_L) * (rhoE_R - rhoE_L)))) by field
    end.
    pose proof (Rle_0_sqr (rho_R - rho_L)) as H0.
    pose proof (Rle_0_sqr (rhoU_R - rhoU_L)) as H1.
    pose proof (Rle_0_sqr (rhoV_R - rhoV_L)) as H2'.
    pose proof (Rle_0_sqr (rhoE_R - rhoE_L)) as H3.
    unfold Rsqr in H0, H1, H2', H3.
    assert (0 <= sg * s) by (apply Rmult_le_pos; lra).
    assert (0 <= sg * s / 2) by lra.
    assert (0 <= sg * s / 2 *
              ((rho_R - rho_L) * (rho_R - rho_L) +
               (rhoU_R - rhoU_L) * (rhoU_R - rhoU_L) +
               (rhoV_R - rhoV_L) * (rhoV_R - rhoV_L) +
               (rhoE_R - rhoE_L) * (rhoE_R - rhoE_L)))
      by (apply Rmult_le_pos; lra).
    lra.
Qed.

(** X23 on one face. *)
Lemma F_dissipation_opposes_the_jump_witness :
  exists FS,
    Rusanov.F {| Rusanov.values := [[1; 1; 0; 3; 2; 1; 0; 1; 1]] |}
      {| Rusanov.n_values := [[2; 0; 0; 5; 4; 0; 0; 2; 1]];
         Rusanov.normals := [[1; 0]];
         Rusanov.surfaces := [2] |} = Some FS.
Proof.
  destruct (F_dissipation_opposes_the_jump
              [[1; 1; 0; 3; 2; 1; 0; 1; 1]] [[2; 0; 0; 5; 4; 0; 0; 2; 1]]
              [[1; 0]] [2] 1%nat)
    as (FS & F_LL & F_RR & HFS & _);
    try reflexivity; try (split; [reflexivity | cbn; repeat constructor]).
  now exists FS.
Defined.
End Dissipation.

Section SurfaceScaling.
Local Open Scope R_scope.

Lemma zeros_scaled (k : R) (q : list R) (n : nat) :
  map (Rmult k) (skipn n (zeros_like q)) = skipn n (zeros_like q).
Proof.
  unfold zeros_like. rewrite <- skipn_map, map_map. f_equal.
  apply map_ext. intros _. cbn. ring.
Qed.

Lemma F_cell_scaled_surface (Q_L Q_R normal : list R) (k s : R) :
  Rusanov.F_cell Q_L Q_R normal (k * s) =
    option_map (map (Rmult k)) (Rusanov.F_cell Q_L Q_R normal s).
Proof.
  unfold Rusanov.F_cell.
  repeat match goal with
         | |- (match ?e with Some _ => _ | None => None end) = _ =>
             destruct e; [|reflexivity]
         end.
  cbn [broadcast]. unfold set_conservative. rewrite !length_map.
  destruct (_ && _); [|reflexivity].
  cbn [option_map]. f_equal.
  rewrite map_app, zeros_scaled, map_map. f_equal.
  apply map_ext. intros x. cbn. ring.
Qed.

(** X8. The flux of [F] through a face is proportional to the surface of
    the face: with every surface multiplied by k, [F] returns k times the
    states it returned, and raises where it raised; a face of surface zero
    carries no flux (float64 idealised as the real numbers). *)
Theorem F_is_proportional_to_the_surface
    (cells : @Rusanov.MeshCellSet R) (neighs : @Rusanov.NeighboursCellSet R)
    (k : R) :
  Rusanov.F cells
    {| Rusanov.n_values := Rusanov.n_values neighs;
       Rusanov.normals := Rusanov.normals neighs;
       Rusanov.surfaces := map (Rmult k) (Rusanov.surfaces neighs) |} =
    option_map (map (map (Rmult k))) (Rusanov.F cells neighs).
Proof.
  unfold Rusanov.F. cbn [Rusanov.n_values Rusanov.normals Rusanov.surfaces].
  generalize (Rusanov.values cells) (Rusanov.n_values neighs)
    (Rusanov.normals neighs) (Rusanov.surfaces neighs).
  intros ws. induction ws as [|w ws IH]; intros [|x xs] [|y ys] [|z zs];
    try reflexivity.
  cbn [map mapM4]. rewrite F_cell_scaled_surface, IH.
  destruct (Rusanov.F_cell w x y z); [|reflexivity].
  cbn [option_map].
  now destruct (mapM4 Rusanov.F_cell ws xs ys zs).
Qed.
End SurfaceScaling.

(** ** More on the Runge-Kutta stage recursion *)

Section StagesFurther.
Context {T : Type} `{Scalar T}.
Variables a_s c_s : list T.
Variable residual : list T -> T -> list T -> list T.

Lemma set_at_spec (a a' : list T) (i : nat) (x : T) :
  set_at a i x = Some a' ->
  length a' = length a /\ nth_error a' i = Some x /\
  forall j, j <> i -> nth_error a' j = nth_error a j.
Proof.
  revert a' i. induction a as [|y a IH]; intros a' [|i] Hs; cbn in Hs;
    try discriminate.
  - injection Hs as <-. repeat split. intros [|j] Hj; [lia | reflexivity].
  - destruct (set_at a i x) as [r|] eqn:Hr; [|discriminate].
    injection Hs as <-. destruct (IH r i Hr) as (Hl & Hi & Hj).
    split; [cbn; now rewrite Hl|]. split; [exact Hi|].
    intros [|j] Hne; [reflexivity|]. cbn. apply Hj. lia.
Qed.

Lemma set_at_out_of_range (a : list T) (i : nat) (x : T) :
  length a <= i -> set_at a i x = None.
Proof.
  revert i. induction a as [|y a IH]; intros [|i] Hi; cbn in *;
    try reflexivity; [lia|].
  rewrite IH; [reflexivity | lia].
Qed.

Lemma mapM2_same_length {A B C : Type} (f : A -> B -> option C)
    (xs : list A) (ys : list B) (r : list C) :
  mapM2 f xs ys = Some r -> length ys = length xs.
Proof.
  revert ys r. induction xs as [|a xs IH]; intros [|b ys] r; cbn; intros Hr;
    try discriminate; [reflexivity|].
  destruct (f a b); [|discriminate].
  destruct (mapM2 f xs ys) as [cs|] eqn:Hcs; [|discriminate].
  f_equal. now apply (IH ys cs).
Qed.

(** [self._ks[..., j] = x] writes [x] in column [j] and nothing else. *)
Lemma set_stage_spec (ks ks' : list (list T)) (j : nat) (x : list T) :
  RKDG.set_stage ks j x = Some ks' ->
  forall i row', nth_error ks' i = Some row' ->
    exists row, nth_error ks i = Some row /\ length row' = length row /\
      nth_error row' j = nth_error x i /\
      forall j', j' <> j -> nth_error row' j' = nth_error row j'.
Proof.
  intros Hs i row' Hrow'. unfold RKDG.set_stage in Hs.
  pose proof (mapM2_same_length _ _ _ _ Hs) as Hlen.
  destruct (mapM2_inv _ _ _ _ Hs) as [Hl Hnth].
  assert (Hi : i < length ks).
  { rewrite <- Hl. apply nth_error_Some. congruence. }
  destruct (nth_error ks i) as [row|] eqn:Hrow;
    [|apply nth_error_None in Hrow; lia].
  destruct (nth_error x i) as [v|] eqn:Hv;
    [|apply nth_error_None in Hv; lia].
  destruct (Hnth i row v Hrow Hv) as (r & Hr & Hset).
  assert (r = row') by congruence. subst r.
  destruct (set_at_spec row row' j v Hset) as (Hl' & Hj & Hother).
  exists row. repeat split; assumption.
Qed.

Lemma set_stage_out_of_range (n w j : nat) (ks : list (list T)) (x : list T) :
  shape2 n w ks -> length x = n -> 0 < n -> w <= j ->
  RKDG.set_stage ks j x = None.
Proof.
  intros [Hn Hw] Hx Hpos Hj. unfold RKDG.set_stage.
  destruct ks as [|row ks]; [cbn in Hn; lia|].
  destruct x as [|v x]; [cbn in Hx; lia|].
  cbn [mapM2]. inversion Hw as [|? ? Hrow _]; subst.
  rewrite set_at_out_of_range; [reflexivity | lia].
Qed.

Lemma k_needs_a_stage_time (values : list T) (dt t : T) (step : nat)
    (s : RKDG.scratch) :
  length c_s <= step -> RKDG.k a_s c_s residual values dt t step s = None.
Proof.
  intros Hc. apply nth_error_None in Hc.
  destruct step as [|step]; cbn [RKDG.k]; [now rewrite Hc|].
  destruct (RKDG.k a_s c_s residual values dt t step s) as [s1|];
    [|reflexivity].
  destruct (RKDG.set_stage (RKDG.ks s1) step (RKDG.fluxes s1));
    [|reflexivity].
  now rewrite Hc.
Qed.

(** X10. Where the residual keeps the shape of the mesh and the scratch
    arrays fit a mesh that is not empty, [k] returns for a stage exactly
    when the tableau holds a [c] for the stage and [self._ks] a column for
    every lower stage; otherwise it raises (IndexError).  When it returns,
    the scratch arrays still fit. *)
Theorem k_returns_exactly_within_the_tableau
    (n w : nat) (values : list T) (dt t : T) (step : nat) (s : RKDG.scratch) :
  (forall v t' f, length v = n -> length f = n ->
     length (residual v t' f) = n) ->
  0 < n -> length values = n -> scratch_fits n w s ->
  (step < length c_s /\ step <= w ->
   exists s', RKDG.k a_s c_s residual values dt t step s = Some s' /\
     scratch_fits n w s') /\
  (~ (step < length c_s /\ step <= w) ->
   RKDG.k a_s c_s residual values dt t step s = None).
Proof.
  intros Hres Hpos Hvalues Hs. split.
  - intros [Hc Hw]. now apply k_returns.
  - intros Hnot.
    destruct (Nat.le_gt_cases (length c_s) step) as [Hc|Hc];
      [now apply k_needs_a_stage_time|].
    assert (Hw : w < step) by lia. clear Hnot.
    induction step as [|step IH]; [lia|].
    cbn [RKDG.k].
    destruct (RKDG.k a_s c_s residual values dt t step s) as [s1|] eqn:Hk;
      [|reflexivity].
    destruct (Nat.le_gt_cases step w) as [Hle|Hgt].
    + destruct (k_returns a_s c_s residual n w values dt t step s
                  Hres Hvalues Hs) as (s1' & Hk' & [Hks Hfl]);
        [lia | lia |].
      assert (s1' = s1) by congruence. subst s1'.
      rewrite (set_stage_out_of_range n w step); try assumption;
        [reflexivity | lia].
    + assert (Hno : Some s1 = None) by (apply IH; lia). discriminate Hno.
Qed.

(** X12. [k] writes in [self._ks] only the columns of the lower stages: a
    call for stage [step] keeps the shape of every row and leaves the
    columns [step], [step + 1], ... as they were. *)
Theorem k_keeps_the_higher_columns
    (values : list T) (dt t : T) (step : nat) (s s' : RKDG.scratch) :
  RKDG.k a_s c_s residual values dt t step s = Some s' ->
  length (RKDG.ks s') = length (RKDG.ks s) /\
  forall i row', nth_error (RKDG.ks s') i = Some row' ->
    exists row, nth_error (RKDG.ks s) i = Some row /\
      length row' = length row /\
      forall j, step <= j -> nth_error row' j = nth_error row j.
Proof.
  revert s'. induction step as [|step IH]; intros s' Hk; cbn [RKDG.k] in Hk.
  - destruct (nth_error c_s 0); [|discriminate].
    destruct (RKDG.trial_values a_s values dt 0 (RKDG.ks s)); [|discriminate].
    injection Hk as <-. cbn [RKDG.ks]. split; [reflexivity|].
    intros i row' Hrow'. now exists row'.
  - destruct (RKDG.k a_s c_s residual values dt t step s) as [s1|];
      [|discriminate].
    destruct (IH s1 eq_refl) as [Hlen1 Hrows1].
    destruct (RKDG.set_stage (RKDG.ks s1) step (RKDG.fluxes s1))
      as [ks'|] eqn:Hset; [|discriminate].
    destruct (nth_error c_s (S step)); [|discriminate].
    cbn [RKDG.ks RKDG.fluxes RKDG.trials] in Hk.
    destruct (RKDG.trial_values a_s values dt (S step) ks'); [|discriminate].
    injection Hk as <-. cbn [RKDG.ks].
    split.
    + rewrite <- Hlen1. unfold RKDG.set_stage in Hset.
      now destruct (mapM2_inv _ _ _ _ Hset).
    + intros i row' Hrow'.
      destruct (set_stage_spec _ _ _ _ Hset i row' Hrow')
        as (row1 & Hrow1 & Hl1 & _ & Hother).
      destruct (Hrows1 i row1 Hrow1) as (row & Hrow & Hl & Hkeep).
      exists row. split; [exact Hrow|]. split; [congruence|].
      intros j Hj. rewrite Hother by lia. apply Hkeep. lia.
Qed.

(** X13. [k] caches every lower stage: after a call for stage [step],
    column [j] of [self._ks] holds, for every j < step, the residual
    ([self._fluxes]) that the call for stage [j] leaves. *)
Theorem k_stores_every_lower_stage
    (values : list T) (dt t : T) (step : nat) (s s' : RKDG.scratch) :
  RKDG.k a_s c_s residual values dt t step s = Some s' ->
  forall j, j < step ->
    exists s_j,
      RKDG.k a_s c_s residual values dt t j s = Some s_j /\
      forall i row', nth_error (RKDG.ks s') i = Some row' ->
        nth_error row' j = nth_error (RKDG.fluxes s_j) i.
Proof.
  revert s'. induction step as [|step IH]; intros s' Hk j Hj; [lia|].
  cbn [RKDG.k] in Hk.
  destruct (RKDG.k a_s c_s residual values dt t step s) as [s1|] eqn:Hk1;
    [|discriminate].
  destruct (RKDG.set_stage (RKDG.ks s1) step (RKDG.fluxes s1))
    as [ks'|] eqn:Hset; [|discriminate].
  destruct (nth_error c_s (S step)); [|discriminate].
  cbn [RKDG.ks RKDG.fluxes RKDG.trials] in Hk.
  destruct (RKDG.trial_values a_s values dt (S step) ks'); [|discriminate].
  injection Hk as <-. cbn [RKDG.ks].
  destruct (Nat.eq_dec j step) as [->|Hne].
  - exists s1. split; [exact Hk1|].
    intros i row' Hrow'.
    now destruct (set_stage_spec _ _ _ _ Hset i row' Hrow')
      as (row1 & _ & _ & Hcol & _).
  - destruct (IH s1 eq_refl j) as (s_j & Hsj & Hcols); [lia|].
    exists s_j. split; [exact Hsj|].
    intros i row' Hrow'.
    destruct (set_stage_spec _ _ _ _ Hset i row' Hrow')
      as (row1 & Hrow1 & _ & _ & Hother).
    rewrite Hother by exact Hne. now apply Hcols.
Qed.
End StagesFurther.

Section StagesFurtherFloat.
Local Open Scope float_scope.

(** X10 on a tableau of three stages. *)
Lemma k_returns_exactly_within_the_tableau_witness :
  exists s',
    RKDG.k [0.5; -1; 2] [0; 0.5; 1] (@decay float) [1] 0.5 0 2
      (RKDG.Scratch [[0; 0]] [0] []) = Some s'.
Proof.
  destruct (@k_returns_exactly_within_the_tableau float float_scalar
              [0.5; -1; 2] [0; 0.5; 1] (@decay float) 1 2 [1] 0.5 0 2
              (RKDG.Scratch [[0; 0]] [0] []))
    as [Hreturns _].
  - intros v t' f Hv Hf. exact Hv.
  - lia.
  - reflexivity.
  - split; [split; [reflexivity | repeat constructor] | reflexivity].
  - destruct Hreturns as (s' & Hs' & _); [cbn; lia|]. now exists s'.
Defined.

(** X9 on a tableau of three stages. *)
Lemma k_evaluates_each_stage_once_witness :
  map fst (RKDG.trials
             (RKDG.Scratch [[1; 0.5]] [-0.5]
                [(0%nat, [1]); (1%nat, [0.5]); (2%nat, [-0.5])])) =
  map fst (RKDG.trials (RKDG.Scratch [[0; 0]] [0] [])) ++ seq 0 3.
Proof.
  apply (@k_evaluates_each_stage_once float float_scalar
           [0.5; -1; 2] [0; 0.5; 1] (@decay float) [1] 0.5 0 2).
  reflexivity.
Defined.

(** X12 on a tableau of three stages, called for the stage 1. *)
Lemma k_keeps_the_higher_columns_witness :
  length (RKDG.ks (RKDG.Scratch [[1; 7]] [0.5] [(0%nat, [1]); (1%nat, [0.5])]))
    = length (RKDG.ks (RKDG.Scratch [[3; 7]] [0] [])).
Proof.
  apply (@k_keeps_the_higher_columns float float_scalar
           [0.5; -1; 2] [0; 0.5; 1] (@decay float) [1] 0.5 0 1).
  reflexivity.
Defined.

(** X13 on a tableau of three stages. *)
Lemma k_stores_every_lower_stage_witness :
  exists s_1,
    RKDG.k [0.5; -1; 2] [0; 0.5; 1] (@decay float) [1] 0.5 0 1
      (RKDG.Scratch [[0; 0]] [0] []) = Some s_1.
Proof.
  destruct (@k_stores_every_lower_stage float float_scalar
              [0.5; -1; 2] [0; 0.5; 1] (@decay float) [1] 0.5 0 2
              (RKDG.Scratch [[0; 0]] [0] [])
              (RKDG.Scratch [[1; 0.5]] [-0.5]
                 [(0%nat, [1]); (1%nat, [0.5]); (2%nat, [-0.5])])
              eq_refl 1%nat (le_n 2))
    as (s_1 & Hs1 & _).
  now exists s_1.
Defined.
End StagesFurtherFloat.

Section StagesFurtherReal.
Local Open Scope R_scope.

Lemma zip_with_minus_zero (values zs : list R) :
  length zs = length values -> Forall (fun z => z = 0) zs ->
  zip_with Rminus values zs = values.
Proof.
  revert zs. induction values as [|v values IH]; intros [|z zs] Hlen Hz;
    try discriminate; [reflexivity|].
  inversion Hz as [|? ? Hz0 Hz']; subst. cbn. f_equal; [ring|].
  apply IH; [now injection Hlen | assumption].
Qed.

(** X11 on two mesh entries. *)
Lemma trial_values_weigh_lower_stages_equally_witness :
  RKDG.trial_values [1 / 2; -1; 2] [1; 3] (1 / 2) 2 [[1; 2]; [3; 4]] =
    Some (zip_with Rminus [1; 3]
            (map (fun row =>
                    1 / 2 * (np_sum (slice [1 / 2; -1; 2] 2 (2 * 2 + 1)) *
                             np_sum (slice row 0 2)))
                 [[1; 2]; [3; 4]])).
Proof.
  apply (trial_values_weigh_lower_stages_equally
           [1 / 2; -1; 2] [1; 3] (1 / 2) 2 [[1; 2]; [3; 4]]).
  reflexivity.
Defined.

(** X14. The first stage is evaluated at the base state: for stage 0 [k]
    passes [mesh.cells.values] unchanged to the residual, at the time
    t + c_s[0] dt, whatever [a_s], [dt] and [self._ks] hold; it adds to
    [self._fluxes] as they are, without a reset, and leaves [self._ks]
    alone (float64 idealised as the real numbers). *)
Theorem k_first_stage_is_at_the_base_state
    (a_s c_s : list R) (residual : list R -> R -> list R -> list R)
    (values : list R) (dt t c : R) (s : RKDG.scratch) :
  length (RKDG.ks s) = length values ->
  nth_error c_s 0 = Some c ->
  RKDG.k a_s c_s residual values dt t 0 s =
    Some (RKDG.Scratch (RKDG.ks s)
            (residual values (t + c * dt) (RKDG.fluxes s))
            (RKDG.trials s ++ [(0%nat, values)])).
Proof.
  intros Hlen Hc. cbn [RKDG.k]. rewrite Hc.
  unfold RKDG.trial_values.
  rewrite einsum_i_j_is_product_of_sums. unfold scale.
  rewrite !map_map, isub_same_length by now rewrite length_map.
  rewrite zip_with_minus_zero; [reflexivity | now rewrite length_map |].
  apply Forall_forall. intros z Hz. apply in_map_iff in Hz as (row & <- & _).
  unfold slice. cbn [Nat.sub firstn]. unfold np_sum at 2. cbn. ring.
Qed.

(** X14 on two mesh entries. *)
Lemma k_first_stage_is_at_the_base_state_witness :
  RKDG.k [1] [0; 1] (@decay R) [1; 3] (1 / 2) 0 0
    (RKDG.Scratch [[5]; [6]] [0; 0] []) =
    Some (RKDG.Scratch [[5]; [6]] [1; 3] [(0%nat, [1; 3])]).
Proof.
  apply (k_first_stage_is_at_the_base_state [1] [0; 1] (@decay R) [1; 3]
           (1 / 2) 0 0 (RKDG.Scratch [[5]; [6]] [0; 0] []));
    reflexivity.
Defined.
End StagesFurtherReal.

(** ** The upwind flux of the advection problem (test_advectionDG.py) *)

Lemma mapM3_rel {A B C D : Type} (f : A -> B -> C -> option D)
    (P : A -> Prop) (Q : B -> Prop) (R' : C -> Prop)
    (xs : list A) (ys : list B) (zs : list C) :
  length ys = length xs -> length zs = length xs ->
  Forall P xs -> Forall Q ys -> Forall R' zs ->
  (forall a b c, P a -> Q b -> R' c -> exists d, f a b c = Some d) ->
  exists r, mapM3 f xs ys zs = Some r /\ length r = length xs /\
    forall i a b c,
      nth_error xs i = Some a -> nth_error ys i = Some b ->
      nth_error zs i = Some c ->
      exists d, nth_error r i = Some d /\ f a b c = Some d.
Proof.
  intros Hy Hz HP. revert ys zs Hy Hz.
  induction HP as [|a xs Ha _ IH];
    intros [|b ys] [|c zs] Hy Hz HQ HR Hf; try discriminate.
  - exists []. repeat split. intros [|i] ? ? ?; discriminate.
  - inversion HQ as [|? ? Hb HQ']; subst.
    inversion HR as [|? ? Hc HR']; subst.
    destruct (Hf a b c Ha Hb Hc) as (d & Hd).
    destruct (IH ys zs) as (r & Hr & Hl & Hnth);
      [now injection Hy | now injection Hz | assumption | assumption
      | assumption |].
    exists (d :: r). cbn. rewrite Hd, Hr. repeat split.
    + cbn. now rewrite Hl.
    + intros [|i] a' b' c' Hi Hj Hk; cbn in *.
      * injection Hi as <-. injection Hj as <-. injection Hk as <-.
        now exists d.
      * now apply Hnth.
Qed.

Lemma length4 {A : Type} (l : list A) :
  length l = 4 -> exists a b c d, l = [a; b; c; d].
Proof.
  destruct l as [|a [|b [|c [|d [|e l]]]]]; try discriminate.
  intros _. now exists a, b, c, d.
Qed.

Section UpwindReal.
Local Open Scope R_scope.

Lemma upwind_cell_value (direction : nat) (v_x v_y n_x n_y : R)
    (u0 u1 u2 u3 w0 w1 w2 w3 : list R) :
  Advection.upwind_cell [v_x; v_y] direction [u0; u1; u2; u3]
    [w0; w1; w2; w3] [n_x; n_y] =
    Some (match direction with
          | 0%nat =>
              [[v_x * np_sum w2 * n_x]; [v_x * np_sum w3 * n_x]; [0]; [0]]
          | 2%nat =>
              [[0]; [0]; [v_x * np_sum u2 * n_x]; [v_x * np_sum u3 * n_x]]
          | _ => [[0]; [0]; [0]; [0]]
          end).
Proof.
  destruct direction as [|[|[|direction]]]; cbn;
    change (fun x : R => v_x * x) with (Rmult v_x);
    change (fun x : R => v_y * x) with (Rmult v_y);
    change (map (mul v_x)) with (map (Rmult v_x));
    rewrite ?np_sum_scaled; unfold np_sum; cbn;
    repeat (f_equal; try field).
Qed.

(** X15. [upwind] takes the state upstream of the face.  On cells of four
    degrees of freedom, with the velocity (v_x, v_y) and the normals
    (n_x, n_y), a face in direction 0 gets, at the degrees of freedom 0 and
    1, the flux v_x u n_x of the degrees of freedom 2 and 3 of the
    neighbour; a face in direction 2 gets, at the degrees of freedom 2 and
    3, that of the cell's own degrees of freedom 2 and 3; u is the sum of
    the fields.  Every other entry is zero, and so is the whole flux in
    any other direction: v_y, n_y and the faces in direction 1 and 3 play
    no part (float64 idealised as the real numbers). *)
Theorem upwind_takes_the_upstream_state
    (v_x v_y : R) (values n_values : list (list (list R)))
    (normals : list (list R)) (direction n : nat) :
  length values = n -> Forall (fun cell => length cell = 4%nat) values ->
  length n_values = n -> Forall (fun cell => length cell = 4%nat) n_values ->
  shape2 n 2 normals ->
  exists FS,
    Advection.upwind [v_x; v_y] values n_values normals direction = Some FS /\
    length FS = n /\
    forall i u0 u1 u2 u3 w0 w1 w2 w3 n_x n_y,
      nth_error values i = Some [u0; u1; u2; u3] ->
      nth_error n_values i = Some [w0; w1; w2; w3] ->
      nth_error normals i = Some [n_x; n_y] ->
      nth_error FS i =
        Some (match direction with
              | 0%nat =>
                  [[v_x * np_sum w2 * n_x]; [v_x * np_sum w3 * n_x]; [0]; [0]]
              | 2%nat =>
                  [[0]; [0]; [v_x * np_sum u2 * n_x]; [v_x * np_sum u3 * n_x]]
              | _ => [[0]; [0]; [0]; [0]]
              end).
Proof.
  intros Hn Hvalues Hn' Hn_values [Hnn Hnormals].
  destruct (mapM3_rel (Advection.upwind_cell [v_x; v_y] direction)
              (fun cell => length cell = 4%nat)
              (fun cell => length cell = 4%nat)
              (fun normal => length normal = 2%nat)
              values n_values normals)
    as (FS & HFS & Hlen & Hnth);
    [congruence | congruence | assumption | assumption | assumption | |].
  - intros a b c Ha Hb Hc.
    destruct (length4 a Ha) as (u0 & u1 & u2 & u3 & ->).
    destruct (length4 b Hb) as (w0 & w1 & w2 & w3 & ->).
    destruct (length2 c Hc) as (n_x & n_y & ->).
    rewrite upwind_cell_value. now eexists.
  - exists FS. split; [exact HFS|]. split; [congruence|].
    intros i u0 u1 u2 u3 w0 w1 w2 w3 n_x n_y Hu Hw Hnormal.
    destruct (Hnth i _ _ _ Hu Hw Hnormal) as (d & -> & Hd).
    now rewrite upwind_cell_value in Hd.
Qed.

(** X15 on one cell, in direction 0. *)
Lemma upwind_takes_the_upstream_state_witness :
  exists FS,
    Advection.upwind [1; 0] [[[1]; [2]; [3]; [4]]] [[[5]; [6]; [7]; [8]]]
      [[-1; 0]] 0 = Some FS /\ length FS = 1%nat.
Proof.
  destruct (upwind_takes_the_upstream_state 1 0
              [[[1]; [2]; [3]; [4]]] [[[5]; [6]; [7]; [8]]] [[-1; 0]]
              0%nat 1%nat)
    as (FS & HFS & Hlen & _).
  - reflexivity.
  - repeat constructor.
  - reflexivity.
  - repeat constructor.
  - split; [reflexivity | repeat constructor].
  - now exists FS.
Defined.
End UpwindReal.

(** In float64 the two halves of the formula of [upwind] are rounded
    before they are subtracted: with the value 2^60 in the cell and 7 in the
    neighbour the face in direction 0 gets the flux 0 at the degree of
    freedom 0, not the 7 of the neighbour times the normal. *)
Lemma upwind_rounds_in_float64 :
  (@Advection.upwind float _ [1; 0]
     [[[0x1p60]; [2]; [3]; [4]]] [[[5]; [6]; [7]; [8]]] [[-1; 0]] 0
   = Some [[[0]; [-8]; [0]; [0]]])%float.
Proof. reflexivity. Qed.

(** ** The limiter of the advection scheme (test_advectionDG.py) *)

Section LimiterRows.
Context {T : Type} `{Scalar T} `{Compare T}.
Local Open Scope num_scope.

(** [limiter] works row by row: [uavg[j]] is read in the turn [j] of the
    loop only. *)
Lemma limiter_by_rows (values : list (list (list (list T)))) :
  Advection.limiter values =
    mapM (fun row =>
            uavg_row <- mapM Advection.uavg_cell row ;;
            Advection.limiter_row row uavg_row) values.
Proof.
  unfold Advection.limiter.
  induction values as [|row values IH]; [reflexivity|].
  cbn [mapM]. destruct (mapM Advection.uavg_cell row) as [uavg_row|];
    [|reflexivity].
  rewrite <- IH.
  destruct (mapM (mapM Advection.uavg_cell) values) as [uavg|]; cbn [mapM2].
  - reflexivity.
  - now destruct (Advection.limiter_row row uavg_row).
Qed.

Lemma uavg_cell_total (nf : nat) (cell : list (list T)) :
  shape2 4 nf cell -> exists uavg, Advection.uavg_cell cell = Some uavg.
Proof.
  intros [H4 _]. destruct (length4 cell H4) as (v0 & v1 & v2 & v3 & ->).
  now eexists.
Qed.

(** The turn [j] of the loop of [limiter], on a row whose first cell has
    four degrees of freedom with at least one field: the field 0 of the
    degree of freedom [i] becomes theta (x_i - a) + a, where [a] is the
    quarter of the sum of the four. *)
Lemma limiter_row_value (nf : nat) (x0 x1 x2 x3 : T) (r0 r1 r2 r3 : list T)
    (rest : list (list (list T))) :
  Forall (shape2 4 nf) rest ->
  let a := Advection.quarter * (x0 + x1 + x2 + x3) in
  let minu := minv (minv (minv x0 x1) x2) x3 in
  let maxu := maxv (maxv (maxv x0 x1) x2) x3 in
  let th := Advection.theta minu maxu a in
  (uavg_row <-
     mapM Advection.uavg_cell
       ([x0 :: r0; x1 :: r1; x2 :: r2; x3 :: r3] :: rest) ;;
   Advection.limiter_row
     ([x0 :: r0; x1 :: r1; x2 :: r2; x3 :: r3] :: rest) uavg_row) =
    Some ([ (th * (x0 - a) + a) :: r0; (th * (x1 - a) + a) :: r1;
            (th * (x2 - a) + a) :: r2; (th * (x3 - a) + a) :: r3 ] :: rest).
Proof.
  intros Hrest a minu maxu th.
  destruct (mapM_rel Advection.uavg_cell (shape2 4 nf) (fun _ => True)
              rest Hrest)
    as (uavg_rest & Hu & _).
  { intros cell Hcell. destruct (uavg_cell_total nf cell Hcell) as [u Hu].
    now exists u. }
  cbn [mapM]. rewrite Hu. reflexivity.
Qed.
End LimiterRows.

Section LimiterArray.
Context {T : Type} `{Scalar T} `{Compare T}.
Local Open Scope num_scope.

Lemma nonempty_cons (nf : nat) (dof : list T) :
  0 < nf -> length dof = nf -> exists x r, dof = x :: r.
Proof.
  intros Hnf Hlen. destruct dof as [|x r]; [cbn in Hlen; lia|].
  now exists x, r.
Qed.

(** [limiter] on an array [nx, ny, 4, nf] with ny > 0 and nf > 0: it
    returns, and the cell [j, 0] of the result is the cell [j, 0] of the
    argument with the field 0 limited; the cells [j, 1], [j, 2], ... and
    the further fields are left as they are. *)
Lemma limiter_at (nf : nat) (values : list (list (list (list T)))) :
  0 < nf ->
  Forall (fun row => row <> [] /\ Forall (shape2 4 nf) row) values ->
  exists values',
    Advection.limiter values = Some values' /\
    length values' = length values /\
    forall j x0 r0 x1 r1 x2 r2 x3 r3 rest,
      nth_error values j =
        Some ([x0 :: r0; x1 :: r1; x2 :: r2; x3 :: r3] :: rest) ->
      let a := Advection.quarter * (x0 + x1 + x2 + x3) in
      let minu := minv (minv (minv x0 x1) x2) x3 in
      let maxu := maxv (maxv (maxv x0 x1) x2) x3 in
      let th := Advection.theta minu maxu a in
      nth_error values' j =
        Some ([ (th * (x0 - a) + a) :: r0; (th * (x1 - a) + a) :: r1;
                (th * (x2 - a) + a) :: r2; (th * (x3 - a) + a) :: r3 ]
              :: rest).
Proof.
  intros Hnf Hshape. rewrite limiter_by_rows.
  destruct (mapM_rel
              (fun row =>
                 uavg_row <- mapM Advection.uavg_cell row ;;
                 Advection.limiter_row row uavg_row)
              (fun row => row <> [] /\ Forall (shape2 4 nf) row)
              (fun _ => True) values Hshape)
    as (values' & Hv & Hlen & _ & Hnth).
  - intros row [Hne Hrow]. destruct row as [|cell rest]; [congruence|].
    inversion Hrow as [|? ? [H4 Hdofs] Hrest]; subst.
    destruct (length4 cell H4) as (d0 & d1 & d2 & d3 & ->).
    inversion Hdofs as [|? ? H0' Hd1]; subst.
    inversion Hd1 as [|? ? H1' Hd2]; subst.
    inversion Hd2 as [|? ? H2' Hd3]; subst.
    inversion Hd3 as [|? ? H3' _]; subst.
    destruct (nonempty_cons _ d0 Hnf eq_refl) as (x0 & r0 & ->).
    destruct (nonempty_cons _ d1 Hnf H1') as (x1 & r1 & ->).
    destruct (nonempty_cons _ d2 Hnf H2') as (x2 & r2 & ->).
    destruct (nonempty_cons _ d3 Hnf H3') as (x3 & r3 & ->).
    rewrite (limiter_row_value (length (x0 :: r0))); [|assumption].
    now eexists.
  - exists values'. split; [exact Hv|]. split; [exact Hlen|].
    intros j x0 r0 x1 r1 x2 r2 x3 r3 rest Hj a minu maxu th.
    destruct (Hnth j _ Hj) as (row' & -> & Hrow').
    pose proof (proj1 (Forall_forall _ _) Hshape _ (nth_error_In _ _ Hj))
      as [_ Hrow].
    inversion Hrow as [|? ? _ Hrest]; subst.
    rewrite (limiter_row_value nf) in Hrow'; [|assumption].
    exact (eq_sym Hrow').
Qed.
End LimiterArray.

Section LimiterReal.
Local Open Scope R_scope.

Lemma py_min3_real (a b c : R) :
  py_min3 a b c <= a /\ py_min3 a b c <= b /\ py_min3 a b c <= c /\
  (py_min3 a b c = a \/ py_min3 a b c = b \/ py_min3 a b c = c).
Proof.
  unfold py_min3. cbn.
  destruct (Rlt_dec b a); destruct (Rlt_dec c _); repeat split; try lra;
    auto.
Qed.

Lemma min4_le (x0 x1 x2 x3 : R) :
  let m := Rmin (Rmin (Rmin x0 x1) x2) x3 in
  m <= x0 /\ m <= x1 /\ m <= x2 /\ m <= x3.
Proof.
  cbn. pose proof (Rmin_l (Rmin (Rmin x0 x1) x2) x3).
  pose proof (Rmin_r (Rmin (Rmin x0 x1) x2) x3).
  pose proof (Rmin_l (Rmin x0 x1) x2). pose proof (Rmin_r (Rmin x0 x1) x2).
  pose proof (Rmin_l x0 x1). pose proof (Rmin_r x0 x1).
  repeat split; lra.
Qed.

Lemma max4_ge (x0 x1 x2 x3 : R) :
  let M := Rmax (Rmax (Rmax x0 x1) x2) x3 in
  x0 <= M /\ x1 <= M /\ x2 <= M /\ x3 <= M.
Proof.
  cbn. pose proof (Rmax_l (Rmax (Rmax x0 x1) x2) x3).
  pose proof (Rmax_r (Rmax (Rmax x0 x1) x2) x3).
  pose proof (Rmax_l (Rmax x0 x1) x2). pose proof (Rmax_r (Rmax x0 x1) x2).
  pose proof (Rmax_l x0 x1). pose proof (Rmax_r x0 x1).
  repeat split; lra.
Qed.

(** In a cell that is not constant the mean lies strictly between the
    least and the greatest degree of freedom. *)
Lemma mean_between (x0 x1 x2 x3 : R) :
  ~ (x0 = x1 /\ x1 = x2 /\ x2 = x3) ->
  let a := 1 / 2 * (1 / 2) * (x0 + x1 + x2 + x3) in
  Rmin (Rmin (Rmin x0 x1) x2) x3 < a < Rmax (Rmax (Rmax x0 x1) x2) x3.
Proof.
  intros Hnc a.
  destruct (min4_le x0 x1 x2 x3) as (? & ? & ? & ?).
  destruct (max4_ge x0 x1 x2 x3) as (? & ? & ? & ?).
  unfold a. split.
  - apply Rnot_le_lt. intros Hle. apply Hnc. repeat split; lra.
  - apply Rnot_le_lt. intros Hle. apply Hnc. repeat split; lra.
Qed.

Lemma ratio_ge_one (u v : R) : 0 < v -> v <= u -> 1 <= Rabs (u / v).
Proof.
  intros Hv Hu. apply Rle_trans with (u / v); [|apply Rle_abs].
  apply Rnot_lt_le. intros Hlt.
  apply (Rmult_lt_compat_r v) in Hlt; [|exact Hv].
  replace (u / v * v) with u in Hlt by (field; lra). lra.
Qed.

Lemma div_nonneg (u v : R) : 0 <= u -> 0 < v -> 0 <= u / v.
Proof.
  intros Hu Hv. unfold Rdiv. apply Rmult_le_pos; [exact Hu|].
  left. now apply Rinv_0_lt_compat.
Qed.

Lemma theta_bounds (m M a : R) :
  m < a < M -> 0 <= a <= 1 ->
  let th := Advection.theta m M a in
  0 <= th /\ th * (M - a) <= 1 - a /\ th * (a - m) <= a.
Proof.
  intros [Hm HM] [Ha0 Ha1] th. unfold th, Advection.theta.
  cbn [zero one sub div absv R_scalar].
  set (A := Rabs ((1 - a) / (M - a))). set (B := Rabs ((0 - a) / (m - a))).
  assert (HA : A * (M - a) = 1 - a).
  { unfold A. rewrite Rabs_pos_eq; [field; lra|].
    apply div_nonneg; lra. }
  assert (HB : B * (a - m) = a).
  { unfold B. replace ((0 - a) / (m - a)) with (a / (a - m)) by (field; lra).
    rewrite Rabs_pos_eq; [field; lra|]. apply div_nonneg; lra. }
  assert (HA0 : 0 <= A) by apply Rabs_pos.
  assert (HB0 : 0 <= B) by apply Rabs_pos.
  destruct (py_min3_real 1 A B) as (H1 & H2 & H3 & Hin).
  split; [destruct Hin as [->|[->| ->]]; lra|]. split.
  - apply Rle_trans with (A * (M - a)); [|lra].
    apply Rmult_le_compat_r; lra.
  - apply Rle_trans with (B * (a - m)); [|lra].
    apply Rmult_le_compat_r; lra.
Qed.

Lemma limited_within_bounds (th m M a x : R) :
  0 <= th -> th * (M - a) <= 1 - a -> th * (a - m) <= a ->
  m <= x <= M -> 0 <= th * (x - a) + a <= 1.
Proof.
  intros Hth HM Hm [Hx1 Hx2].
  pose proof (Rmult_le_compat_l th (x - a) (M - a) Hth) as H1.
  pose proof (Rmult_le_compat_l th (a - x) (a - m) Hth) as H2.
  split.
  - assert (th * (a - x) <= th * (a - m)) by (apply H2; lra).
    replace (th * (x - a)) with (- (th * (a - x))) by ring. lra.
  - assert (th * (x - a) <= th * (M - a)) by (apply H1; lra). lra.
Qed.

Lemma theta_one (m M a : R) :
  m < a < M -> 0 <= m -> M <= 1 -> Advection.theta m M a = 1.
Proof.
  intros [Hm HM] Hm0 HM1. unfold Advection.theta.
  cbn [zero one sub div absv R_scalar].
  assert (HA : 1 <= Rabs ((1 - a) / (M - a)))
    by (apply ratio_ge_one; lra).
  assert (HB : 1 <= Rabs ((0 - a) / (m - a))).
  { replace ((0 - a) / (m - a)) with (a / (a - m)) by (field; lra).
    apply ratio_ge_one; lra. }
  unfold py_min3. cbn.
  destruct (Rlt_dec (Rabs ((1 - a) / (M - a))) 1); [lra|].
  destruct (Rlt_dec (Rabs ((0 - a) / (m - a))) 1); [lra|]. reflexivity.
Qed.

(** X16. [limiter] keeps the mean of every cell it limits and touches
    nothing else.  On an array [nx, ny, 4, nf] with ny > 0 and nf > 0 it
    returns an array in which, for every j, the field 0 of the four
    degrees of freedom of the cell [j, 0] has the sum it had before, and
    the other fields of that cell and the cells [j, 1], [j, 2], ... are
    unchanged (float64 idealised as the real numbers). *)
Theorem limiter_keeps_the_cell_mean
    (nf : nat) (values : list (list (list (list R)))) :
  (0 < nf)%nat ->
  Forall (fun row => row <> [] /\ Forall (shape2 4 nf) row) values ->
  exists values',
    Advection.limiter values = Some values' /\
    length values' = length values /\
    forall j x0 r0 x1 r1 x2 r2 x3 r3 rest,
      nth_error values j =
        Some ([x0 :: r0; x1 :: r1; x2 :: r2; x3 :: r3] :: rest) ->
      exists y0 y1 y2 y3,
        nth_error values' j =
          Some ([y0 :: r0; y1 :: r1; y2 :: r2; y3 :: r3] :: rest) /\
        y0 + y1 + y2 + y3 = x0 + x1 + x2 + x3.
Proof.
  intros Hnf Hshape.
  destruct (limiter_at nf values Hnf Hshape) as (values' & Hv & Hlen & Hat).
  exists values'. split; [exact Hv|]. split; [exact Hlen|].
  intros j x0 r0 x1 r1 x2 r2 x3 r3 rest Hj.
  do 4 eexists. split; [exact (Hat j _ _ _ _ _ _ _ _ _ Hj)|].
  unfold Advection.quarter. cbn [half mul add sub R_scalar]. field.
Qed.

(** X16 on a mesh of two cells. *)
Lemma limiter_keeps_the_cell_mean_witness :
  exists values',
    Advection.limiter
      [[ [[3 / 2]; [1 / 2]; [1 / 4]; [3 / 4]] ];
       [ [[1 / 2]; [1 / 2]; [1 / 2]; [1 / 2]] ]] = Some values'
    /\ length values' = 2%nat.
Proof.
  destruct (limiter_keeps_the_cell_mean 1
              [[ [[3 / 2]; [1 / 2]; [1 / 4]; [3 / 4]] ];
               [ [[1 / 2]; [1 / 2]; [1 / 2]; [1 / 2]] ]])
    as (values' & Hv & Hlen & _).
  - lia.
  - repeat constructor; discriminate.
  - now exists values'.
Defined.

(** X17. [limiter] brings every cell whose mean is admissible within the
    bounds, and leaves admissible cells alone.  For a cell [j, 0] that is
    not constant: when the mean of its four degrees of freedom lies in
    [0, 1], all four lie in [0, 1] afterwards; when all four lie in [0, 1]
    already, they are unchanged (float64 idealised as the real
    numbers). *)
Theorem limiter_enforces_the_bounds
    (nf : nat) (values : list (list (list (list R)))) :
  (0 < nf)%nat ->
  Forall (fun row => row <> [] /\ Forall (shape2 4 nf) row) values ->
  exists values',
    Advection.limiter values = Some values' /\
    forall j x0 r0 x1 r1 x2 r2 x3 r3 rest,
      nth_error values j =
        Some ([x0 :: r0; x1 :: r1; x2 :: r2; x3 :: r3] :: rest) ->
      ~ (x0 = x1 /\ x1 = x2 /\ x2 = x3) ->
      exists y0 y1 y2 y3,
        nth_error values' j =
          Some ([y0 :: r0; y1 :: r1; y2 :: r2; y3 :: r3] :: rest) /\
        (0 <= (x0 + x1 + x2 + x3) / 4 <= 1 ->
         Forall (fun y => 0 <= y <= 1) [y0; y1; y2; y3]) /\
        (Forall (fun x => 0 <= x <= 1) [x0; x1; x2; x3] ->
         [y0; y1; y2; y3] = [x0; x1; x2; x3]).
Proof.
  intros Hnf Hshape.
  destruct (limiter_at nf values Hnf Hshape) as (values' & Hv & _ & Hat).
  exists values'. split; [exact Hv|].
  intros j x0 r0 x1 r1 x2 r2 x3 r3 rest Hj Hnc.
  do 4 eexists. split; [exact (Hat j _ _ _ _ _ _ _ _ _ Hj)|].
  unfold Advection.quarter. cbn [half mul add sub minv maxv R_scalar].
  set (a := 1 / 2 * (1 / 2) * (x0 + x1 + x2 + x3)).
  set (m := Rmin (Rmin (Rmin x0 x1) x2) x3).
  set (M := Rmax (Rmax (Rmax x0 x1) x2) x3).
  pose proof (mean_between x0 x1 x2 x3 Hnc) as Hbetween.
  cbn zeta in Hbetween. fold a m M in Hbetween.
  destruct (min4_le x0 x1 x2 x3) as (Hm0 & Hm1 & Hm2 & Hm3).
  destruct (max4_ge x0 x1 x2 x3) as (HM0 & HM1 & HM2 & HM3).
  fold m in Hm0, Hm1, Hm2, Hm3. fold M in HM0, HM1, HM2, HM3.
  split.
  - intros Hmean.
    assert (Ha : 0 <= a <= 1) by (unfold a; lra).
    destruct (theta_bounds m M a Hbetween Ha) as (Hth & HthM & Hthm).
    repeat (apply Forall_cons;
            [apply (limited_within_bounds _ m M); try assumption; lra|]).
    apply Forall_nil.
  - intros Hall.
    inversion Hall as [|? ? Hx0 Hall1]; subst.
    inversion Hall1 as [|? ? Hx1 Hall2]; subst.
    inversion Hall2 as [|? ? Hx2 Hall3]; subst.
    inversion Hall3 as [|? ? Hx3 _]; subst.
    assert (Hm : 0 <= m).
    { unfold m, Rmin. repeat destruct (Rle_dec _ _); lra. }
    assert (HM : M <= 1).
    { unfold M, Rmax. repeat destruct (Rle_dec _ _); lra. }
    rewrite (theta_one m M a Hbetween Hm HM).
    repeat (f_equal; try ring).
Qed.

(** X17 on a mesh of one cell. *)
Lemma limiter_enforces_the_bounds_witness :
  exists values',
    Advection.limiter [[ [[3 / 2]; [1 / 2]; [1 / 4]; [3 / 4]] ]]
      = Some values'.
Proof.
  destruct (limiter_enforces_the_bounds 1
              [[ [[3 / 2]; [1 / 2]; [1 / 4]; [3 / 4]] ]])
    as (values' & Hv & _).
  - lia.
  - repeat constructor; discriminate.
  - now exists values'.
Defined.
End LimiterReal.

(** ** The tableau of the two-stage schemes (test_advectionDG.py) *)

Section ButcherReal.
Local Open Scope R_scope.

End ButcherReal.

(** ** The helpers of test_twoscale.py *)

Section BroadcastSameLength.
Context {T : Type} `{Scalar T}.

Lemma broadcast_same_length (f : T -> T -> T) (a b : list T) :
  length a = length b -> broadcast f a b = Some (zip_with f a b).
Proof.
  intros Hlen. unfold broadcast.
  destruct a as [|x [|x' a]]; destruct b as [|y [|y' b]];
    try discriminate; try reflexivity.
  now rewrite Hlen, Nat.eqb_refl.
Qed.

Lemma broadcast_swap (f g : T -> T -> T) (h : T -> T) (a b : list T) :
  (forall x y, h (f x y) = h (g y x)) ->
  option_map (map h) (broadcast f a b) = option_map (map h) (broadcast g b a).
Proof.
  intros Hfg.
  assert (Hzip : forall a b,
             map h (zip_with f a b) = map h (zip_with g b a)).
  { clear a b. induction a as [|x a IH]; intros [|y b]; cbn;
      try reflexivity. now rewrite Hfg, IH. }
  unfold broadcast.
  destruct a as [|x [|x' a]]; destruct b as [|y [|y' b]];
    cbn [option_map map length Nat.eqb]; try reflexivity.
  - now rewrite Hfg.
  - f_equal. cbn. rewrite !Hfg. f_equal. f_equal.
    rewrite !map_map. apply map_ext. intros z. apply Hfg.
  - f_equal. cbn. rewrite !Hfg. f_equal. f_equal.
    rewrite !map_map. apply map_ext. intros z. apply Hfg.
  - rewrite (Nat.eqb_sym (length b) (length a)).
    destruct (Nat.eqb (length a) (length b)); cbn [option_map];
      [|reflexivity].
    f_equal. apply (Hzip (x :: x' :: a) (y :: y' :: b)).
Qed.
End BroadcastSameLength.

Section TwoScaleHelpers.
Local Open Scope R_scope.

Lemma SFabs_zeq_opp (a b : spec_float) :
  zeq a (SFopp b) -> SFabs a = SFabs b.
Proof. destruct a, b; cbn; congruence. Qed.

(** |x - y| = |y - x| in float64, NaN and signed zeros included. *)
Lemma f_abs_sub_sym (x y : float) :
  PrimFloat.abs (x - y)%float = PrimFloat.abs (y - x)%float.
Proof.
  apply Prim2SF_inj. rewrite !abs_spec. apply SFabs_zeq_opp.
  rewrite <- opp_spec. apply f_sub_antisym.
Qed.

Lemma zip_with_abs_zero (a b : list R) :
  length a = length b ->
  Forall (fun e => e = 0) (np_abs (zip_with Rminus a b)) <-> a = b.
Proof.
  revert b. induction a as [|x a IH]; intros [|y b] Hlen; try discriminate.
  - split; [reflexivity | constructor].
  - cbn. split.
    + intros Hall. inversion Hall as [|? ? Hxy Hrest]; subst.
      f_equal.
      * destruct (Req_dec (x - y) 0) as [Hz|Hnz]; [lra|].
        now apply Rabs_no_R0 in Hnz.
      * apply IH; [now injection Hlen | assumption].
    + intros Heq. injection Heq as -> ->. constructor.
      * replace (y - y) with 0 by ring. apply Rabs_R0.
      * apply IH; reflexivity.
Qed.

Lemma zip_with_abs_scale (k : R) (a b : list R) :
  np_abs (zip_with Rminus (map (Rmult k) a) (map (Rmult k) b)) =
    map (Rmult (Rabs k)) (np_abs (zip_with Rminus a b)).
Proof.
  revert b. induction a as [|x a IH]; intros [|y b]; cbn; try reflexivity.
  f_equal; [|apply IH].
  rewrite <- Rabs_mult. f_equal. ring.
Qed.

(** X19. [relative_error] is the absolute difference.  It does not
    depend on the order of its arguments, in float64 exactly; on arrays of
    one length it is zero where, and only where, the arguments agree, and
    scaling both arguments by k scales it by |k|, so that it is not
    relative to the size of the data (float64 idealised as the real
    numbers for the last two). *)
Theorem relative_error_is_the_absolute_difference :
  (forall a b : list float,
     TwoScale.relative_error a b = TwoScale.relative_error b a) /\
  (forall a b : list R, length a = length b ->
     exists e,
       TwoScale.relative_error a b = Some e /\
       (Forall (fun x => x = 0) e <-> a = b) /\
       forall k,
         TwoScale.relative_error (map (Rmult k) a) (map (Rmult k) b) =
           Some (map (Rmult (Rabs k)) e)).
Proof.
  split.
  - intros a b. unfold TwoScale.relative_error.
    pose proof (broadcast_swap PrimFloat.sub PrimFloat.sub PrimFloat.abs
                  a b f_abs_sub_sym) as Hswap.
    cbn [sub float_scalar].
    destruct (broadcast PrimFloat.sub a b);
      destruct (broadcast PrimFloat.sub b a); cbn in Hswap;
      try discriminate; [|reflexivity].
    exact Hswap.
  - intros a b Hlen. unfold TwoScale.relative_error.
    rewrite broadcast_same_length by exact Hlen.
    eexists. split; [reflexivity|]. split.
    + now apply zip_with_abs_zero.
    + intros k. rewrite broadcast_same_length by now rewrite !length_map.
      f_equal. apply zip_with_abs_scale.
Qed.

End TwoScaleHelpers.

(** ** The time loop of test_twoscale.py *)

Section TimeLoopReal.
Local Open Scope R_scope.
Variable St : Type.
Variable CFL : St -> R.
Variable step : St -> R -> St.

Lemma time_loop_finishes_within (d final_time : R) :
  0 < d -> (forall s, d <= CFL s) ->
  forall (n : nat) (t : R) (s : St),
    final_time - t < INR n * d ->
    exists fuel t' s',
      TwoScale.time_loop CFL step fuel final_time t s =
        TwoScale.Finished St t' s' /\ final_time < t'.
Proof.
  intros Hd Hdt. induction n as [|n IH]; intros t s Hn.
  - exists 1%nat, t, s. cbn in Hn. cbn.
    destruct (Rle_dec t final_time); [lra|].
    destruct (Rle_dec final_time t); [|lra]. split; [reflexivity | lra].
  - destruct (Rle_dec t final_time) as [Hle|Hgt].
    + destruct (IH (t + CFL s) (step s (CFL s))) as (fuel & t' & s' & Hf & Ht').
      { rewrite S_INR in Hn. pose proof (Hdt s). lra. }
      exists (S fuel), t', s'. split; [|exact Ht'].
      cbn [TwoScale.time_loop]. unfold isnan. cbn [lev eqv R_compare].
      destruct (Rle_dec t final_time); [|lra].
      destruct (Req_dec_T (CFL s) (CFL s)); [|congruence].
      exact Hf.
    + exists 1%nat, t, s. cbn.
      destruct (Rle_dec t final_time); [lra|].
      destruct (Rle_dec final_time t); [|lra]. split; [reflexivity | lra].
Qed.

(** X21. The time loop ends when the time step is bounded below: if
    [scheme.CFL] returns at least d > 0 in every state, the loop leaves at a
    time beyond [final_time], so that the last assertion holds, after
    finitely many steps (float64 idealised as the real numbers). *)
Theorem time_loop_reaches_the_final_time
    (d final_time t : R) (s : St) :
  0 < d -> (forall s, d <= CFL s) ->
  exists fuel t' s',
    TwoScale.time_loop CFL step fuel final_time t s =
      TwoScale.Finished St t' s' /\ final_time < t'.
Proof.
  intros Hd Hdt.
  destruct (INR_unbounded ((final_time - t) / d)) as [n Hn].
  apply (time_loop_finishes_within d final_time Hd Hdt n).
  apply (Rmult_lt_compat_r d) in Hn; [|exact Hd].
  replace ((final_time - t) / d * d) with (final_time - t) in Hn
    by (field; lra).
  exact Hn.
Qed.
End TimeLoopReal.

(** X21 with a constant step of 1/4 up to the time 1. *)
Lemma time_loop_reaches_the_final_time_witness :
  exists fuel t' s',
    TwoScale.time_loop (fun _ : nat => (1 / 4)%R) (fun n _ => S n) fuel
      1%R 0%R 0 = TwoScale.Finished nat t' s' /\ (1 < t')%R.
Proof.
  apply (time_loop_reaches_the_final_time nat (fun _ => (1 / 4)%R)
           (fun n _ => S n) (1 / 4)%R 1%R 0%R 0).
  - lra.
  - intros s. lra.
Defined.

Section TimeLoopFloat.
Local Open Scope float_scope.
Variable St : Type.
Variable CFL : St -> float.
Variable step : St -> float -> St.

Lemma zero_eqb_refl (z : float) :
  PrimFloat.is_zero z = true -> PrimFloat.eqb z z = true.
Proof.
  intros Hz. apply is_zero_spec in Hz as [sz Hz].
  now rewrite FloatAxioms.eqb_spec, Hz.
Qed.

Lemma zero_plus_zero (z : float) :
  PrimFloat.is_zero z = true -> 0 + z = 0.
Proof.
  intros Hz. apply is_zero_spec in Hz as [sz Hz].
  apply Prim2SF_inj. rewrite add_spec, Hz. now destruct sz.
Qed.

(** X22. The time loop never ends when the time step is zero: if
    [scheme.CFL] returns a zero in every state, as it does on a mesh with a
    face of length zero, no assertion fails, the time stays 0.0 and, for a
    [final_time] that is not negative, the loop is still running after any
    number of steps (float64). *)
Theorem time_loop_stalls_on_a_zero_step (final_time : float) :
  (forall s, PrimFloat.is_zero (CFL s) = true) ->
  PrimFloat.leb 0 final_time = true ->
  forall (fuel : nat) (s : St),
    exists s',
      TwoScale.time_loop CFL step fuel final_time 0 s =
        TwoScale.Running St 0 s'.
Proof.
  intros Hzero Hfinal. induction fuel as [|fuel IH]; intros s.
  - now exists s.
  - cbn [TwoScale.time_loop]. cbn [lev float_compare]. rewrite Hfinal.
    unfold isnan. cbn [eqv float_compare].
    rewrite (zero_eqb_refl _ (Hzero s)). cbn [negb].
    cbn [add float_scalar]. rewrite (zero_plus_zero _ (Hzero s)).
    apply IH.
Qed.
End TimeLoopFloat.

(** X22 with the step 0.0 of a degenerate mesh, after five turns. *)
Lemma time_loop_stalls_on_a_zero_step_witness :
  exists s',
    TwoScale.time_loop (fun _ : nat => 0%float) (fun n _ => S n) 5
      1%float 0%float 0 = TwoScale.Running nat 0%float s'.
Proof.
  apply (time_loop_stalls_on_a_zero_step nat (fun _ => 0%float)
           (fun n _ => S n) 1%float); reflexivity.
Defined.
